(** * langid.py training pipeline: LDfeatureselect.py and train.py

    A shallow embedding of the feature-selection and training scripts,
    with the properties of their specification stated over it.

    Conventions of the embedding.
    - The scripts are a mechanical port of Python 2 code and only run
      under the iterator protocol they were written against: a
      [StopIteration] that escapes a generator expression ends that
      expression (the enclosing [tuple(...)] keeps what was produced so
      far), one that escapes a generator body ends the generator, and
      [/] on two integers is floor division.  The embedding follows
      that protocol.
    - Python dictionaries are [gmap]s, sets are duplicate-free lists or
      [gset]s, generators are the lists of the values they yield.
    - A raised exception is a value of an error type; a loop whose
      termination is not structural carries fuel and reports
      [OutOfFuel] when the fuel runs out.  The fuel given is proved
      sufficient wherever the source terminates; [OutOfFuel] is the
      result exactly where the source loops forever (the tokenizer
      with [max_order = 0]). *)

From Stdlib Require Import List Arith ZArith Lia Ascii String Bool.
From Stdlib Require Import Reals Lra.
From Stdlib.Strings Require Import Byte.
From stdpp Require Import base gmap list strings sorting.
Import ListNotations.

(** ** Exceptions *)

Inductive exn : Type :=
  | EOFError
  | ValueError
  | TypeError
  | KeyError
  | IndexError
  | OverflowError
  | ZeroDivisionError
  | OSError
  | OutOfFuel.

Global Instance exn_eq_dec : EqDecision exn.
Proof. solve_decision. Defined.

Inductive result (A : Type) : Type :=
  | Ok (a : A)
  | Raise (e : exn).
Arguments Ok {A} a.
Arguments Raise {A} e.

Global Instance result_ret : MRet result := fun A a => Ok a.
Global Instance result_bind : MBind result := fun A B k m =>
  match m with
  | Ok a => k a
  | Raise e => Raise e
  end.

(** [d[k]] on a dictionary without default. *)
Definition getitem `{Countable K} {V} (d : gmap K V) (k : K) : result V :=
  match d !! k with
  | Some v => Ok v
  | None => Raise KeyError
  end.

(** [for x in l: acc = body(acc, x)], stopping at the first exception. *)
Fixpoint foldR {A S} (body : S → A → result S) (l : list A) (s : S) : result S :=
  match l with
  | [] => Ok s
  | x :: l' => s' ← body s x; foldR body l' s'
  end.

(** [map] with exceptions, left to right. *)
Fixpoint mapR {A B} (f : A → result B) (l : list A) : result (list B) :=
  match l with
  | [] => Ok []
  | x :: l' => y ← f x; ys ← mapR f l'; Ok (y :: ys)
  end.

(** ** LDfeatureselect.Tokenizer *)

Module Tokenizer.
Section Tok.
Context {A : Type}.

(** An iterator over a sequence is the list of the elements it has
    still to produce; [next] returns [None] for StopIteration. *)
Definition next (it : list A) : option (A * list A) :=
  match it with
  | [] => None
  | x :: it' => Some (x, it')
  end.

(** [for j in range(i): next(t)] *)
Fixpoint advance (i : nat) (it : list A) : option (list A) :=
  match i with
  | 0 => Some it
  | S i' =>
      match next it with
      | None => None
      | Some (_, it') => advance i' it'
      end
  end.

(** [for i in range(max_order): for j in range(i): next(t[i])]
    over the copies made by [tee]; [k] is the index of the first copy
    in [ts]. *)
Fixpoint advance_all (k : nat) (ts : list (list A)) : option (list (list A)) :=
  match ts with
  | [] => Some []
  | t :: ts' =>
      match advance k t with
      | None => None
      | Some t' =>
          match advance_all (S k) ts' with
          | None => None
          | Some r => Some (t' :: r)
          end
      end
  end.

(** [tuple(next(tn) for tn in t)]: the iterators are polled in order
    and the first exhausted one ends the tuple; iterators before it
    have moved, those after it have not. *)
Fixpoint pull (ts : list (list A)) : list A * list (list A) :=
  match ts with
  | [] => ([], [])
  | t :: ts' =>
      match next t with
      | None => ([], ts)
      | Some (x, t') =>
          let '(tok, r) := pull ts' in
          (x :: tok, t' :: r)
      end
  end.

(** [token[a:b]] *)
Definition slice (tok : list A) (a b : nat) : list A :=
  firstn (b - a) (skipn a tok).

(** [for n in range(max_order): yield token[:n+1]] *)
Definition prefixes (max_order : nat) (tok : list A) : list (list A) :=
  map (fun n => slice tok 0 (n + 1)) (seq 0 max_order).

(** [for a in range(max_order-1): for b in range(1, max_order-a):
       yield token[a:a+b]] *)
Definition tail_tokens (max_order : nat) (tok : list A) : list (list A) :=
  flat_map (fun a => map (fun b => slice tok a (a + b)) (seq 1 (max_order - a - 1)))
           (seq 0 (max_order - 1)).

(** The [while True] loop and the code after it.  With at least one
    iterator every full round consumes one element of each, so
    [length seq + 1] rounds are enough; with [max_order = 0] there is
    no iterator, every round finds the empty token as long as it
    should be, and the loop never ends. *)
Fixpoint main_loop (fuel max_order : nat) (ts : list (list A)) : option (list (list A)) :=
  match fuel with
  | 0 => None
  | S fuel' =>
      let '(token, ts') := pull ts in
      if length token <? max_order
      then Some (tail_tokens max_order token)
      else match main_loop fuel' max_order ts' with
           | None => None
           | Some r => Some (prefixes max_order token ++ r)
           end
  end.

(** [Tokenizer(max_order)(seq)], as the list of yielded tokens.  When
    advancing the copies runs off the end of [seq] the StopIteration
    leaves the generator body and the generator ends without a token. *)
Definition call_fuel (fuel max_order : nat) (sq : list A) : option (list (list A)) :=
  match advance_all 0 (repeat sq max_order) with
  | None => Some []
  | Some ts => main_loop fuel max_order ts
  end.

Definition call (max_order : nat) (sq : list A) : result (list (list A)) :=
  match call_fuel (S (length sq)) max_order sq with
  | Some tokens => Ok tokens
  | None => Raise OutOfFuel
  end.

(** The n-grams of [sq] of orders 1 to [max_order]: the contiguous
    subsequences of those lengths. *)
Definition is_ngram (max_order : nat) (sq tok : list A) : Prop :=
  ∃ i n, 1 ≤ n ∧ n ≤ max_order ∧ i + n ≤ length sq ∧ tok = firstn n (skipn i sq).

(** The same as a list: for every start [i], the slices of lengths 1
    to [max_order] that fit. *)
Definition ngrams (max_order : nat) (sq : list A) : list (list A) :=
  flat_map (fun i => map (fun n => firstn n (skipn i sq))
                         (seq 1 (Nat.min max_order (length sq - i))))
           (seq 0 (length sq)).

End Tok.
End Tokenizer.


(** ** Helpers shared by both scripts *)

Module Common.
Section Seq.
Context {A : Type}.

(** [tuple(next(seq_iter) for i in range(chunksize))] and the iterator
    after it. *)
Fixpoint take_chunk (chunksize : nat) (it : list A) : list A * list A :=
  match chunksize with
  | 0 => ([], it)
  | S n =>
      match Tokenizer.next it with
      | None => ([], it)
      | Some (x, it') => let '(c, r) := take_chunk n it' in (x :: c, r)
      end
  end.

Fixpoint chunk_fuel (fuel : nat) (it : list A) (chunksize : nat) : option (list (list A)) :=
  match fuel with
  | 0 => None
  | S fuel' =>
      let '(c, it') := take_chunk chunksize it in
      if length c =? 0 then Some []
      else match chunk_fuel fuel' it' chunksize with
           | None => None
           | Some r => Some (c :: r)
           end
  end.

(** [chunk(seq, chunksize)], as the list of the chunks it yields. *)
Definition chunk (sq : list A) (chunksize : nat) : list (list A) :=
  default [] (chunk_fuel (S (length sq)) sq chunksize).

(** [offsets(chunks)]: [chunk_offsets.append(chunk_offsets[-1] + len(c))]. *)
Fixpoint offsets_from (last : nat) (chunks : list (list A)) : list nat :=
  match chunks with
  | [] => []
  | c :: cs => (last + length c) :: offsets_from (last + length c) cs
  end.

Definition offsets (chunks : list (list A)) : list nat :=
  0 :: offsets_from 0 chunks.

(** [enumerate(seq)] *)
Definition enumerate (l : list A) : list (nat * A) :=
  combine (seq 0 (length l)) l.

End Seq.

(** [index(seq)]: [dict((k,v) for (v,k) in enumerate(seq))] *)
Definition index `{Countable K} (sq : list K) : gmap K nat :=
  fold_left (fun d '(v, k) => <[k := v]> d) (enumerate sq) ∅.

(** Python's [a / b] on integers (floor division), and [a % b]. *)
Definition floordiv (a b : Z) : result Z :=
  if decide (b = 0)%Z then Raise ZeroDivisionError else Ok (a / b)%Z.
Definition pymod (a b : Z) : result Z :=
  if decide (b = 0)%Z then Raise ZeroDivisionError else Ok (a mod b)%Z.

End Common.

(** ** Record streams: [unmarshal_iter] and [disklist] *)

Module Records.

(** One call of [marshal.load(f)] on a file whose unread part is the
    given bytes: a value and the bytes after it, or an exception. *)
Inductive loaded (V : Type) : Type :=
  | Loaded (v : V) (rest : list byte)
  | Raised (e : exn).
Arguments Loaded {V} v rest.
Arguments Raised {V} e.

(** How an iteration over a file ends: the generator returns
    ([Stopped]) or an exception leaves it ([Aborted]). *)
Inductive ending : Type :=
  | Stopped
  | Aborted (e : exn).

Section Iter.
Context {V : Type}.
(** [marshal] is a library module: its decoder is a parameter. *)
Variable load : list byte → loaded V.

(** The loop shared by both readers: [while True: try: yield
    marshal.load(f) except <caught>: break]. *)
Fixpoint read_loop (caught : list exn) (fuel : nat) (f : list byte) : list V * ending :=
  match fuel with
  | 0 => ([], Aborted OutOfFuel)
  | S fuel' =>
      match load f with
      | Loaded v rest =>
          let '(vs, e) := read_loop caught fuel' rest in (v :: vs, e)
      | Raised e =>
          if decide (e ∈ caught) then ([], Stopped) else ([], Aborted e)
      end
  end.

(** [unmarshal_iter(path)]: [except EOFError: break]. *)
Definition unmarshal_iter (f : list byte) : list V * ending :=
  read_loop [EOFError] (S (length f)) f.

(** [disklist]: the temporary file and the item count. *)
Record disklist : Type := { fileh : list byte; count : nat }.

(** [disklist.__iter__]: [seek(0)], then
    [except (EOFError, ValueError, TypeError): break]. *)
Definition disklist_iter (d : disklist) : list V * ending :=
  read_loop [EOFError; ValueError; TypeError] (S (length (fileh d))) (fileh d).

Variable dump : V → list byte.

(** [disklist.append(value)] *)
Definition disklist_append (d : disklist) (value : V) : disklist :=
  {| fileh := fileh d ++ dump value; count := S (count d) |}.

(** The ending the specification asks for: a clean stop only at the
    genuine end of the data, when no byte is left unread at the load
    that fails; every other failure is fatal. *)
Definition strict_ending (unread : list byte) (e : exn) : ending :=
  match unread with
  | [] => Stopped
  | _ :: _ => Aborted e
  end.

End Iter.

(** Decoders for the marshal encoding of the values the bucket files
    of train.py hold, to run the readers on concrete files: a load
    raises EOFError where the data ends before the value is complete
    and ValueError at a byte that is no type code.  The type codes of
    other kinds of values are outside these decoders.  Where the data
    ends inside the four bytes of an integer they report EOFError, as
    CPython 3 does; CPython 2.7 does not notice the end there, and the
    files used below are cut between values, where every version
    raises EOFError. *)

(** Four bytes, least significant first, as a signed 32-bit integer. *)
Definition int32 (b0 b1 b2 b3 : byte) : Z :=
  let u := (Z.of_N (Byte.to_N b0) + 256 * (Z.of_N (Byte.to_N b1)
            + 256 * (Z.of_N (Byte.to_N b2) + 256 * Z.of_N (Byte.to_N b3))))%Z in
  if (u <? 2147483648)%Z then u else (u - 4294967296)%Z.

(** An integer: type code [i], then its four bytes. *)
Definition load_int (f : list byte) : loaded Z :=
  match f with
  | [] => Raised EOFError
  | c :: r =>
      if Byte.eqb c x69
      then match r with
           | b0 :: b1 :: b2 :: b3 :: rest => Loaded (int32 b0 b1 b2 b3) rest
           | _ => Raised EOFError
           end
      else Raised ValueError
  end.

(** The [n] items of a tuple of integers. *)
Fixpoint load_items (n : nat) (f : list byte) : loaded (list Z) :=
  match n with
  | 0 => Loaded [] f
  | S n' =>
      match load_int f with
      | Raised e => Raised e
      | Loaded v rest =>
          match load_items n' rest with
          | Raised e => Raised e
          | Loaded vs rest' => Loaded (v :: vs) rest'
          end
      end
  end.

(** A record [(f_id, chunk_id, doc_id, count)]: type code [(], the
    number of items as four bytes, then the items. *)
Definition load_tuple (f : list byte) : loaded (list Z) :=
  match f with
  | [] => Raised EOFError
  | c :: r =>
      if Byte.eqb c x28
      then match r with
           | b0 :: b1 :: b2 :: b3 :: rest =>
               if (int32 b0 b1 b2 b3 <? 0)%Z then Raised ValueError
               else load_items (Z.to_nat (int32 b0 b1 b2 b3)) rest
           | _ => Raised EOFError
           end
      else Raised ValueError
  end.

End Records.

(** ** train.Scanner: the Aho-Corasick automaton *)

Module Scanner.

(** [alphabet = list(map(chr, list(range(1<<8))))] *)
Definition alphabet : list ascii := map ascii_of_nat (seq 0 256).

(** A keyword is a byte string. *)
Abbreviation keyword := (list ascii).

(** *** Algorithm 2: the trie *)

(** [while (j < len(a)) and (state, a[j]) in goto:
       state = goto[(state, a[j])]; j += 1]
    returns the state reached and the unread part [a[j:]]. *)
Fixpoint walk (goto : gmap (nat * ascii) nat) (state : nat) (a : keyword)
  : nat * keyword :=
  match a with
  | [] => (state, [])
  | c :: a' =>
      match goto !! (state, c) with
      | Some s => walk goto s a'
      | None => (state, a)
      end
  end.

(** [for p in range(j, len(a)): newstate += 1;
       goto[(state, a[p])] = newstate; state = newstate] *)
Fixpoint extend (goto : gmap (nat * ascii) nat) (newstate state : nat) (a : keyword)
  : gmap (nat * ascii) nat * nat * nat :=
  match a with
  | [] => (goto, newstate, state)
  | c :: a' => extend (<[(state, c) := S newstate]> goto) (S newstate) (S newstate) a'
  end.

(** [output] is a [defaultdict(set)]: reading a missing key stores the
    empty set under it. *)
Definition out_get (output : gmap nat (gset keyword)) (k : nat) : gset keyword :=
  default ∅ (output !! k).

Definition out_touch (output : gmap nat (gset keyword)) (k : nat)
  : gmap nat (gset keyword) :=
  match output !! k with
  | Some _ => output
  | None => <[k := ∅]> output
  end.

(** The body of [for a in keywords]. *)
Definition enter (st : gmap (nat * ascii) nat * gmap nat (gset keyword) * nat) (a : keyword)
  : gmap (nat * ascii) nat * gmap nat (gset keyword) * nat :=
  let '(goto, output, newstate) := st in
  let '(state, rest) := walk goto 0 a in
  let '(goto', newstate', state') := extend goto newstate state rest in
  (goto', <[state' := out_get output state' ∪ {[a]}]> output, newstate').

(** [for a in self.alphabet: if (0,a) not in goto: goto[(0,a)] = 0] *)
Definition complete_root (goto : gmap (nat * ascii) nat) : gmap (nat * ascii) nat :=
  fold_left (fun g a => match g !! (0, a) with
                        | Some _ => g
                        | None => <[(0, a) := 0]> g
                        end) alphabet goto.

(** *** Algorithm 3: the failure function *)

(** [while (state,a) not in goto: state = fail[state]], followed by
    the lookup [goto[(state,a)]]. *)
Fixpoint follow (goto : gmap (nat * ascii) nat) (fail : gmap nat nat)
    (fuel state : nat) (a : ascii) : result nat :=
  match goto !! (state, a) with
  | Some t => Ok t
  | None =>
      match fuel with
      | 0 => Raise OutOfFuel
      | S fuel' => state' ← getitem fail state; follow goto fail fuel' state' a
      end
  end.

(** [for a in self.alphabet: if goto[(0,a)] != 0: ...] *)
Definition init3 (goto : gmap (nat * ascii) nat) : result (list nat * gmap nat nat) :=
  foldR (fun '(queue, fail) a =>
           s ← getitem goto (0, a);
           if decide (s ≠ 0) then Ok (queue ++ [s], <[s := 0]> fail)
           else Ok (queue, fail))
        alphabet ([], ∅).

(** The body of [for a in self.alphabet] for a dequeued state [r]. *)
Definition visit3 (goto : gmap (nat * ascii) nat) (hops r : nat)
    (st : list nat * gmap nat nat * gmap nat (gset keyword)) (a : ascii)
  : result (list nat * gmap nat nat * gmap nat (gset keyword)) :=
  let '(queue, fail, output) := st in
  match goto !! (r, a) with
  | None => Ok st
  | Some s =>
      state ← getitem fail r;
      t ← follow goto fail hops state a;
      let fail' := <[s := t]> fail in
      let output1 := out_touch output t in
      if decide (out_get output1 t ≠ ∅)
      then Ok (queue ++ [s], fail', <[s := out_get output1 s ∪ out_get output1 t]> output1)
      else Ok (queue ++ [s], fail', output1)
  end.

(** [while queue: r = queue.popleft(); ...] *)
Fixpoint loop3 (goto : gmap (nat * ascii) nat) (hops fuel : nat)
    (st : list nat * gmap nat nat * gmap nat (gset keyword))
  : result (gmap nat nat * gmap nat (gset keyword)) :=
  let '(queue, fail, output) := st in
  match queue with
  | [] => Ok (fail, output)
  | r :: queue' =>
      match fuel with
      | 0 => Raise OutOfFuel
      | S fuel' =>
          st' ← foldR (visit3 goto hops r) alphabet (queue', fail, output);
          loop3 goto hops fuel' st'
      end
  end.

(** *** Algorithm 4: the next-move function *)

Definition init4 (goto : gmap (nat * ascii) nat)
  : result (list nat * gmap (nat * ascii) nat) :=
  foldR (fun '(queue, nextmove) a =>
           s ← getitem goto (0, a);
           let nextmove' := <[(0, a) := s]> nextmove in
           if decide (s ≠ 0) then Ok (queue ++ [s], nextmove')
           else Ok (queue, nextmove'))
        alphabet ([], ∅).

Definition visit4 (goto : gmap (nat * ascii) nat) (fail : gmap nat nat) (r : nat)
    (st : list nat * gmap (nat * ascii) nat) (a : ascii)
  : result (list nat * gmap (nat * ascii) nat) :=
  let '(queue, nextmove) := st in
  match goto !! (r, a) with
  | Some s => Ok (queue ++ [s], <[(r, a) := s]> nextmove)
  | None =>
      f ← getitem fail r;
      t ← getitem nextmove (f, a);
      Ok (queue, <[(r, a) := t]> nextmove)
  end.

Fixpoint loop4 (goto : gmap (nat * ascii) nat) (fail : gmap nat nat) (fuel : nat)
    (st : list nat * gmap (nat * ascii) nat) : result (gmap (nat * ascii) nat) :=
  let '(queue, nextmove) := st in
  match queue with
  | [] => Ok nextmove
  | r :: queue' =>
      match fuel with
      | 0 => Raise OutOfFuel
      | S fuel' =>
          st' ← foldR (visit4 goto fail r) alphabet (queue', nextmove);
          loop4 goto fail fuel' st'
      end
  end.

(** *** The compiled array *)

(** [len(set(self.nextmove.values()))] *)
Definition state_count (nextmove : gmap (nat * ascii) nat) : nat :=
  size (map_fold (fun _ v acc => {[v]} ∪ acc) (∅ : gset nat) nextmove).

(** [array.array('H', nextstate_iter())]: the items are produced one
    at a time, each must fit an unsigned 16-bit slot. *)
Definition nm_item (nextmove : gmap (nat * ascii) nat) (state : nat) (letter : ascii)
  : result nat :=
  v ← getitem nextmove (state, letter);
  if (N.of_nat v <=? 65535)%N then Ok v else Raise OverflowError.

Definition compile_nm_arr (nextmove : gmap (nat * ascii) nat) : result (list nat) :=
  rows ← mapR (fun state => mapR (nm_item nextmove state) alphabet)
              (seq 0 (state_count nextmove));
  Ok (concat rows).

(** *** [Scanner.build] *)

(** The tables of a scanner.  [goto] and [fail] are locals of [build];
    they are kept to state what the compiled tables compute. *)
Record scanner : Type := {
  goto : gmap (nat * ascii) nat;
  fail : gmap nat nat;
  states : nat;
  nextmove : gmap (nat * ascii) nat;
  output : gmap nat (list keyword);
  nm_arr : list nat
}.

Definition build (keywords : list keyword) : result scanner :=
  let '(goto0, output0, newstate) := fold_left enter keywords (∅, ∅, 0) in
  let goto := complete_root goto0 in
  '(queue, fail0) ← init3 goto;
  '(fail, output) ← loop3 goto (S newstate) (S newstate) (queue, fail0, output0);
  '(queue4, nextmove0) ← init4 goto;
  nextmove ← loop4 goto fail (S newstate) (queue4, nextmove0);
  nm ← compile_nm_arr nextmove;
  Ok {| goto := goto; fail := fail; states := S newstate; nextmove := nextmove;
        output := elements <$> output; nm_arr := nm |}.

(** *** Scanning *)

(** [Scanner.search]: one [nextmove] lookup per letter, then the keys
    of the state entered. *)
Fixpoint search_from (sc : scanner) (state : nat) (string : list ascii)
  : result (list keyword) :=
  match string with
  | [] => Ok []
  | letter :: rest =>
      state' ← getitem (nextmove sc) (state, letter);
      keys ← search_from sc state' rest;
      Ok (default [] (output sc !! state') ++ keys)
  end.

Definition search (sc : scanner) (string : list ascii) : result (list keyword) :=
  search_from sc 0 string.

(** The matcher on the uncompiled automaton: from the current state
    follow failure links until the letter has a goto transition, take
    it, and report the output of the state entered. *)
Fixpoint direct_from (sc : scanner) (state : nat) (string : list ascii)
  : result (list keyword) :=
  match string with
  | [] => Ok []
  | letter :: rest =>
      state' ← follow (goto sc) (fail sc) (states sc) state letter;
      keys ← direct_from sc state' rest;
      Ok (default [] (output sc !! state') ++ keys)
  end.

Definition direct_search (sc : scanner) (string : list ascii) : result (list keyword) :=
  direct_from sc 0 string.

(** The scan of [state_trace] over the array:
    [state = nm_arr[(state << 8) + letter]], recording the states
    entered. *)
Fixpoint trace_from (nm : list nat) (state : nat) (text : list ascii)
  : result (list nat) :=
  match text with
  | [] => Ok []
  | letter :: rest =>
      match nm !! (state * 256 + nat_of_ascii letter) with
      | None => Raise IndexError
      | Some state' => tr ← trace_from nm state' rest; Ok (state' :: tr)
      end
  end.

End Scanner.


(** ** Invariants of the automaton construction *)

Module Automaton.

(** The goto graph before the root is completed: every edge leads to
    a state created after its source, every state but the root has
    exactly one incoming edge. *)
Record trie (g : gmap (nat * ascii) nat) (n : nat) : Prop := {
  tr_lt : ∀ r a s, g !! (r, a) = Some s → r < s ∧ s ≤ n;
  tr_inj : ∀ r a r' a' s, g !! (r, a) = Some s → g !! (r', a') = Some s → r = r' ∧ a = a';
  tr_parent : ∀ s, 1 ≤ s ≤ n → ∃ r a, g !! (r, a) = Some s
}.

(** The goto graph once the root is completed. *)
Record ctrie (g : gmap (nat * ascii) nat) (n : nat) : Prop := {
  ct_root : ∀ a, is_Some (g !! (0, a));
  ct_lt : ∀ r a s, g !! (r, a) = Some s → s ≠ 0 → r < s ∧ s ≤ n;
  ct_zero : ∀ r a, g !! (r, a) = Some 0 → r = 0;
  ct_inj : ∀ r a r' a' s, s ≠ 0 →
    g !! (r, a) = Some s → g !! (r', a') = Some s → r = r' ∧ a = a';
  ct_parent : ∀ s, 1 ≤ s ≤ n → ∃ r a, g !! (r, a) = Some s
}.

Section Graph.
Variable g : gmap (nat * ascii) nat.

(** The targets of the goto edges of [r] for the letters of [l], in
    the order of [l]. *)
Definition children_over (l : list ascii) (r : nat) : list nat :=
  omap (fun a => g !! (r, a)) l.
Definition children (r : nat) : list nat := children_over Scanner.alphabet r.
Definition roots_over (l : list ascii) : list nat :=
  filter (fun s => s ≠ 0) (children_over l 0).
Definition roots : list nat := roots_over Scanner.alphabet.

(** Every state of [L] fails to the root or to a state before it. *)
Definition ordered (L : list nat) (fail : gmap nat nat) : Prop :=
  ∀ L1 s L2, L = L1 ++ s :: L2 → ∃ f, fail !! s = Some f ∧ (f = 0 ∨ f ∈ L1).

(** The states discovered so far, in the order of discovery. *)
Definition bfs_inv (n : nat) (L : list nat) (fail : gmap nat nat) : Prop :=
  NoDup L ∧ Forall (fun s => 1 ≤ s ≤ n) L ∧ ordered L fail.

Variable fail : gmap nat nat.

(** One step of the matcher on the uncompiled automaton. *)
Inductive dstep : nat → ascii → nat → Prop :=
  | ds_goto r a t : g !! (r, a) = Some t → dstep r a t
  | ds_fail r a f t :
      g !! (r, a) = None → fail !! r = Some f → dstep f a t → dstep r a t.

(** The rows of the states of [P] and of the root are filled, and
    every entry is the step of the uncompiled matcher. *)
Definition nm_inv (P : list nat) (nm : gmap (nat * ascii) nat) : Prop :=
  (∀ r a, r = 0 ∨ r ∈ P → is_Some (nm !! (r, a)))
  ∧ (∀ r a t, nm !! (r, a) = Some t → dstep r a t).

End Graph.

(** What the tables of a built scanner satisfy: [L] lists the states
    other than the root in breadth-first order. *)
Record built (sc : Scanner.scanner) (n : nat) (L : list nat) : Prop := {
  b_ctrie : ctrie (Scanner.goto sc) n;
  b_states : Scanner.states sc = S n;
  b_inv : bfs_inv n L (Scanner.fail sc);
  b_shape : L = roots (Scanner.goto sc) ++ (L ≫= children (Scanner.goto sc));
  b_nm : nm_inv (Scanner.goto sc) (Scanner.fail sc) L (Scanner.nextmove sc)
}.

End Automaton.

(** The keywords that make every byte the first letter of a keyword. *)
Definition all_bytes : list (list ascii) := map (fun a => [a]) Scanner.alphabet.

(** ** numpy floating point *)

(** A float64 is modelled by an extended real: a finite value, taken
    exactly, or one of the IEEE special values, which propagate as
    IEEE 754 prescribes.  Rounding is not modelled, so a finite value
    stands for the float64 near it: what is stated over this model is
    which results are NaN, infinite or finite, which formula a result
    is computed by, and equalities between results of one and the
    same computation; nothing is concluded from the sign or the exact
    value of a difference of rounded quantities.  The counts this
    pipeline feeds in are never negative, so the sign of zero is not
    tracked: a zero divisor counts as [+0]. *)

Module Float.

Inductive fl : Type :=
  | Fin (x : R)
  | PInf
  | NInf
  | NaN.

Definition of_Z (z : Z) : fl := Fin (IZR z).
Definition of_nat (n : nat) : fl := Fin (INR n).

Definition isnan (a : fl) : bool :=
  match a with
  | NaN => true
  | _ => false
  end.

Definition fneg (a : fl) : fl :=
  match a with
  | Fin x => Fin (- x)
  | PInf => NInf
  | NInf => PInf
  | NaN => NaN
  end.

Definition fadd (a b : fl) : fl :=
  match a, b with
  | NaN, _ | _, NaN => NaN
  | PInf, NInf | NInf, PInf => NaN
  | PInf, _ | _, PInf => PInf
  | NInf, _ | _, NInf => NInf
  | Fin x, Fin y => Fin (x + y)
  end.

Definition fsub (a b : fl) : fl := fadd a (fneg b).

(** The infinity with the sign of [x], for [x <> 0]. *)
Definition inf_signed (x : R) (pos : fl) : fl :=
  if Rlt_dec 0 x then pos else fneg pos.

Definition fmul (a b : fl) : fl :=
  match a, b with
  | NaN, _ | _, NaN => NaN
  | Fin x, Fin y => Fin (x * y)
  | Fin x, PInf | PInf, Fin x =>
      if Req_dec_T x 0 then NaN else inf_signed x PInf
  | Fin x, NInf | NInf, Fin x =>
      if Req_dec_T x 0 then NaN else inf_signed x NInf
  | PInf, PInf | NInf, NInf => PInf
  | PInf, NInf | NInf, PInf => NInf
  end.

Definition fdiv (a b : fl) : fl :=
  match a, b with
  | NaN, _ | _, NaN => NaN
  | Fin x, Fin y =>
      if Req_dec_T y 0
      then (if Req_dec_T x 0 then NaN else inf_signed x PInf)
      else Fin (x / y)
  | Fin _, (PInf | NInf) => Fin 0
  | PInf, Fin y => if Rlt_dec y 0 then NInf else PInf
  | NInf, Fin y => if Rlt_dec y 0 then PInf else NInf
  | (PInf | NInf), (PInf | NInf) => NaN
  end.

(** [numpy.log] *)
Definition flog (a : fl) : fl :=
  match a with
  | NaN => NaN
  | PInf => PInf
  | NInf => NaN
  | Fin x =>
      if Req_dec_T x 0 then NInf
      else if Rlt_dec x 0 then NaN
      else Fin (ln x)
  end.

(** [numpy.sum] and [numpy.nansum] over a vector. *)
Definition fsum (v : list fl) : fl := fold_left fadd v (Fin 0).
Definition nansum (v : list fl) : fl :=
  fsum (map (fun a => if isnan a then Fin 0 else a) v).

End Float.

(** ** LDfeatureselect: information gain *)

Module Gain.
Import Float.

(** [entropy(v)]:
    [numpy.log(s) - numpy.nansum(v * numpy.log(v)) / s] with
    [s = numpy.sum(v)]. *)
Definition entropy (v : list fl) : fl :=
  let s := fsum v in
  fsub (flog s) (fdiv (nansum (map (fun x => fmul x (flog x)) v)) s).

(** A class map is a boolean matrix, one row per document. *)
Definition column (cm : list (list bool)) (c : nat) : list bool :=
  map (fun row => nth c row false) cm.

(** [(class_map[:,None,:] * band[...,None]).sum(0)] for one feature:
    per class, the number of documents of the band in that class. *)
Definition band_counts (num_classes : nat) (cm : list (list bool)) (band : list bool)
  : list nat :=
  map (fun c => length (List.filter (fun p => fst p && snd p) (combine band (column cm c))))
      (seq 0 num_classes).

(** [class_map.sum(0)] *)
Definition class_totals (num_classes : nat) (cm : list (list bool)) : list nat :=
  map (fun c => length (List.filter (fun b : bool => b) (column cm c))) (seq 0 num_classes).

(** One band of [split_info] for one feature: the weight
    [f_count / float(num_inst)] and the entropy with
    [f_entropy[numpy.isnan(f_entropy)] = 0] applied. *)
Definition band_weight (band : list bool) : fl :=
  fdiv (of_nat (length (List.filter (fun b : bool => b) band))) (of_nat (length band)).

Definition band_entropy (num_classes : nat) (cm : list (list bool)) (band : list bool) : fl :=
  let e := entropy (map of_nat (band_counts num_classes cm band)) in
  if isnan e then Fin 0 else e.

Definition band_term (num_classes : nat) (cm : list (list bool)) (band : list bool) : fl :=
  fmul (band_weight band) (band_entropy num_classes cm band).

(** [split_info(f_masks, class_map)] for one feature:
    [(f_weight * f_entropy).sum(0)] over the bands. *)
Definition split_info (num_classes : nat) (cm : list (list bool)) (bands : list (list bool)) : fl :=
  fsum (map (band_term num_classes cm) bands).

(** [infogain(nonzero, class_map)] for one feature: the bands are
    [logical_not(nonzero)] and [nonzero]. *)
Definition infogain (num_classes : nat) (cm : list (list bool)) (nonzero : list bool) : fl :=
  fsub (entropy (map of_nat (class_totals num_classes cm)))
       (split_info num_classes cm [map negb nonzero; nonzero]).

(** [numpy.hstack((neg[:,None], pos[:,None]))] for language [langid]. *)
Definition binarize (cm_lang : list (list bool)) (langid : nat) : list (list bool) :=
  map (fun row => let pos := nth langid row false in [negb pos; pos]) cm_lang.

(** The rows of [w_lang] in [pass3]: [infogain(feature_map, cm) - w_domain],
    one entry per feature. *)
Definition lang_scores (num_domains : nat) (cm_domain cm_lang : list (list bool))
    (feature_map : list (list bool)) (langid : nat) : list fl :=
  map (fun nonzero => fsub (infogain 2 (binarize cm_lang langid) nonzero)
                           (infogain num_domains cm_domain nonzero))
      feature_map.

End Gain.

(** ** LDfeatureselect: the document-frequency index (passes 1 and 2) *)

Module DocFreq.

(** A token is a tuple of characters. *)
Abbreviation token := (list ascii).

(** The records of the [.freq] and [.list] files.  [marshal.dumps] on
    the writing side and [marshal.load] on the reading side are taken
    as inverse, so a file is the list of the records written to it. *)
Abbreviation freq_record := (token * nat)%type.
Abbreviation list_record := (token * nat * list nat)%type.

(** A bucket directory: its [.freq] files and its [.list] files. *)
Record bucket : Type := {
  freq_files : list (list freq_record);
  list_files : list (list list_record)
}.

Section Index.
(** Python's built-in [hash]. *)
Variable hash : token → Z.
Variable max_order : nat.

(** The body of [for doc_index, path in enumerate(chunk_paths)]: a
    document is the text read from its path. *)
Definition count_doc (st : gmap token nat * gmap token (list nat)) (d : nat * list ascii)
  : result (gmap token nat * gmap token (list nat)) :=
  let '(doc_index, text) := d in
  tokens ← Tokenizer.call max_order text;
  let tokenset : gset token := list_to_set tokens in
  Ok (fold_left (fun '(term_doc_freq, term_doc_list) tok =>
                   (<[tok := S (default 0 (term_doc_freq !! tok))]> term_doc_freq,
                    <[tok := default [] (term_doc_list !! tok) ++ [doc_index]]> term_doc_list))
                (elements tokenset) st).

(** [x[i] = f(x[i])] on a Python list. *)
Definition list_alter_at {A} (f : A → A) (i : nat) (l : list A) : result (list A) :=
  match l !! i with
  | None => Raise IndexError
  | Some x => Ok (<[i := f x]> l)
  end.

(** The body of [for key in term_doc_freq]. *)
Definition emit (chunk_id : nat) (term_doc_list : gmap token (list nat))
    (files : list (list freq_record) * list (list list_record)) (kv : token * nat)
  : result (list (list freq_record) * list (list list_record)) :=
  let '(b_freq, b_list) := files in
  let '(key, df) := kv in
  bucket_index ← Common.pymod (hash key) (Z.of_nat (length b_freq));
  b_freq' ← list_alter_at (fun f => f ++ [(key, df)]) (Z.to_nat bucket_index) b_freq;
  b_list' ← list_alter_at (fun f => f ++ [(key, chunk_id, default [] (term_doc_list !! key))])
                          (Z.to_nat bucket_index) b_list;
  Ok (b_freq', b_list').

(** [pass1((chunk_id, chunk_paths))] with [num_buckets] bucket
    directories: the file it leaves in each bucket and the number of
    keys. *)
Definition pass1 (num_buckets : nat) (arg : nat * list (list ascii))
  : result (list (list freq_record) * list (list list_record) * nat) :=
  let '(chunk_id, chunk_paths) := arg in
  '(term_doc_freq, term_doc_list) ← foldR count_doc (Common.enumerate chunk_paths) (∅, ∅);
  files ← foldR (emit chunk_id term_doc_list) (map_to_list term_doc_freq)
                (replicate num_buckets [], replicate num_buckets []);
  Ok (files, size term_doc_freq).

(** The bucket directories after pass 1 over all chunks: bucket [b]
    holds the [b]-th file of every call. *)
Definition gather (num_buckets : nat)
    (outs : list (list (list freq_record) * list (list list_record) * nat)) : list bucket :=
  map (fun b => {| freq_files := map (fun o => nth b (fst (fst o)) []) outs;
                   list_files := map (fun o => nth b (snd (fst o)) []) outs |})
      (seq 0 num_buckets).

(** [pass2(bucket)]: the [docfreq] file it writes and the number of
    records read. *)
Definition pass2 (b : bucket) : list freq_record * nat :=
  let '(doc_count, count) :=
    fold_left (fun st file =>
                 fold_left (fun '(doc_count, count) '(key, value) =>
                              (<[key := default 0 (doc_count !! key) + value]> doc_count,
                               S count))
                           file st)
              (freq_files b) (∅ : gmap token nat, 0) in
  (map_to_list doc_count, count).

(** Passes 1 and 2 of [build_inverted_index] for a chunk size and a
    number of buckets: the buckets, and the [docfreq] table of each. *)
Definition index_corpus (paths : list (list ascii)) (chunk_size num_buckets : nat)
  : result (list bucket * list (list freq_record)) :=
  let path_chunks := Common.chunk paths chunk_size in
  outs ← mapR (pass1 num_buckets) (Common.enumerate path_chunks);
  let b_dirs := gather num_buckets outs in
  Ok (b_dirs, map (fun b => fst (pass2 b)) b_dirs).

End Index.

(** The document frequency recorded for [k], summed over the
    [docfreq] tables of all buckets. *)
Definition recorded (k : token) (docfreqs : list (list freq_record)) : nat :=
  list_sum (map (fun kv => if decide (fst kv = k) then snd kv else 0) (concat docfreqs)).

(** The number of documents that contain [k] as an n-gram of order 1
    to [max_order]. *)
Definition containing (max_order : nat) (k : token) (paths : list (list ascii)) : nat :=
  length (List.filter (fun text => bool_decide (k ∈ Tokenizer.ngrams max_order text)) paths).

End DocFreq.

(** ** LDfeatureselect: pass 3 and the selection *)

Module Select.
Import DocFreq.

(** *** [pass3]: the terms of a bucket and their presence masks *)

(** The body of [for key, chunk_id, docids in unmarshal_iter(...)]. *)
Definition add_postings (features : gset token) (chunk_offsets : list nat)
    (term_doc_map : gmap token (list nat)) (r : list_record)
  : result (gmap token (list nat)) :=
  let '(key, chunk_id, docids) := r in
  if decide (key ∈ features)
  then match chunk_offsets !! chunk_id with
       | None => Raise IndexError
       | Some offset =>
           Ok (fold_left (fun m docid => <[key := default [] (m !! key) ++ [docid + offset]]> m)
                         docids term_doc_map)
       end
  else Ok term_doc_map.

Definition term_doc_map (features : gset token) (chunk_offsets : list nat) (b : bucket)
  : result (gmap token (list nat)) :=
  foldR (fun m file => foldR (add_postings features chunk_offsets) file m) (list_files b) ∅.

(** A column of [feature_map]: [feature_map[docid, termid] = True]
    for the documents of the term. *)
Definition presence (num_inst : nat) (docids : list nat) : result (list bool) :=
  foldR (fun col docid => if decide (docid < num_inst) then Ok (<[docid := true]> col)
                          else Raise IndexError)
        docids (replicate num_inst false).

(** [pass3(bucket)]: the terms, one row of language scores per
    language and the domain scores. *)
Definition pass3 (features : gset token) (chunk_offsets : list nat)
    (num_domains num_langs : nat) (cm_domain cm_lang : list (list bool)) (b : bucket)
  : result (list token * list (list Float.fl) * list Float.fl) :=
  m ← term_doc_map features chunk_offsets b;
  let num_inst := List.last chunk_offsets 0 in
  let terms := map fst (map_to_list m) in
  feature_map ← mapR (fun kv => presence num_inst (snd kv)) (map_to_list m);
  let w_domain := map (Gain.infogain num_domains cm_domain) feature_map in
  if decide (num_langs = 0) then Raise ValueError
  else Ok (terms,
           map (Gain.lang_scores num_domains cm_domain cm_lang feature_map) (seq 0 num_langs),
           w_domain).

(** *** [select_LD_features]: the final feature set *)

Section Selection.
Context {score : Type}.
(** [numpy.argsort] is a library function: a parameter. *)
Variable argsort : list score → list nat.

(** [l[start:]] for an integer [start], negative counting from the end. *)
Definition slice_from {A} (l : list A) (start : Z) : list A :=
  if (start <? 0)%Z then skipn (Z.to_nat (Z.of_nat (length l) + start)) l
  else skipn (Z.to_nat start) l.

(** [numpy.hstack(w_lang)]: row [l] is the concatenation of the rows
    [l] of the buckets. *)
Definition hstack (num_langs : nat) (w_lang : list (list (list score))) : list (list score) :=
  map (fun l => concat (map (fun w => nth l w []) w_lang)) (seq 0 num_langs).

(** The body of [for lang in lang_index]. *)
Definition select_lang (feats_per_lang : Z) (terms : list token) (w_lang : list (list score))
    (final_feature_set : gset token) (row : nat) : result (gset token) :=
  match w_lang !! row with
  | None => Raise IndexError
  | Some lang_weights =>
      let term_inds := slice_from (argsort lang_weights) (- feats_per_lang) in
      foldR (fun fs t => match terms !! t with
                         | None => Raise IndexError
                         | Some term => Ok ({[term]} ∪ fs)
                         end)
            term_inds final_feature_set
  end.

(** [select_LD_features], from the results of [pass3] on: [lang_rows]
    are the values of [lang_index], the row of each language. *)
Definition select_LD_features (lang_rows : list nat)
    (pass3_out : list (list token * list (list score) * list score))
    (feats_per_lang : Z) : result (gset token) :=
  if decide (pass3_out = []) then Raise ValueError
  else
    let w_lang := hstack (length lang_rows) (map (fun o => snd (fst o)) pass3_out) in
    let terms := concat (map (fun o => fst (fst o)) pass3_out) in
    foldR (select_lang feats_per_lang terms w_lang) lang_rows ∅.

End Selection.

(** An [argsort] for integer scores: the stable insertion sort of the
    indices by score, one of the orders [numpy.argsort] may return. *)
Fixpoint insert_by (w : list Z) (i : nat) (sorted : list nat) : list nat :=
  match sorted with
  | [] => [i]
  | j :: rest =>
      if (nth i w 0 <? nth j w 0)%Z then i :: sorted
      else j :: insert_by w i rest
  end.

Definition argsort_Z (w : list Z) : list nat :=
  fold_left (fun sorted i => insert_by w i sorted) (seq 0 (length w)) [].

End Select.

(** ** train: counting features per class *)

Module Train.

(** The records of the [.index] files: [(f_id, chunk_id, doc_id, count)]. *)
Abbreviation record := (nat * nat * nat * nat)%type.

(** The globals installed by [setup_pass1]. *)
Record pass1_globals : Type := {
  g_nm_arr : list nat;
  g_output_states : gset nat;
  g_state2feat : gmap nat (list nat);
  g_b_dirs : nat;
  g_bucket_map : gmap nat nat
}.

(** [state_trace(path)]: how often each state was entered. *)
Fixpoint state_trace_from (nm : list nat) (state : nat) (c : gmap nat nat) (text : list ascii)
  : result (gmap nat nat) :=
  match text with
  | [] => Ok c
  | letter :: rest =>
      match nm !! (state * 256 + nat_of_ascii letter) with
      | None => Raise IndexError
      | Some state' =>
          state_trace_from nm state' (<[state' := S (default 0 (c !! state'))]> c) rest
      end
  end.

Definition state_trace (nm : list nat) (text : list ascii) : result (gmap nat nat) :=
  state_trace_from nm 0 ∅ text.

(** The body of [for doc_id, path in enumerate(chunk_paths)]. *)
Definition count_doc (g : pass1_globals) (term_freq : gmap (nat * nat) nat)
    (d : nat * list ascii) : result (gmap (nat * nat) nat) :=
  let '(doc_id, text) := d in
  count ← state_trace (g_nm_arr g) text;
  foldR (fun tf state =>
           feats ← getitem (g_state2feat g) state;
           Ok (fold_left (fun tf f_id =>
                            <[(doc_id, f_id) := default 0 (tf !! (doc_id, f_id))
                                                + default 0 (count !! state)]> tf)
                         feats tf))
        (elements (dom count ∩ g_output_states g)) term_freq.

(** The body of [for doc_id, f_id in term_freq]. *)
Definition emit (g : pass1_globals) (chunk_id : nat) (buckets : list (list record))
    (kv : nat * nat * nat) : result (list (list record)) :=
  let '(doc_id, f_id, count) := kv in
  bucket_index ← getitem (g_bucket_map g) f_id;
  DocFreq.list_alter_at (fun f => f ++ [(f_id, chunk_id, doc_id, count)]) bucket_index buckets.

(** [pass1((chunk_id, chunk_paths))]: the file left in each bucket
    and [len(term_freq)]. *)
Definition pass1 (g : pass1_globals) (arg : nat * list (list ascii))
  : result (list (list record) * nat) :=
  let '(chunk_id, chunk_paths) := arg in
  term_freq ← foldR (count_doc g) (Common.enumerate chunk_paths) ∅;
  files ← foldR (emit g chunk_id) (map_to_list term_freq) (replicate (g_b_dirs g) []);
  Ok (files, size term_freq).

(** An index into a numpy axis of length [n]: negative indices count
    from the end. *)
Definition np_index (n : nat) (i : Z) : result nat :=
  if decide (0 ≤ i < Z.of_nat n)%Z then Ok (Z.to_nat i)
  else if decide (- Z.of_nat n ≤ i < 0)%Z then Ok (Z.to_nat (Z.of_nat n + i))
  else Raise IndexError.

(** [fm[doc_index, f_index] = count] on a matrix of [num_feats]
    columns, kept as the list of its rows.  The entries are numpy
    integers; they are modelled unbounded. *)
Definition fm_set (num_feats : nat) (fm : list (list Z)) (doc_index f_index : Z) (count : Z)
  : result (list (list Z)) :=
  d ← np_index (length fm) doc_index;
  f ← np_index num_feats f_index;
  Ok (alter (fun row => <[f := count]> row) d fm).

(** The body of [for f_id, chunk_id, doc_id, count in unmarshal_iter(...)]. *)
Definition replay (chunk_offsets : list nat) (num_feats base_f_id : nat)
    (fm : list (list Z)) (r : record) : result (list (list Z)) :=
  let '(f_id, chunk_id, doc_id, count) := r in
  match chunk_offsets !! chunk_id with
  | None => Raise IndexError
  | Some off =>
      fm_set num_feats fm (Z.of_nat (off + doc_id)) (Z.of_nat f_id - Z.of_nat base_f_id)
             (Z.of_nat count)
  end.

Definition b2z (b : bool) : Z := if b then 1%Z else 0%Z.

Definition zsum (l : list Z) : Z := fold_right Z.add 0%Z l.

(** [numpy.dot(fm.T, cm)]: entry [(f, c)] is the sum over the
    documents of [fm[d, f] * cm[d, c]]. *)
Definition dot_T (num_feats num_classes : nat) (fm : list (list Z)) (cm : list (list bool))
  : list (list Z) :=
  map (fun f => map (fun c => zsum (map (fun '(row, crow) => (nth f row 0 * b2z (nth c crow false))%Z)
                                         (combine fm cm)))
                    (seq 0 num_classes))
      (seq 0 num_feats).

(** [pass2((num_feats, base_f_id, b_dir))] under the globals of
    [setup_pass2]; [files] are the [.index] files of the bucket. *)
Definition pass2 (cm : list (list bool)) (num_classes : nat) (chunk_offsets : list nat)
    (num_instances : nat) (arg : nat * nat * list (list record))
  : result (nat * list (list Z)) :=
  let '(num_feats, base_f_id, files) := arg in
  let fm0 := replicate num_instances (replicate num_feats 0%Z) in
  fm ← foldR (fun fm file => foldR (replay chunk_offsets num_feats base_f_id) file fm) files fm0;
  if decide (length cm = num_instances)
  then Ok (length (concat files), dot_T num_feats num_classes fm cm)
  else Raise ValueError.

Definition FEATS_PER_CHUNK : nat := 100.

(** [bucket_map[feat_index[feat]] = chunk_id] over the feature chunks. *)
Definition make_bucket_map (feat_index : gmap (list ascii) nat)
    (feat_chunks : list (list (list ascii))) : result (gmap nat nat) :=
  foldR (fun bm '(chunk_id, feat_chunk) =>
           foldR (fun bm feat => i ← getitem feat_index feat; Ok (<[i := chunk_id]> bm))
                 feat_chunk bm)
        (Common.enumerate feat_chunks) ∅.

(** The counting part of [generate_ptc]: [prod = numpy.vstack(pass2_out)],
    the features by classes count matrix. *)
Definition generate_prod (job_count : Z) (paths : list (list ascii))
    (nb_features : list (list ascii)) (tk_nextmove : list nat)
    (state2feat : gmap nat (list nat)) (cm : list (list bool)) (num_classes : nat)
  : result (list (list Z)) :=
  let num_instances := length paths in
  q ← Common.floordiv (Z.of_nat (length paths)) (job_count * 2);
  let chunk_size := Z.to_nat (Z.min q 100) in
  let path_chunks := Common.chunk paths chunk_size in
  let feat_chunks := Common.chunk nb_features FEATS_PER_CHUNK in
  let feat_index := Common.index nb_features in
  bucket_map ← make_bucket_map feat_index feat_chunks;
  let g := {| g_nm_arr := tk_nextmove; g_output_states := dom state2feat;
              g_state2feat := state2feat; g_b_dirs := length feat_chunks;
              g_bucket_map := bucket_map |} in
  pass1_out ← mapR (pass1 g) (Common.enumerate path_chunks);
  let b_dirs := map (fun b => map (fun o => nth b (fst o) []) pass1_out)
                    (seq 0 (length feat_chunks)) in
  let f_chunk_sizes := map length feat_chunks in
  let f_chunk_offsets := Common.offsets feat_chunks in
  pass2_out ← mapR (pass2 cm num_classes (Common.offsets path_chunks) num_instances)
                   (combine (combine f_chunk_sizes f_chunk_offsets) b_dirs);
  if decide (pass2_out = []) then Raise ValueError
  else Ok (concat (map snd pass2_out)).

(** [build_scanner(nb_features)]: the next-move array and the map
    from states to feature indices. *)
Definition build_scanner (nb_features : list (list ascii))
  : result (list nat * gmap nat (list nat)) :=
  let feat_index := Common.index nb_features in
  sc ← Scanner.build nb_features;
  state2feat ← foldR (fun m '(k, v) =>
                        ids ← mapR (getitem feat_index) v; Ok (<[k := ids]> m))
                     (map_to_list (Scanner.output sc)) ∅;
  Ok (Scanner.nm_arr sc, state2feat).

(** *** The parameters *)

(** [prod.sum(0)]: per class, the sum over the features. *)
Definition class_sums (num_classes : nat) (prod : list (list Z)) : list Z :=
  map (fun c => zsum (map (fun row => nth c row 0%Z) prod)) (seq 0 num_classes).

(** [ptc = numpy.log(1 + prod) - numpy.log(num_features + prod.sum(0))],
    flattened row by row into [nb_ptc]. *)
Definition ptc (num_features num_classes : nat) (prod : list (list Z)) : list Float.fl :=
  concat (map (fun row =>
                 map (fun c => Float.fsub
                                 (Float.flog (Float.of_Z (1 + nth c row 0)%Z))
                                 (Float.flog (Float.of_Z (Z.of_nat num_features
                                                          + nth c (class_sums num_classes prod) 0)%Z)))
                     (seq 0 num_classes))
              prod).

(** [generate_ptc] *)
Definition generate_ptc (job_count : Z) (paths : list (list ascii))
    (nb_features : list (list ascii)) (tk_nextmove : list nat)
    (state2feat : gmap nat (list nat)) (cm : list (list bool)) (num_classes : nat)
  : result (list Float.fl) :=
  prod ← generate_prod job_count paths nb_features tk_nextmove state2feat cm num_classes;
  Ok (ptc (length nb_features) num_classes prod).

End Train.

(** ** Definitions used to state the properties *)

(** The copies of [tee] after the advancing loop of the tokenizer:
    copy [i] stands at offset [i]. *)
Definition windows {A} (sq : list A) (a k : nat) : list (list A) :=
  map (fun i => skipn i sq) (seq a k).

(** The marshal encoding of a 32-bit integer, type code [i], then
    four bytes, least significant first, and of a tuple of integers,
    type code [(], the number of items, then the items. *)
Definition dump_int (z : Z) : list byte :=
  x69 :: map (fun k => default x00 (Byte.of_N (Z.to_N ((z / 256 ^ k) mod 256))))
             [0; 1; 2; 3]%Z.

Definition dump_tuple (l : list Z) : list byte :=
  x28 :: map (fun k => default x00 (Byte.of_N (Z.to_N ((Z.of_nat (length l) / 256 ^ k) mod 256))))
             [0; 1; 2; 3]%Z
      ++ concat (map dump_int l).

(** Two bucket files that do not end where their data ends.  The
    first holds the record (1, 2) and then the record (3, 4) cut short
    after its first item; the second holds the record (1, 2), a byte
    that is no type code, and the whole record (3, 4). *)
Definition truncated_file : list byte :=
  [x28; x02; x00; x00; x00; x69; x01; x00; x00; x00; x69; x02; x00; x00; x00;
   x28; x02; x00; x00; x00; x69; x03; x00; x00; x00].

Definition damaged_file : list byte :=
  [x28; x02; x00; x00; x00; x69; x01; x00; x00; x00; x69; x02; x00; x00; x00;
   x3f;
   x28; x02; x00; x00; x00; x69; x03; x00; x00; x00; x69; x04; x00; x00; x00].

(** The document frequency a list of [.freq] records holds for the
    term [k], and the same over several files. *)
Definition weight (k : list ascii) (file : list (list ascii * nat)) : nat :=
  list_sum (map (fun kv => if decide (fst kv = k) then snd kv else 0) file).

Definition total (k : list ascii) (files : list (list (list ascii * nat))) : nat :=
  list_sum (map (weight k) files).

(** The tokens of a run of the tokenizer that finishes. *)
Definition yielded {A} (max_order : nat) (sq : list A) : list (list A) :=
  match Tokenizer.call max_order sq with
  | Ok tokens => tokens
  | Raise _ => []
  end.

(** Whether the tokenizer yields [k] on a document. *)
Definition has_token (max_order : nat) (k : list ascii) (text : list ascii) : bool :=
  match Tokenizer.call max_order text with
  | Ok tokens => bool_decide (k ∈ tokens)
  | Raise _ => false
  end.

(** The number of documents on which the tokenizer yields [k]. *)
Definition yielding (max_order : nat) (k : list ascii) (paths : list (list ascii)) : nat :=
  length (List.filter (has_token max_order k) paths).

(** A small corpus and a hash function to instantiate the pipeline. *)
Definition sample_hash (t : list ascii) : Z := Z.of_nat (length t).
Definition sample_docs : list (list ascii) :=
  [["a"; "b"]; ["b"; "a"; "b"]; ["c"]]%char.

(** The output of [pass3] on one bucket with three terms and two
    languages, with integer scores. *)
Definition sample_pass3_out : list (list (list ascii) * list (list Z) * list Z) :=
  [ ([["a"]; ["b"]; ["c"]]%char, [[5; 1; 3]; [0; 7; 2]]%Z, [0; 0; 0]%Z) ].

(** The terms a language contributes to the final feature set: those
    at the indices [argsort(lang_weights)[-feats_per_lang:]]. *)
Definition chosen {score} (argsort : list score → list nat) (feats_per_lang : Z)
    (terms : list (list ascii)) (w_lang : list (list score))
    (row : nat) (tok : list ascii) : Prop :=
  ∃ w t, w_lang !! row = Some w
         ∧ t ∈ Select.slice_from (argsort w) (- feats_per_lang)
         ∧ terms !! t = Some tok.

(** The term [v * log(v)] of the entropy for a count [c], with the
    NaN of a zero count already replaced by 0 as [nansum] does. *)
Definition xlogx (c : nat) : R :=
  if decide (c = 0) then 0%R else (INR c * ln (INR c))%R.

(** A class map of three documents over two classes, and a feature
    present in all three. *)
Definition sample_cm : list (list bool) := [[true; false]; [true; false]; [false; true]].
Definition sample_present : list bool := [true; true; true].

(** The cell of the feature map a record of a bucket file is written
    to by [pass2], when both of its indices are in range. *)
Definition cell_of (chunk_offsets : list nat) (num_instances num_feats base_f_id : nat)
    (r : Train.record) : option (nat * nat) :=
  let '(f_id, chunk_id, doc_id, _) := r in
  match chunk_offsets !! chunk_id with
  | None => None
  | Some off =>
      match Train.np_index num_instances (Z.of_nat (off + doc_id)),
            Train.np_index num_feats (Z.of_nat f_id - Z.of_nat base_f_id) with
      | Ok d, Ok f => Some (d, f)
      | _, _ => None
      end
  end.

(** Two features and three documents for the training pipeline, with
    the scanner tables [build_scanner] makes for the features. *)
Definition sample_feats : list (list ascii) := [["a"]; ["b"]]%char.
Definition sample_texts : list (list ascii) := [["a"]; ["a"; "b"]; ["a"; "a"; "b"]]%char.
Definition sample_nm : list nat :=
  match Train.build_scanner sample_feats with
  | Ok (nm, _) => nm
  | Raise _ => []
  end.
Definition sample_state2feat : gmap nat (list nat) :=
  match Train.build_scanner sample_feats with
  | Ok (_, s2f) => s2f
  | Raise _ => ∅
  end.

(** A vector of counts without negative entry. *)
Abbreviation nonneg := (Forall (fun x : Z => (0 ≤ x)%Z)).

(** The scanner [Scanner(sample_feats)]. *)
Definition sample_scanner : Scanner.scanner :=
  match Scanner.build sample_feats with
  | Ok sc => sc
  | Raise _ => {| Scanner.goto := ∅; Scanner.fail := ∅; Scanner.states := 0;
                  Scanner.nextmove := ∅; Scanner.output := ∅; Scanner.nm_arr := [] |}
  end.

(** The globals [setup_pass1] installs for the sample features, with
    a single bucket. *)
Definition sample_globals : Train.pass1_globals :=
  {| Train.g_nm_arr := sample_nm; Train.g_output_states := dom sample_state2feat;
     Train.g_state2feat := sample_state2feat; Train.g_b_dirs := 1;
     Train.g_bucket_map := {[0 := 0; 1 := 0]} |}.

(** The count the records [rs] of a bucket hold for the cell
    (document [d], feature column [f]) of the feature map. *)
Definition recorded_count (chunk_offsets : list nat) (num_instances num_feats base_f_id : nat)
    (rs : list Train.record) (d f : nat) : Z :=
  Train.zsum (map (fun r : Train.record =>
                     if decide (cell_of chunk_offsets num_instances num_feats base_f_id r
                                = Some (d, f))
                     then Z.of_nat (snd r) else 0%Z) rs).

(** Two bucket files for a feature map of three documents (two chunks,
    offsets 0 and 2) and two features. *)
Definition sample_offsets : list nat := [0; 2; 3].
Definition sample_bucket_files : list (list Train.record) :=
  [[(0, 0, 0, 1); (0, 0, 1, 1); (1, 0, 1, 1)]; [(0, 1, 0, 2); (1, 1, 0, 1)]].

(** The documents of a chunk on which the tokenizer yields [k], by
    their index in the chunk, in increasing order. *)
Definition docs_with (max_order : nat) (k : list ascii) (chunk_paths : list (list ascii))
  : list nat :=
  map fst (List.filter (fun d : nat * list ascii => has_token max_order k (snd d))
                       (Common.enumerate chunk_paths)).


(** ** train.Scanner: pickling *)

Module Pickle.
Import Scanner.

(** [Scanner.__getstate__]: the compiled next-move array and the
    output function. *)
Definition getstate (sc : scanner) : list nat * gmap nat (list keyword) :=
  (nm_arr sc, output sc).

(** The loop of [Scanner.__setstate__]:
    [for i, next_state in enumerate(nm_array):
       self.nextmove[(i / 256, chr(i % 256))] = next_state]. *)
Definition restore_nextmove (nm_array : list nat) : gmap (nat * ascii) nat :=
  fold_left (fun nm '(i, next_state) =>
               <[(i / 256, ascii_of_nat (i mod 256)) := next_state]> nm)
            (Common.enumerate nm_array) ∅.

(** [Scanner.__setstate__]: [goto] and [fail] were locals of [build];
    a restored scanner has none. *)
Definition setstate (value : list nat * gmap nat (list keyword)) : scanner :=
  {| goto := ∅; fail := ∅; states := 0;
     nextmove := restore_nextmove (fst value);
     output := snd value;
     nm_arr := fst value |}.

End Pickle.


(** ** LDfeatureselect.disklist: creation and length *)

Module Disklist.
Import Records.

(** [disklist.__init__]: an empty temporary file, no item counted. *)
Definition init : disklist := {| fileh := []; count := 0 |}.

(** [disklist.__len__] *)
Definition len (d : disklist) : nat := count d.

End Disklist.

(** * Properties *)

Import Automaton.

(** * Facts about the exception monad *)

Lemma bind_Ok {A B} (m : result A) (k : A → result B) (b : B) :
  (m ≫= k) = Ok b → ∃ a, m = Ok a ∧ k a = Ok b.
Proof. destruct m as [a|e]; simpl; [eauto | discriminate]. Qed.

(** A loop that keeps an invariant indexed by the items already
    handled runs to its end. *)
Lemma foldR_ind {A S} (I : list A → S → Prop) (body : S → A → result S) (l : list A) (s0 : S) :
  I [] s0 →
  (∀ l1 x l2 s, l = l1 ++ x :: l2 → I l1 s → ∃ s', body s x = Ok s' ∧ I (l1 ++ [x]) s') →
  ∃ s', foldR body l s0 = Ok s' ∧ I l s'.
Proof.
  assert (G : ∀ l2 l1 s, l = l1 ++ l2 → I l1 s →
    (∀ l1 x l2 s, l = l1 ++ x :: l2 → I l1 s → ∃ s', body s x = Ok s' ∧ I (l1 ++ [x]) s') →
    ∃ s', foldR body l2 s = Ok s' ∧ I l s').
  { induction l2 as [|x l2 IH]; intros l1 s El Hs Hstep.
    - rewrite app_nil_r in El. subst l1. exists s. done.
    - destruct (Hstep l1 x l2 s El Hs) as (s' & Hb & Hs').
      simpl. rewrite Hb. simpl.
      apply (IH (l1 ++ [x])); [by rewrite <- app_assoc | done | done]. }
  intros H0 Hstep. by apply (G l [] s0).
Qed.

Lemma mapR_cases {A B} (f : A → result B) (e : exn) (l : list A) :
  (∀ x, x ∈ l → (∃ y, f x = Ok y) ∨ f x = Raise e) →
  (∃ ys, mapR f l = Ok ys) ∨ mapR f l = Raise e.
Proof.
  induction l as [|x l IH]; intros H; simpl; [by eauto|].
  destruct (H x) as [[y ->]| ->]; [by left | | by right].
  cbn [mbind result_bind].
  destruct IH as [[ys ->]| ->]; [| by eauto | by right].
  intros x' Hx'. apply H. by right.
Qed.

Lemma mapR_Ok {A B} (f : A → result B) (l : list A) :
  (∀ x, x ∈ l → ∃ y, f x = Ok y) →
  ∃ ys, mapR f l = Ok ys ∧ Forall2 (fun x y => f x = Ok y) l ys.
Proof.
  induction l as [|x l IH]; intros H; simpl; [by eauto|].
  destruct (H x) as [y Hy]; [by left|]. rewrite Hy. cbn [mbind result_bind].
  destruct IH as (ys & -> & F); [intros x' Hx'; apply H; by right|].
  exists (y :: ys). split; [done|]. by constructor.
Qed.

Lemma mapR_Raise {A B} (f : A → result B) (e : exn) (l : list A) :
  (∀ x, x ∈ l → (∃ y, f x = Ok y) ∨ f x = Raise e) →
  (∃ x, x ∈ l ∧ f x = Raise e) →
  mapR f l = Raise e.
Proof.
  induction l as [|x l IH]; intros H (x0 & Hx0 & E0); [by apply not_elem_of_nil in Hx0|].
  simpl. destruct (H x) as [[y Hy]| ->]; [by left | | done].
  rewrite Hy. cbn [mbind result_bind].
  rewrite IH; [done | intros x' Hx'; apply H; by right |].
  apply elem_of_cons in Hx0 as [->|Hx0]; [congruence|]. eauto.
Qed.

Lemma bind_Ok_l {A B} (a : A) (k : A → result B) : (Ok a ≫= k) = k a.
Proof. reflexivity. Qed.


(** * The alphabet *)

Lemma alphabet_all (a : ascii) : a ∈ Scanner.alphabet.
Proof.
  unfold Scanner.alphabet. rewrite <- (ascii_nat_embedding a).
  apply list_elem_of_fmap. exists (nat_of_ascii a). split; [done|].
  apply elem_of_seq. pose proof (nat_ascii_bounded a). lia.
Qed.

Lemma alphabet_NoDup : NoDup Scanner.alphabet.
Proof.
  unfold Scanner.alphabet. apply NoDup_fmap_2_strong; [|apply NoDup_seq].
  intros x y Hx Hy E. apply elem_of_seq in Hx, Hy.
  rewrite <- (nat_ascii_embedding x), <- (nat_ascii_embedding y) by lia.
  by rewrite E.
Qed.

Local Opaque Scanner.alphabet.

(** * Algorithm 2 builds a trie *)

Lemma trie_empty : trie ∅ 0.
Proof. split; intros *; try rewrite lookup_empty; try done. lia. Qed.

Lemma walk_spec g n : trie g n → ∀ a state s' rest,
  state ≤ n → Scanner.walk g state a = (s', rest) →
  s' ≤ n ∧ match rest with [] => True | c :: _ => g !! (s', c) = None end.
Proof.
  intros T. induction a as [|c a IH]; intros state s' rest Hs E; simpl in E.
  - inversion E; subst. done.
  - destruct (g !! (state, c)) as [s|] eqn:G.
    + apply (IH s); [|done]. apply (tr_lt _ _ T) in G. lia.
    + inversion E; subst. done.
Qed.

Lemma extend_spec : ∀ a g n state g' n' s',
  trie g n → state ≤ n →
  match a with [] => True | c :: _ => g !! (state, c) = None end →
  Scanner.extend g n state a = (g', n', s') →
  trie g' n' ∧ n ≤ n' ∧ s' ≤ n'.
Proof.
  induction a as [|c a IH]; intros g n state g' n' s' T Hs Hc E; simpl in E.
  - inversion E; subst. done.
  - apply IH in E.
    + destruct E as (T' & ? & ?). split; [done|]. lia.
    + split.
      * intros r x s. rewrite lookup_insert. case_decide as D.
        -- intros [= <-]. inversion D. lia.
        -- intros G. apply (tr_lt _ _ T) in G. lia.
      * intros r x r' x' s. rewrite !lookup_insert.
        case_decide as D; case_decide as D'.
        -- inversion D; inversion D'. by subst.
        -- intros [= <-] G. apply (tr_lt _ _ T) in G. lia.
        -- intros G [= <-]. apply (tr_lt _ _ T) in G. lia.
        -- apply (tr_inj _ _ T).
      * intros s Hs'. destruct (decide (s = S n)) as [->|Hne].
        -- exists state, c. by rewrite lookup_insert_eq.
        -- destruct (tr_parent _ _ T s) as (r & x & G); [lia|].
           exists r, x. rewrite lookup_insert_ne; [done|]. intros D. congruence.
    + lia.
    + destruct a as [|c' a]; [done|]. rewrite lookup_insert_ne.
      * destruct (g !! (S n, c')) as [s|] eqn:G; [|done].
        apply (tr_lt _ _ T) in G. lia.
      * intros D. inversion D. lia.
Qed.

Lemma enter_spec g out n a g' out' n' :
  trie g n → Scanner.enter (g, out, n) a = (g', out', n') → trie g' n'.
Proof.
  intros T E. unfold Scanner.enter in E.
  destruct (Scanner.walk g 0 a) as [state rest] eqn:W.
  destruct (Scanner.extend g n state rest) as [[g1 n1] s1] eqn:X.
  inversion E; subst.
  apply (walk_spec _ _ T) in W; [|lia]. destruct W as [Hs Hr].
  by apply (extend_spec _ _ _ _ _ _ _ T Hs Hr) in X as (? & ? & ?).
Qed.

Lemma build_trie_spec : ∀ keywords g out n g' out' n',
  trie g n → fold_left Scanner.enter keywords (g, out, n) = (g', out', n') → trie g' n'.
Proof.
  induction keywords as [|a keywords IH]; intros g out n g' out' n' T E;
    cbn [fold_left] in E.
  - by inversion E; subst.
  - destruct (Scanner.enter (g, out, n) a) as [[g1 out1] n1] eqn:E1.
    apply (IH _ _ _ _ _ _ (enter_spec _ _ _ _ _ _ _ T E1) E).
Qed.

Lemma complete_root_lookup g r a :
  Scanner.complete_root g !! (r, a) =
  match g !! (r, a) with
  | Some s => Some s
  | None => if decide (r = 0) then Some 0 else None
  end.
Proof.
  unfold Scanner.complete_root.
  assert (G : ∀ l g, fold_left (fun (g : gmap (nat * ascii) nat) a => match g !! (0, a) with
                        | Some _ => g
                        | None => <[(0, a) := 0]> g
                        end) l g !! (r, a) =
    match g !! (r, a) with
    | Some s => Some s
    | None => if decide (r = 0 ∧ a ∈ l) then Some 0 else None
    end).
  { induction l as [|x l IH]; intros g0; simpl.
    - destruct (g0 !! (r, a)); [done|]. case_decide as D; [|done].
      destruct D as [_ D]. by apply not_elem_of_nil in D.
    - rewrite IH. destruct (g0 !! (0, x)) as [s|] eqn:G0.
      + destruct (g0 !! (r, a)) as [s'|] eqn:G1; [done|].
        destruct (decide (r = 0 ∧ a ∈ l)) as [D|D];
          destruct (decide (r = 0 ∧ a ∈ x :: l)) as [D'|D']; try done.
        * exfalso. apply D'. destruct D. split; [done|]. by apply elem_of_cons; right.
        * exfalso. destruct D' as [-> D']. apply elem_of_cons in D' as [->|D'];
            [congruence | by apply D].
      + rewrite lookup_insert. destruct (decide ((0, x) = (r, a))) as [E|E].
        * inversion E; subst. rewrite G0. rewrite decide_True; [done|].
          split; [done|]. apply elem_of_cons. by left.
        * destruct (g0 !! (r, a)) as [s'|] eqn:G1; [done|].
          destruct (decide (r = 0 ∧ a ∈ l)) as [D|D];
            destruct (decide (r = 0 ∧ a ∈ x :: l)) as [D'|D']; try done.
          -- exfalso. apply D'. destruct D. split; [done|]. by apply elem_of_cons; right.
          -- exfalso. destruct D' as [-> D']. apply elem_of_cons in D' as [->|D'];
               [done | by apply D]. }
  rewrite G. destruct (g !! (r, a)); [done|].
  destruct (decide (r = 0 ∧ a ∈ Scanner.alphabet)) as [D|D];
    destruct (decide (r = 0)) as [D'|D']; try done.
  - by destruct D.
  - exfalso. apply D. split; [done|]. apply alphabet_all.
Qed.

Lemma complete_root_spec g n : trie g n → ctrie (Scanner.complete_root g) n.
Proof.
  intros T. split.
  - intros a. rewrite complete_root_lookup. destruct (g !! (0, a)); [eauto|].
    rewrite decide_True; eauto.
  - intros r a s. rewrite complete_root_lookup.
    destruct (g !! (r, a)) as [s'|] eqn:G.
    + intros [= <-] _. by apply (tr_lt _ _ T) in G.
    + case_decide; [|done]. intros [= <-]. done.
  - intros r a. rewrite complete_root_lookup.
    destruct (g !! (r, a)) as [s'|] eqn:G.
    + intros [= ->]. apply (tr_lt _ _ T) in G. lia.
    + case_decide; done.
  - intros r a r' a' s Hs. rewrite !complete_root_lookup.
    destruct (g !! (r, a)) as [s1|] eqn:G1; destruct (g !! (r', a')) as [s2|] eqn:G2.
    + intros [= <-] [= ->]. by apply (tr_inj _ _ T _ _ _ _ _ G1 G2).
    + intros _. case_decide; [|done]. intros [= <-]. done.
    + case_decide; [|done]. intros [= <-]. done.
    + case_decide; [|done]. intros [= <-]. done.
  - intros s Hs. destruct (tr_parent _ _ T s Hs) as (r & a & G).
    exists r, a. by rewrite complete_root_lookup, G.
Qed.

(** * Breadth-first order *)

Lemma NoDup_bounded_length (L : list nat) (n : nat) :
  NoDup L → Forall (fun s => 1 ≤ s ≤ n) L → length L ≤ n.
Proof.
  intros ND B. transitivity (length (seq 1 n)); [|by rewrite length_seq].
  apply submseteq_length.
  apply NoDup_submseteq; [done|]. intros x Hx.
  rewrite Forall_forall in B. apply B in Hx. apply elem_of_seq. lia.
Qed.

Lemma bfs_shape_step {A} (f : A → list A) (roots P : list A) (r : A) (q : list A) :
  P ++ r :: q = roots ++ (P ≫= f) →
  (P ++ [r]) ++ q ++ f r = roots ++ ((P ++ [r]) ≫= f).
Proof.
  intros E. rewrite bind_app, bind_cons. simpl. rewrite app_nil_r.
  rewrite <- app_assoc. simpl. rewrite app_comm_cons.
  by rewrite !app_assoc, E.
Qed.

Lemma bfs_prefix_step {A} (f : A → list A) (roots L P : list A) (r : A) (q X : list A) :
  L = roots ++ (L ≫= f) → L = (P ++ r :: q) ++ X →
  P ++ r :: q = roots ++ (P ≫= f) →
  ∃ X', L = ((P ++ [r]) ++ q ++ f r) ++ X'.
Proof.
  intros HL HP E. exists ((q ++ X) ≫= f).
  rewrite (bfs_shape_step f roots P r q E).
  rewrite <- app_assoc, <- bind_app.
  replace ((P ++ [r]) ++ q ++ X) with L; [done|].
  rewrite HP, <- !app_assoc. done.
Qed.

Section Graph.
Variable g : gmap (nat * ascii) nat.
Variable n : nat.
Hypothesis CT : ctrie g n.

Lemma elem_children_over l r s :
  s ∈ children_over g l r ↔ ∃ a, a ∈ l ∧ g !! (r, a) = Some s.
Proof. unfold children_over. by rewrite list_elem_of_omap. Qed.

Lemma children_over_app l1 l2 r :
  children_over g (l1 ++ l2) r = children_over g l1 r ++ children_over g l2 r.
Proof. unfold children_over. by rewrite omap_app. Qed.

Lemma elem_roots_over l s :
  s ∈ roots_over g l ↔ s ≠ 0 ∧ ∃ a, a ∈ l ∧ g !! (0, a) = Some s.
Proof. unfold roots_over. by rewrite list_elem_of_filter, elem_children_over. Qed.

Lemma roots_over_app l1 l2 : roots_over g (l1 ++ l2) = roots_over g l1 ++ roots_over g l2.
Proof. unfold roots_over. by rewrite children_over_app, filter_app. Qed.

Lemma ordered_snoc L fail s f :
  ordered L fail → s ∉ L → f = 0 ∨ f ∈ L → ordered (L ++ [s]) (<[s := f]> fail).
Proof.
  intros O Hs Hf L1 x L2 E.
  destruct L2 as [|y L2 _] using rev_ind.
  - apply app_inj_tail in E as [-> ->]. exists f. by rewrite lookup_insert_eq.
  - rewrite app_comm_cons, app_assoc in E. apply app_inj_tail in E as [-> ->].
    destruct (O L1 x L2 eq_refl) as (f' & F & Hf').
    exists f'. split; [|done]. rewrite lookup_insert_ne; [done|].
    intros ->. apply Hs. apply elem_of_app. right. apply elem_of_cons. by left.
Qed.

(** Following failure links from the root or a state of a prefix of
    an ordered list ends in a goto edge out of the root or out of a
    state of that prefix. *)
Lemma follow_prefix L fail a : ordered L fail →
  ∀ k L1 L2 st fuel, length L1 ≤ k → L = L1 ++ L2 → st = 0 ∨ st ∈ L1 → length L1 ≤ fuel →
  ∃ st' t, Scanner.follow g fail fuel st a = Ok t ∧ g !! (st', a) = Some t
           ∧ (st' = 0 ∨ st' ∈ L1).
Proof.
  intros O. induction k as [|k IH]; intros L1 L2 st fuel Hk EL Hst Hf.
  - destruct L1; [|simpl in Hk; lia]. destruct Hst as [->|Hst]; [|by apply not_elem_of_nil in Hst].
    destruct (ct_root _ _ CT a) as [t G]. exists 0, t.
    destruct fuel; simpl; rewrite G; auto.
  - destruct (g !! (st, a)) as [t|] eqn:G.
    + exists st, t. destruct fuel; simpl; rewrite G; auto.
    + destruct Hst as [->|Hst].
      { destruct (ct_root _ _ CT a) as [t G']. congruence. }
      apply list_elem_of_split in Hst as (M1 & M2 & ->).
      destruct (O M1 st (M2 ++ L2)) as (f & F & Hf').
      { rewrite EL. by rewrite <- app_assoc. }
      rewrite length_app in Hk, Hf. simpl in Hk, Hf.
      destruct fuel as [|fuel]; [lia|].
      destruct (IH M1 (st :: M2 ++ L2) f fuel) as (st' & t & Hfo & G' & Hst');
        [lia | by rewrite EL, <- app_assoc | done | lia |].
      exists st', t. split; [|split; [done|]].
      * simpl. rewrite G. unfold getitem. rewrite F. simpl. done.
      * destruct Hst' as [->|Hst']; [by left|]. right. apply elem_of_app. by left.
Qed.

Lemma alphabet_split_notin A1 a A2 : Scanner.alphabet = A1 ++ a :: A2 → a ∉ A1.
Proof.
  intros E. pose proof alphabet_NoDup as ND. rewrite E in ND.
  apply NoDup_app in ND as (_ & ND & _). intros Ha. apply (ND a Ha).
  apply elem_of_cons. by left.
Qed.

Lemma children_over_one_Some r a s : g !! (r, a) = Some s → children_over g [a] r = [s].
Proof. intros G. unfold children_over. simpl. by rewrite G. Qed.

Lemma children_over_one_None r a : g !! (r, a) = None → children_over g [a] r = [].
Proof. intros G. unfold children_over. simpl. by rewrite G. Qed.

(** *** Algorithm 3 *)

Lemma init3_spec :
  ∃ fail0, Scanner.init3 g = Ok ((roots g), fail0) ∧ bfs_inv n (roots g) fail0.
Proof.
  unfold Scanner.init3.
  destruct (foldR_ind
    (fun A1 (st : list nat * gmap nat nat) => fst st = roots_over g A1 ∧ bfs_inv n (fst st) (snd st))
    (fun '(queue, fail) a =>
           s ← getitem g (0, a);
           if decide (s ≠ 0) then Ok (queue ++ [s], <[s := 0]> fail)
           else Ok (queue, fail))
    Scanner.alphabet ([], ∅)) as ([queue fail0] & E & Hq & HI).
  - split; [done|]. split; [constructor|]. split; [constructor|].
    intros L1 s L2 EL. by destruct L1.
  - intros A1 a A2 [queue fail] EA [Hq (ND & B & O)]. simpl in Hq, ND, B, O.
    destruct (ct_root _ _ CT a) as [s G].
    unfold getitem. rewrite G. simpl.
    rewrite roots_over_app. unfold roots_over at 2.
    rewrite (children_over_one_Some _ _ _ G).
    destruct (decide (s ≠ 0)) as [Hs|Hs].
    + eexists. split; [done|]. simpl.
      rewrite filter_cons_True by done. rewrite filter_nil.
      split; [by rewrite Hq|].
      assert (Hfresh : s ∉ queue).
      { rewrite Hq. intros Hin. apply elem_roots_over in Hin as (_ & a' & Ha' & G').
        destruct (ct_inj _ _ CT _ _ _ _ _ Hs G G') as [_ <-].
        by apply (alphabet_split_notin _ _ _ EA). }
      split; [|split].
      * apply NoDup_app. split; [done|]. split; [|apply NoDup_singleton].
        intros x Hx Hx'. apply list_elem_of_singleton in Hx'. by subst.
      * apply Forall_app. split; [done|]. constructor; [|constructor].
        destruct (ct_lt _ _ CT _ _ _ G Hs). lia.
      * apply ordered_snoc; auto.
    + eexists. split; [done|]. simpl.
      rewrite filter_cons_False by done. rewrite filter_nil, app_nil_r. done.
  - simpl in Hq. subst queue. exists fail0. done.
Qed.

Section Visit3.
Variables (hops : nat) (P : list nat) (r : nat) (q : list nat).
Hypothesis Hhops : n ≤ hops.
Hypothesis Hshape : P ++ r :: q = (roots g) ++ (P ≫= children g).

Lemma child_fresh A1 a A2 s queue :
  Scanner.alphabet = A1 ++ a :: A2 →
  queue = q ++ children_over g A1 r →
  NoDup (P ++ r :: queue) → Forall (fun s => 1 ≤ s ≤ n) (P ++ r :: queue) →
  g !! (r, a) = Some s →
  (s ∉ (P ++ r :: queue)) ∧ 1 ≤ s ≤ n.
Proof.
  intros EA -> ND B G.
  assert (Hr : 1 ≤ r).
  { rewrite Forall_forall in B. apply (B r). apply elem_of_app. right.
    apply elem_of_cons. by left. }
  assert (Hs : s ≠ 0).
  { intros ->. apply (ct_zero _ _ CT) in G. lia. }
  split; [|destruct (ct_lt _ _ CT _ _ _ G Hs); lia].
  rewrite app_comm_cons, app_assoc, Hshape. intros Hin.
  rewrite !elem_of_app in Hin. destruct Hin as [[Hin|Hin]|Hin].
  - apply elem_roots_over in Hin as (_ & a' & _ & G').
    destruct (ct_inj _ _ CT _ _ _ _ _ Hs G G') as [-> _]. lia.
  - apply list_elem_of_bind in Hin as (r' & Hin & Hr').
    apply elem_children_over in Hin as (a' & _ & G').
    destruct (ct_inj _ _ CT _ _ _ _ _ Hs G G') as [<- _].
    apply NoDup_app in ND as (_ & ND & _). apply (ND r Hr').
    apply elem_of_cons. by left.
  - apply elem_children_over in Hin as (a' & Ha' & G').
    destruct (ct_inj _ _ CT _ _ _ _ _ Hs G G') as [_ <-].
    by apply (alphabet_split_notin _ _ _ EA).
Qed.

Lemma visit3_fold fail out :
  bfs_inv n (P ++ r :: q) fail →
  ∃ fail' out',
    foldR (Scanner.visit3 g hops r) Scanner.alphabet (q, fail, out)
      = Ok (q ++ children g r, fail', out')
    ∧ bfs_inv n (P ++ r :: q ++ children g r) fail'.
Proof.
  intros HI.
  destruct (foldR_ind
    (fun A1 (st : list nat * gmap nat nat * gmap nat (gset (list ascii))) =>
       fst (fst st) = q ++ children_over g A1 r ∧ bfs_inv n (P ++ r :: fst (fst st)) (snd (fst st)))
    (Scanner.visit3 g hops r) Scanner.alphabet (q, fail, out))
    as ([[queue fail'] out'] & E & Hq & HI').
  - simpl. unfold children_over. simpl. by rewrite app_nil_r.
  - intros A1 a A2 [[queue fail1] out1] EA [Hq (ND & B & O)]. simpl in Hq, ND, B, O.
    unfold Scanner.visit3. rewrite children_over_app.
    destruct (g !! (r, a)) as [s|] eqn:G.
    + rewrite (children_over_one_Some _ _ _ G).
      destruct (child_fresh _ _ _ _ _ EA Hq ND B G) as [Hfresh Hs].
      destruct (O P r queue eq_refl) as (f0 & F0 & Hf0).
      destruct (follow_prefix _ _ a O (length P) P (r :: queue) f0 hops)
        as (st' & t & Hfo & Gt & Hst'); [done | done | done | |].
      { assert (length (P ++ r :: queue) ≤ n) by by apply NoDup_bounded_length.
        rewrite length_app in H. lia. }
      unfold getitem. rewrite F0. simpl. rewrite Hfo. simpl.
      assert (Ht : t = 0 ∨ t ∈ (P ++ r :: queue)).
      { destruct (decide (t = 0)) as [|Hne]; [by left|]. right.
        rewrite Hq, app_comm_cons, app_assoc, Hshape. rewrite !elem_of_app. left.
        destruct Hst' as [->|Hst'].
        - left. apply elem_roots_over. split; [done|]. exists a. split; [apply alphabet_all|done].
        - right. apply list_elem_of_bind. exists st'. split; [|done].
          apply elem_children_over. exists a. split; [apply alphabet_all|done]. }
      assert (HI2 : bfs_inv n (P ++ r :: queue ++ [s]) (<[s := t]> fail1)).
      { rewrite app_comm_cons, app_assoc. split; [|split].
        - apply NoDup_app. split; [done|]. split; [|apply NoDup_singleton].
          intros x Hx Hx'. apply list_elem_of_singleton in Hx'. by subst.
        - apply Forall_app. split; [done|]. by constructor.
        - by apply ordered_snoc. }
      destruct (decide _); eexists; (split; [done|]); simpl;
        (split; [by rewrite Hq, <- app_assoc | done]).
    + rewrite (children_over_one_None _ _ G), app_nil_r.
      eexists. split; [done|]. done.
  - simpl in Hq, HI'. subst queue. exists fail', out'. done.
Qed.

End Visit3.

Lemma loop3_spec hops : n ≤ hops →
  ∀ fuel P q fail out,
    bfs_inv n (P ++ q) fail → P ++ q = (roots g) ++ (P ≫= children g) → n < fuel + length P →
    ∃ L fail' out', Scanner.loop3 g hops fuel (q, fail, out) = Ok (fail', out')
      ∧ bfs_inv n L fail' ∧ L = (roots g) ++ (L ≫= children g).
Proof.
  intros Hhops. induction fuel as [|fuel IH]; intros P q fail out HI Hshape Hfuel.
  - destruct q as [|r q].
    + exists P, fail, out. rewrite app_nil_r in *. done.
    + destruct HI as (ND & B & _).
      assert (length (P ++ r :: q) ≤ n) by by apply NoDup_bounded_length.
      rewrite length_app in H. simpl in *. lia.
  - destruct q as [|r q].
    + exists P, fail, out. rewrite app_nil_r in *. done.
    + destruct (visit3_fold hops P r q Hhops Hshape fail out HI) as (fail1 & out1 & E & HI1).
      cbn [Scanner.loop3]. rewrite E. cbn [mbind result_bind].
      apply (IH (P ++ [r])).
      * rewrite <- app_assoc. exact HI1.
      * by apply bfs_shape_step.
      * rewrite length_app. simpl. lia.
Qed.

Lemma ordered_prefix L X fail : ordered (L ++ X) fail → ordered L fail.
Proof.
  intros O L1 s L2 ->. apply (O L1 s (L2 ++ X)). by rewrite <- app_assoc.
Qed.

(** *** Algorithm 4 *)

Section NextMove.
Variable fail : gmap nat nat.

Lemma follow_dstep a : ∀ fuel r t,
  Scanner.follow g fail fuel r a = Ok t → dstep g fail r a t.
Proof.
  induction fuel as [|fuel IH]; intros r t E; simpl in E;
    destruct (g !! (r, a)) as [t'|] eqn:G; try discriminate.
  - inversion E; subst. by apply ds_goto.
  - inversion E; subst. by apply ds_goto.
  - unfold getitem in E. destruct (fail !! r) as [f|] eqn:F; [|discriminate].
    simpl in E. apply (ds_fail _ _ _ _ f); auto.
Qed.

Lemma dstep_fun r a t t' : dstep g fail r a t → dstep g fail r a t' → t = t'.
Proof.
  intros D. revert t'. induction D as [r a t G|r a f t G F D IH]; intros t' D'.
  - inversion D'; subst; congruence.
  - inversion D'; subst; [congruence|].
    apply IH. congruence.
Qed.

Lemma dstep_target r a t : dstep g fail r a t → t ≤ n.
Proof.
  induction 1 as [r a t G|]; [|done].
  destruct (decide (t = 0)) as [->|Hne]; [lia|].
  by destruct (ct_lt _ _ CT _ _ _ G Hne).
Qed.

Lemma init4_spec :
  ∃ nm0, Scanner.init4 g = Ok ((roots g), nm0) ∧ nm_inv g fail [] nm0.
Proof.
  unfold Scanner.init4.
  destruct (foldR_ind
    (fun A1 (st : list nat * gmap (nat * ascii) nat) =>
       fst st = roots_over g A1
       ∧ (∀ a, a ∈ A1 → is_Some (snd st !! (0, a)))
       ∧ (∀ r a t, snd st !! (r, a) = Some t → dstep g fail r a t))
    (fun '(queue, nextmove) a =>
           s ← getitem g (0, a);
           let nextmove' := <[(0, a) := s]> nextmove in
           if decide (s ≠ 0) then Ok (queue ++ [s], nextmove')
           else Ok (queue, nextmove'))
    Scanner.alphabet ([], ∅)) as ([queue nm0] & E & Hq & Hc & Hs).
  - split; [done|]. split.
    + intros a Ha. by apply not_elem_of_nil in Ha.
    + intros r a t. simpl. by rewrite lookup_empty.
  - intros A1 a A2 [queue nm] EA (Hq & Hc & Hs). simpl in Hq, Hc, Hs.
    destruct (ct_root _ _ CT a) as [s G].
    unfold getitem. rewrite G. cbn [mbind result_bind].
    rewrite roots_over_app. unfold roots_over at 2.
    rewrite (children_over_one_Some _ _ _ G).
    assert (Hc' : ∀ a', a' ∈ A1 ++ [a] → is_Some (<[(0, a) := s]> nm !! (0, a'))).
    { intros a' Ha'. rewrite lookup_insert. case_decide; [eauto|].
      apply elem_of_app in Ha' as [Ha'|Ha']; [by apply Hc|].
      apply list_elem_of_singleton in Ha'. congruence. }
    assert (Hs' : ∀ r a' t, <[(0, a) := s]> nm !! (r, a') = Some t → dstep g fail r a' t).
    { intros r a' t. rewrite lookup_insert. case_decide as D.
      - intros [= <-]. inversion D; subst. by apply ds_goto.
      - apply Hs. }
    destruct (decide (s ≠ 0)) as [Hne|Hne]; eexists; (split; [done|]); simpl.
    + rewrite filter_cons_True by done. rewrite filter_nil. by rewrite Hq.
    + rewrite filter_cons_False by done. rewrite filter_nil, app_nil_r. done.
  - simpl in Hq, Hc, Hs. subst queue. exists nm0. split; [done|]. split; [|done].
    intros r a [->|Hr]; [|by apply not_elem_of_nil in Hr].
    apply Hc, alphabet_all.
Qed.

Lemma visit4_fold L P r q X nm :
  ordered L fail → L = (P ++ r :: q) ++ X → nm_inv g fail P nm →
  ∃ nm', foldR (Scanner.visit4 g fail r) Scanner.alphabet (q, nm) = Ok (q ++ children g r, nm')
         ∧ nm_inv g fail (P ++ [r]) nm'.
Proof.
  intros O EL [Hc Hs].
  destruct (foldR_ind
    (fun A1 (st : list nat * gmap (nat * ascii) nat) =>
       fst st = q ++ children_over g A1 r
       ∧ (∀ r' a, r' = 0 ∨ r' ∈ P ∨ (r' = r ∧ a ∈ A1) → is_Some (snd st !! (r', a)))
       ∧ (∀ r' a t, snd st !! (r', a) = Some t → dstep g fail r' a t))
    (Scanner.visit4 g fail r) Scanner.alphabet (q, nm)) as ([queue nm'] & E & Hq & Hc' & Hs').
  - split; [|split; [|done]].
    + unfold children_over. simpl. by rewrite app_nil_r.
    + intros r' a [->|[Hr|[_ Ha]]]; [apply Hc; auto | apply Hc; auto |].
      by apply not_elem_of_nil in Ha.
  - intros A1 a A2 [queue nm1] EA (Hq & Hc1 & Hs1). simpl in Hq, Hc1, Hs1.
    unfold Scanner.visit4. rewrite children_over_app.
    assert (Hcov : ∀ t r' a', r' = 0 ∨ r' ∈ P ∨ r' = r ∧ a' ∈ A1 ++ [a] →
                     is_Some (<[(r, a) := t]> nm1 !! (r', a'))).
    { intros t r' a' Hr'. rewrite lookup_insert. case_decide; [eauto|].
      apply Hc1. destruct Hr' as [?|[?|[-> Ha']]]; auto.
      apply elem_of_app in Ha' as [Ha'|Ha']; auto.
      apply list_elem_of_singleton in Ha'. congruence. }
    destruct (g !! (r, a)) as [s|] eqn:G.
    + rewrite (children_over_one_Some _ _ _ G).
      eexists. split; [done|]. simpl. split; [by rewrite Hq, <- app_assoc|].
      split; [apply Hcov|].
      intros r' a' t. rewrite lookup_insert. case_decide as D; [|apply Hs1].
      intros [= <-]. inversion D; subst. by apply ds_goto.
    + rewrite (children_over_one_None _ _ G), app_nil_r.
      destruct (O P r (q ++ X)) as (f & F & Hf).
      { rewrite EL. by rewrite <- app_assoc. }
      destruct (Hc1 f a) as [t Ht].
      { destruct Hf; auto. }
      unfold getitem. rewrite F. cbn [mbind result_bind]. rewrite Ht. cbn [mbind result_bind].
      eexists. split; [done|]. simpl. split; [done|].
      split; [apply Hcov|].
      intros r' a' t'. rewrite lookup_insert. case_decide as D; [|apply Hs1].
      intros [= <-]. inversion D; subst. apply (ds_fail _ _ _ _ f); auto.
  - simpl in Hq, Hc', Hs'. subst queue. exists nm'. split; [done|]. split; [|done].
    intros r' a Hr'. apply Hc'. destruct Hr' as [?|Hr']; auto.
    apply elem_of_app in Hr' as [?|Hr']; auto.
    apply list_elem_of_singleton in Hr'. right. right. split; [done|]. apply alphabet_all.
Qed.

Lemma loop4_spec L : bfs_inv n L fail → L = (roots g) ++ (L ≫= children g) →
  ∀ fuel P q X nm,
    L = (P ++ q) ++ X → P ++ q = (roots g) ++ (P ≫= children g) → nm_inv g fail P nm →
    n < fuel + length P →
    ∃ L' X' nm', Scanner.loop4 g fail fuel (q, nm) = Ok nm'
      ∧ L = L' ++ X' ∧ L' = (roots g) ++ (L' ≫= children g) ∧ nm_inv g fail L' nm'.
Proof.
  intros (ND & B & O) HL.
  assert (HLn : length L ≤ n) by by apply NoDup_bounded_length.
  induction fuel as [|fuel IH]; intros P q X nm EL Hshape HI Hfuel.
  - destruct q as [|r q].
    + exists P, X, nm. rewrite app_nil_r in *. done.
    + rewrite EL, !length_app in HLn. simpl in HLn. lia.
  - destruct q as [|r q].
    + exists P, X, nm. rewrite app_nil_r in *. done.
    + destruct (visit4_fold L P r q X nm O EL HI) as (nm1 & E & HI1).
      cbn [Scanner.loop4]. rewrite E. cbn [mbind result_bind].
      destruct (bfs_prefix_step (children g) (roots g) L P r q X HL EL Hshape) as [X' EL'].
      apply (IH (P ++ [r]) _ X'); [done | by apply bfs_shape_step | done |].
      rewrite length_app. simpl. lia.
Qed.

End NextMove.

End Graph.

(** * The automaton built by [Scanner.build] *)

Lemma bfs_shape_init {A} (f : A → list A) (roots : list A) :
  [] ++ roots = roots ++ ([] ≫= f).
Proof. simpl. by rewrite app_nil_r. Qed.

(** [build] always constructs the four tables; only filling the
    16-bit array can fail. *)
Lemma build_tables (keywords : list (list ascii)) :
  ∃ g0 out0 g fail n nm out L,
    fold_left Scanner.enter keywords (∅, ∅, 0) = (g0, out0, n)
    ∧ g = Scanner.complete_root g0
    ∧ (∀ arr, built {| Scanner.goto := g; Scanner.fail := fail; Scanner.states := S n;
                     Scanner.nextmove := nm; Scanner.output := out;
                     Scanner.nm_arr := arr |} n L)
    ∧ Scanner.build keywords =
        (arr ← Scanner.compile_nm_arr nm;
         Ok {| Scanner.goto := g; Scanner.fail := fail; Scanner.states := S n;
               Scanner.nextmove := nm; Scanner.output := out; Scanner.nm_arr := arr |}).
Proof.
  unfold Scanner.build.
  destruct (fold_left Scanner.enter keywords (∅, ∅, 0)) as [[g0 out0] n] eqn:E2.
  pose proof (build_trie_spec _ _ _ _ _ _ _ trie_empty E2) as T.
  apply complete_root_spec in T.
  remember (Scanner.complete_root g0) as g eqn:Eg.
  destruct (init3_spec g n T) as (fail0 & E3 & HI0).
  rewrite E3, bind_Ok_l.
  destruct (loop3_spec g n T (S n) (Nat.le_succ_diag_r n) (S n) [] (roots g) fail0 out0)
    as (L & fail & out & El3 & HI & HL); [exact HI0 | apply bfs_shape_init | simpl; lia |].
  rewrite El3, bind_Ok_l.
  destruct (init4_spec g n T fail) as (nm0 & E4 & HN0).
  rewrite E4, bind_Ok_l.
  destruct (loop4_spec g n fail L HI HL (S n) [] (roots g) (L ≫= children g) nm0)
    as (L' & X' & nm & El4 & EL' & HL' & HN);
    [exact HL | apply bfs_shape_init | exact HN0 | simpl; lia |].
  rewrite El4, bind_Ok_l.
  exists g0, out0, g, fail, n, nm, (elements <$> out), L'.
  split; [reflexivity|]. split; [exact Eg|]. split; [|reflexivity].
  intros arr. constructor; [exact T | reflexivity | | exact HL' | exact HN].
  destruct HI as (ND & B & O). rewrite EL' in ND, B, O.
  split; [|split].
  - by apply NoDup_app in ND as (? & _ & _).
  - by apply Forall_app in B as [? _].
  - by apply ordered_prefix in O.
Qed.

Section Built.
Variables (sc : Scanner.scanner) (n : nat) (L : list nat).
Hypothesis B : built sc n L.

Lemma built_closed st a t :
  st = 0 ∨ st ∈ L → Scanner.goto sc !! (st, a) = Some t → t = 0 ∨ t ∈ L.
Proof.
  intros Hst G. destruct (decide (t = 0)) as [|Hne]; [by left|]. right.
  rewrite (b_shape _ _ _ B). apply elem_of_app. destruct Hst as [->|Hst].
  - left. apply elem_roots_over. split; [done|]. exists a. split; [apply alphabet_all|done].
  - right. apply list_elem_of_bind. exists st. split; [|done].
    apply elem_children_over. exists a. split; [apply alphabet_all|done].
Qed.

(** Breadth-first search reaches every state of the trie. *)
Lemma built_all_states s : 1 ≤ s ≤ n → s ∈ L.
Proof.
  induction s as [s IH] using lt_wf_ind. intros Hs.
  destruct (ct_parent _ _ (b_ctrie _ _ _ B) s Hs) as (r & a & G).
  destruct (ct_lt _ _ (b_ctrie _ _ _ B) _ _ _ G) as [Hr _]; [lia|].
  assert (Hr' : r = 0 ∨ r ∈ L).
  { destruct (decide (r = 0)); [by left|]. right. apply IH; lia. }
  destruct (built_closed _ _ _ Hr' G) as [->|]; [lia|done].
Qed.

Lemma built_length : length L ≤ n.
Proof. destruct (b_inv _ _ _ B) as (ND & Bd & _). by apply NoDup_bounded_length. Qed.

(** In every state the scan can be in, the compiled table holds the
    state the uncompiled matcher moves to. *)
Lemma built_step r a : r = 0 ∨ r ∈ L →
  ∃ t, Scanner.nextmove sc !! (r, a) = Some t
       ∧ Scanner.follow (Scanner.goto sc) (Scanner.fail sc) (Scanner.states sc) r a = Ok t
       ∧ (t = 0 ∨ t ∈ L).
Proof.
  intros Hr. destruct (b_nm _ _ _ B) as [Hc Hs].
  destruct (Hc r a Hr) as [t Ht]. exists t. split; [done|].
  destruct (b_inv _ _ _ B) as (ND & Bd & O).
  destruct (follow_prefix _ _ (b_ctrie _ _ _ B) L (Scanner.fail sc) a O (length L) L [] r
              (Scanner.states sc)) as (st' & t' & Hfo & G & Hst');
    [done | by rewrite app_nil_r | done | |].
  { rewrite (b_states _ _ _ B). pose proof built_length. lia. }
  assert (t = t') as <-.
  { eapply dstep_fun; [by apply Hs | by eapply follow_dstep]. }
  split; [done|]. by eapply built_closed.
Qed.

Lemma built_scan : ∀ string r, r = 0 ∨ r ∈ L →
  ∃ keys, Scanner.search_from sc r string = Ok keys
          ∧ Scanner.direct_from sc r string = Ok keys.
Proof.
  induction string as [|letter rest IH]; intros r Hr.
  - exists []. done.
  - destruct (built_step r letter Hr) as (t & Hn & Hf & Ht).
    destruct (IH t Ht) as (keys & Hs & Hd).
    exists (default [] (Scanner.output sc !! t) ++ keys).
    cbn [Scanner.search_from Scanner.direct_from].
    unfold getitem. rewrite Hn, Hf. cbn [mbind result_bind].
    rewrite Hs, Hd. done.
Qed.

(** *** The compiled array *)

Lemma values_spec (m : gmap (nat * ascii) nat) (v : nat) :
  v ∈ map_fold (fun _ v acc => {[v]} ∪ acc) (∅ : gset nat) m ↔ ∃ k, m !! k = Some v.
Proof.
  revert v.
  apply (map_fold_weak_ind (fun (r : gset nat) (m : gmap (nat * ascii) nat) =>
           ∀ v, v ∈ r ↔ ∃ k, m !! k = Some v)).
  - intros v. split; [by intros ?%not_elem_of_empty|]. intros [k Hk].
    by rewrite lookup_empty in Hk.
  - intros i x m' r Hi IH v. rewrite elem_of_union, elem_of_singleton, IH. split.
    + intros [->|[k Hk]].
      * exists i. by rewrite lookup_insert_eq.
      * exists k. rewrite lookup_insert_ne; [done|]. congruence.
    + intros [k Hk]. rewrite lookup_insert in Hk. case_decide.
      * left. congruence.
      * right. eauto.
Qed.

Lemma built_row state a : state ≤ n →
  ∃ t, Scanner.nextmove sc !! (state, a) = Some t ∧ t ≤ n.
Proof.
  intros Hs.
  assert (Hr : state = 0 ∨ state ∈ L).
  { destruct (decide (state = 0)); [by left|]. right. apply built_all_states. lia. }
  destruct (built_step state a Hr) as (t & Ht & _ & Ht'). exists t. split; [done|].
  destruct Ht' as [->|Ht']; [lia|].
  destruct (b_inv _ _ _ B) as (_ & Bd & _). rewrite Forall_forall in Bd.
  apply Bd in Ht'. lia.
Qed.

Lemma built_value k v : Scanner.nextmove sc !! k = Some v → v ≤ n.
Proof.
  destruct k as [r a]. intros Hk. destruct (b_nm _ _ _ B) as [_ Hs].
  apply Hs in Hk. by apply (dstep_target _ _ (b_ctrie _ _ _ B)) in Hk.
Qed.

Lemma built_is_value s : 1 ≤ s ≤ n → ∃ k, Scanner.nextmove sc !! k = Some s.
Proof.
  intros Hs. destruct (ct_parent _ _ (b_ctrie _ _ _ B) s Hs) as (r & a & G).
  destruct (ct_lt _ _ (b_ctrie _ _ _ B) _ _ _ G) as [Hr _]; [lia|].
  destruct (b_nm _ _ _ B) as [Hc Hsd].
  destruct (built_row r a) as (t & Ht & _); [lia|].
  exists (r, a). rewrite Ht. f_equal.
  eapply dstep_fun; [by apply Hsd | by apply ds_goto].
Qed.

(** The number of distinct next-move values is the number of states,
    or one less when no transition leads to the root. *)
Lemma built_state_count :
  n ≤ Scanner.state_count (Scanner.nextmove sc) ≤ S n.
Proof.
  unfold Scanner.state_count. split.
  - transitivity (size (list_to_set (seq 1 n) : gset nat)).
    + rewrite size_list_to_set by apply NoDup_seq. by rewrite length_seq.
    + apply subseteq_size. intros s Hs. apply elem_of_list_to_set, elem_of_seq in Hs.
      apply values_spec, built_is_value. lia.
  - transitivity (size (list_to_set (seq 0 (S n)) : gset nat)).
    + apply subseteq_size. intros v Hv. apply values_spec in Hv as [k Hk].
      apply built_value in Hk. apply elem_of_list_to_set, elem_of_seq. lia.
    + rewrite size_list_to_set by apply NoDup_seq. by rewrite length_seq.
Qed.

Lemma built_nm_item state a : state ≤ n →
  (∃ t, Scanner.nm_item (Scanner.nextmove sc) state a = Ok t)
  ∨ Scanner.nm_item (Scanner.nextmove sc) state a = Raise OverflowError.
Proof.
  intros Hs. destruct (built_row state a Hs) as (t & Ht & _).
  unfold Scanner.nm_item, getitem. rewrite Ht. cbn [mbind result_bind].
  destruct (N.of_nat t <=? 65535)%N; eauto.
Qed.

Lemma built_compile :
  (∃ arr, Scanner.compile_nm_arr (Scanner.nextmove sc) = Ok arr)
  ∨ Scanner.compile_nm_arr (Scanner.nextmove sc) = Raise OverflowError.
Proof.
  unfold Scanner.compile_nm_arr.
  destruct (mapR_cases
    (fun state => mapR (Scanner.nm_item (Scanner.nextmove sc) state) Scanner.alphabet)
    OverflowError (seq 0 (Scanner.state_count (Scanner.nextmove sc)))) as [[rows ->]| ->].
  - intros state Hs. apply elem_of_seq in Hs. apply mapR_cases.
    intros a _. apply built_nm_item. pose proof built_state_count. lia.
  - left. eauto.
  - by right.
Qed.

End Built.

(** [Scanner.build] produces a scanner unless the array overflows. *)
Lemma build_total (keywords : list (list ascii)) :
  (∃ sc n L, Scanner.build keywords = Ok sc ∧ built sc n L)
  ∨ Scanner.build keywords = Raise OverflowError.
Proof.
  destruct (build_tables keywords) as (g0 & out0 & g & fail & n & nm & out & L & _ & _ & HB & ->).
  destruct (built_compile _ n L (HB [])) as [[arr E]|E]; simpl in E; rewrite E.
  - left. eexists _, n, L. split; [reflexivity|]. apply HB.
  - by right.
Qed.

Local Transparent Scanner.alphabet.

(** * The compiled array *)

Lemma mapR_Ok_inv {A B} (f : A → result B) (l : list A) (ys : list B) :
  mapR f l = Ok ys → Forall2 (fun x y => f x = Ok y) l ys.
Proof.
  revert ys. induction l as [|x l IH]; intros ys E; simpl in E.
  - inversion E. constructor.
  - apply bind_Ok in E as (y & Hy & E). apply bind_Ok in E as (ys' & Hys & E).
    inversion E; subst. constructor; auto.
Qed.

Lemma alphabet_length : length Scanner.alphabet = 256.
Proof. reflexivity. Qed.

Lemma alphabet_lookup (a : ascii) : Scanner.alphabet !! nat_of_ascii a = Some a.
Proof.
  pose proof (nat_ascii_bounded a) as Hb.
  assert (G : ∀ i, i < 256 →
            (map ascii_of_nat (seq 0 256)) !! i = Some (ascii_of_nat i)).
  { intros i Hi. change (map ascii_of_nat) with (fmap (M:=list) ascii_of_nat).
    rewrite list_lookup_fmap, lookup_seq_lt by done. done. }
  rewrite <- (ascii_nat_embedding a) at 2. by apply G.
Qed.

Lemma concat_lookup_uniform {A} (k : nat) (rows : list (list A)) :
  Forall (fun r => length r = k) rows →
  ∀ i row j, rows !! i = Some row → j < k → concat rows !! (i * k + j) = row !! j.
Proof.
  induction 1 as [|r rows Hr HF IH]; intros i row j Hi Hj; [done|].
  destruct i as [|i]; simpl in *.
  - inversion Hi; subst. rewrite lookup_app_l by lia. done.
  - rewrite lookup_app_r by lia. rewrite <- (IH i row j Hi Hj). f_equal. lia.
Qed.

Lemma concat_length_uniform {A} (k : nat) (rows : list (list A)) :
  Forall (fun r => length r = k) rows → length (concat rows) = length rows * k.
Proof.
  induction 1 as [|r rows Hr HF IH]; simpl; [done|]. rewrite length_app, IH. lia.
Qed.

Lemma nm_item_Ok nm state a v :
  Scanner.nm_item nm state a = Ok v → nm !! (state, a) = Some v ∧ (N.of_nat v ≤ 65535)%N.
Proof.
  unfold Scanner.nm_item, getitem. destruct (nm !! (state, a)) as [t|]; [|done].
  rewrite bind_Ok_l. destruct (N.leb_spec (N.of_nat t) 65535); [|done].
  intros [= ->]. done.
Qed.

(** A compiled array has one row of 256 entries for each state below
    the state count, holding the next-move entries of that state. *)
Lemma compile_rows nm arr :
  Scanner.compile_nm_arr nm = Ok arr →
  length arr = Scanner.state_count nm * 256
  ∧ ∀ state a, state < Scanner.state_count nm →
      ∃ v, arr !! (state * 256 + nat_of_ascii a) = Some v ∧ nm !! (state, a) = Some v
           ∧ (N.of_nat v ≤ 65535)%N.
Proof.
  unfold Scanner.compile_nm_arr. intros E.
  apply bind_Ok in E as (rows & Hrows & E). inversion E; subst arr. clear E.
  apply mapR_Ok_inv in Hrows.
  assert (Hlen : Forall (fun r : list nat => length r = 256) rows).
  { apply Forall_forall. intros row Hrow.
    apply list_elem_of_lookup in Hrow as [i Hi].
    destruct (Forall2_lookup_r _ _ _ _ _ Hrows Hi) as (state & _ & Hr).
    apply mapR_Ok_inv, Forall2_length in Hr. by rewrite <- Hr. }
  split.
  - rewrite (concat_length_uniform 256) by done.
    by rewrite <- (Forall2_length _ _ _ Hrows), length_seq.
  - intros state a Hs.
    destruct (Forall2_lookup_l _ _ _ state state Hrows) as (row & Hrow & Hr).
    { by apply lookup_seq_lt. }
    apply mapR_Ok_inv in Hr.
    destruct (Forall2_lookup_l _ _ _ _ _ Hr (alphabet_lookup a)) as (v & Hv & Hitem).
    apply nm_item_Ok in Hitem as [Hnm Hb].
    exists v. split; [|done].
    rewrite (concat_lookup_uniform 256 rows Hlen state row); [done..|].
    apply nat_ascii_bounded.
Qed.

Section BuiltArray.
Variables (sc : Scanner.scanner) (n : nat) (L : list nat).
Hypothesis B : built sc n L.

(** The array is built exactly when the last state fits 16 bits. *)
Lemma built_compile_fits : (N.of_nat n ≤ 65535)%N →
  ∃ arr, Scanner.compile_nm_arr (Scanner.nextmove sc) = Ok arr.
Proof.
  intros Hn. unfold Scanner.compile_nm_arr.
  destruct (mapR_Ok
    (fun state => mapR (Scanner.nm_item (Scanner.nextmove sc) state) Scanner.alphabet)
    (seq 0 (Scanner.state_count (Scanner.nextmove sc)))) as (rows & -> & _).
  - intros state Hs. apply elem_of_seq in Hs.
    destruct (mapR_Ok (Scanner.nm_item (Scanner.nextmove sc) state) Scanner.alphabet)
      as (row & -> & _); [|by eauto].
    intros a _. pose proof (built_state_count sc n L B) as Hc.
    destruct (built_row sc n L B state a) as (t & Ht & Htn); [lia|].
    unfold Scanner.nm_item, getitem. rewrite Ht, bind_Ok_l.
    destruct (N.leb_spec (N.of_nat t) 65535); [eauto|lia].
  - rewrite bind_Ok_l. eauto.
Qed.

Lemma built_compile_overflow : (65535 < N.of_nat n)%N →
  Scanner.compile_nm_arr (Scanner.nextmove sc) = Raise OverflowError.
Proof.
  intros Hn. unfold Scanner.compile_nm_arr.
  pose proof (built_state_count sc n L B) as Hc.
  destruct (ct_parent _ _ (b_ctrie _ _ _ B) n) as (r & a & G); [lia|].
  destruct (ct_lt _ _ (b_ctrie _ _ _ B) _ _ _ G) as [Hr _]; [lia|].
  rewrite (mapR_Raise _ OverflowError); [done| |].
  - intros state Hs. apply elem_of_seq in Hs. apply mapR_cases.
    intros a' _. apply (built_nm_item sc n L B). lia.
  - exists r. split; [apply elem_of_seq; lia|].
    apply mapR_Raise.
    + intros a' _. apply (built_nm_item sc n L B). lia.
    + exists a. split; [apply alphabet_all|].
      destruct (built_row sc n L B r a) as (t & Ht & _); [lia|].
      assert (t = n) as ->.
      { destruct (b_nm _ _ _ B) as [_ Hs]. eapply dstep_fun; [by apply Hs|by apply ds_goto]. }
      unfold Scanner.nm_item, getitem. rewrite Ht, bind_Ok_l.
      destruct (N.leb_spec (N.of_nat n) 65535); [lia|done].
Qed.

(** When some letter leaves the root in place, the root is a
    next-move value and the state count is the number of states. *)
Lemma built_count_full a0 :
  Scanner.goto sc !! (0, a0) = Some 0 → Scanner.state_count (Scanner.nextmove sc) = S n.
Proof.
  intros G. pose proof (built_state_count sc n L B) as [_ Hu].
  apply Nat.le_antisymm; [done|].
  unfold Scanner.state_count.
  transitivity (size (list_to_set (seq 0 (S n)) : gset nat)).
  { rewrite size_list_to_set by apply NoDup_seq. by rewrite length_seq. }
  apply subseteq_size. intros s Hs. apply elem_of_list_to_set, elem_of_seq in Hs.
  apply values_spec. destruct (decide (s = 0)) as [->|Hne].
  - destruct (built_row sc n L B 0 a0) as (t & Ht & _); [lia|].
    exists (0, a0). rewrite Ht. f_equal.
    destruct (b_nm _ _ _ B) as [_ Hsd]. eapply dstep_fun; [by apply Hsd|by apply ds_goto].
  - apply (built_is_value sc n L B). lia.
Qed.

(** When every letter leaves the root, no transition returns to it
    and the state count is one less than the number of states. *)
Lemma built_count_short :
  (∀ a, Scanner.goto sc !! (0, a) ≠ Some 0) →
  Scanner.state_count (Scanner.nextmove sc) = n.
Proof.
  intros Hroot. pose proof (built_state_count sc n L B) as [Hl _].
  apply Nat.le_antisymm; [|done].
  unfold Scanner.state_count.
  transitivity (size (list_to_set (seq 1 n) : gset nat)).
  2:{ rewrite size_list_to_set by apply NoDup_seq. by rewrite length_seq. }
  apply subseteq_size. intros v Hv. apply values_spec in Hv as [[r a] Hk].
  pose proof (built_value sc n L B _ _ Hk) as Hvn.
  apply elem_of_list_to_set, elem_of_seq.
  destruct (b_nm _ _ _ B) as [_ Hs]. apply Hs in Hk.
  assert (v ≠ 0); [|lia].
  clear Hvn. induction Hk as [r a t G|r a f t G F D IH]; [|done].
  intros ->. pose proof (ct_zero _ _ (b_ctrie _ _ _ B) _ _ G) as ->. by apply (Hroot a).
Qed.

(** With a full state count the scan over the array never leaves the
    array. *)
Lemma built_trace_total arr :
  Scanner.compile_nm_arr (Scanner.nextmove sc) = Ok arr →
  Scanner.state_count (Scanner.nextmove sc) = S n →
  ∀ text state, state ≤ n →
    ∃ tr, Scanner.trace_from arr state text = Ok tr ∧ Forall (fun s => s ≤ n) tr.
Proof.
  intros Harr Hcnt. destruct (compile_rows _ _ Harr) as [_ Hrow].
  induction text as [|letter rest IH]; intros state Hs.
  - exists []. split; [done|constructor].
  - destruct (Hrow state letter) as (v & Hv & Hnm & _); [lia|].
    pose proof (built_value sc n L B _ _ Hnm) as Hvn.
    destruct (IH v Hvn) as (tr & Htr & HF).
    exists (v :: tr). cbn [Scanner.trace_from]. rewrite Hv, Htr. split; [done|].
    by constructor.
Qed.

End BuiltArray.

(** [Scanner.build] fails exactly when there are more than 65536
    states, and then with OverflowError. *)
Lemma build_overflow_iff (keywords : list (list ascii)) :
  let n := snd (fold_left Scanner.enter keywords (∅, ∅, 0)) in
  ((N.of_nat n ≤ 65535)%N → ∃ sc L, Scanner.build keywords = Ok sc ∧ built sc n L)
  ∧ ((65535 < N.of_nat n)%N → Scanner.build keywords = Raise OverflowError).
Proof.
  destruct (build_tables keywords)
    as (g0 & out0 & g & fail & n & nm & out & L & E & _ & HB & ->).
  rewrite E. cbn [snd]. split; intros Hn.
  - destruct (built_compile_fits _ n L (HB []) Hn) as [arr Harr]. cbn in Harr.
    rewrite Harr, bind_Ok_l. eexists _, L. split; [done|]. apply HB.
  - pose proof (built_compile_overflow _ n L (HB []) Hn) as Harr. cbn in Harr.
    by rewrite Harr.
Qed.

(** * A keyword list that uses every byte as a first letter *)

Lemma all_bytes_trie :
  snd (fold_left Scanner.enter all_bytes (∅, ∅, 0)) = 256
  ∧ forallb (fun a =>
       match Scanner.complete_root (fst (fst (fold_left Scanner.enter all_bytes (∅, ∅, 0))))
               !! (0, a) with
       | Some (S _) => true
       | _ => false
       end) Scanner.alphabet = true
  ∧ Scanner.complete_root (fst (fst (fold_left Scanner.enter all_bytes (∅, ∅, 0))))
      !! (0, ascii_of_nat 255) = Some 256.
Proof. vm_compute. repeat split. Qed.

(** C3, at the input where it fails.  With the 256 one-byte strings
    as keywords the automaton has the 257 states 0 to 256, no
    transition leads back to the root, and [build] sizes the array by
    the number of distinct next-move values: it gets 256 rows.  The
    entry for byte 255 in the root row is state 256, which has no
    row, and the scan of [state_trace] over the two bytes 255, 0
    indexes past the end of the array. *)
Theorem all_bytes_array_lacks_last_row :
  ∃ sc, Scanner.build all_bytes = Ok sc
    ∧ length (Scanner.nm_arr sc) = 256 * 256
    ∧ Scanner.nm_arr sc !! 255 = Some 256
    ∧ Scanner.nm_arr sc !! (256 * 256 + 0) = None
    ∧ Scanner.trace_from (Scanner.nm_arr sc) 0 [ascii_of_nat 255; ascii_of_nat 0]
      = Raise IndexError.
Proof.
  destruct all_bytes_trie as (En & Eroots & Elast).
  destruct (build_tables all_bytes)
    as (g0 & out0 & g & fail & n & nm & out & L & E & Eg & HB & Hbuild).
  rewrite E in En, Eroots, Elast. cbn [fst snd] in En, Eroots, Elast.
  rewrite <- Eg in Eroots, Elast. subst n.
  rewrite Hbuild. clear Hbuild E.
  destruct (built_compile_fits _ 256 L (HB [])) as [arr Harr]; [done|].
  cbn [Scanner.nextmove] in Harr. rewrite Harr, bind_Ok_l.
  eexists. split; [reflexivity|]. cbn [Scanner.nm_arr].
  assert (Hcnt : Scanner.state_count nm = 256).
  { apply (built_count_short _ 256 L (HB [])). cbn [Scanner.goto]. intros a Ha.
    rewrite forallb_forall in Eroots. specialize (Eroots a).
    rewrite Ha in Eroots. discriminate Eroots.
    apply list_elem_of_In, alphabet_all. }
  destruct (compile_rows _ _ Harr) as [Hlen Hrow]. rewrite Hcnt in Hlen, Hrow.
  destruct (Hrow 0 (ascii_of_nat 255)) as (v & Hv & Hnm & _); [lia|].
  assert (v = 256) as ->.
  { destruct (b_nm _ _ _ (HB [])) as [_ Hs]. cbn in Hs.
    eapply dstep_fun; [by apply Hs | by apply ds_goto]. }
  change (0 * 256 + nat_of_ascii (ascii_of_nat 255)) with 255 in Hv.
  assert (Hnone : arr !! (256 * 256 + 0) = None).
  { apply lookup_ge_None. lia. }
  repeat split; try done.
  cbn [Scanner.trace_from].
  change (0 * 256 + nat_of_ascii (ascii_of_nat 255)) with 255. rewrite Hv.
  change (nat_of_ascii (ascii_of_nat 0)) with 0. rewrite Hnone. done.
Qed.

(** ** The same keyword list, scanned three ways *)

Lemma follow_goto goto fail fuel state a t :
  goto !! (state, a) = Some t → Scanner.follow goto fail fuel state a = Ok t.
Proof. intros E. destruct fuel; simpl; by rewrite E. Qed.

Lemma follow_fail goto fail fuel state a f :
  goto !! (state, a) = None → fail !! state = Some f →
  Scanner.follow goto fail (S fuel) state a = Scanner.follow goto fail fuel f a.
Proof. intros E Ef. cbn [Scanner.follow]. unfold getitem. by rewrite E, Ef. Qed.

(** The stages of a successful [build]. *)
Lemma build_parts (keywords : list (list ascii)) (sc : Scanner.scanner) :
  Scanner.build keywords = Ok sc →
  ∃ g0 out0 n queue fail0 out,
    fold_left Scanner.enter keywords (∅, ∅, 0) = (g0, out0, n)
    ∧ Scanner.init3 (Scanner.complete_root g0) = Ok (queue, fail0)
    ∧ Scanner.loop3 (Scanner.complete_root g0) (S n) (S n) (queue, fail0, out0)
      = Ok (Scanner.fail sc, out)
    ∧ Scanner.goto sc = Scanner.complete_root g0
    ∧ Scanner.states sc = S n
    ∧ Scanner.output sc = elements <$> out.
Proof.
  unfold Scanner.build.
  destruct (fold_left Scanner.enter keywords (∅, ∅, 0)) as [[g0 out0] n].
  intros E. apply bind_Ok in E as ([queue fail0] & E3 & E).
  apply bind_Ok in E as ([fail out] & El3 & E).
  apply bind_Ok in E as ([queue4 nextmove0] & _ & E).
  apply bind_Ok in E as (nextmove & _ & E).
  apply bind_Ok in E as (nm & _ & E). injection E as <-.
  by exists g0, out0, n, queue, fail0, out.
Qed.

(** The goto, failure and output tables for the 256 one-byte
    keywords, at the entries the scan of the bytes 255, 0 reads. *)
Lemma all_bytes_tables :
  (let '(g0, out0, n) := fold_left Scanner.enter all_bytes (∅, ∅, 0) in
   match Scanner.init3 (Scanner.complete_root g0) with
   | Raise _ => false
   | Ok (queue, fail0) =>
       match Scanner.loop3 (Scanner.complete_root g0) (S n) (S n) (queue, fail0, out0) with
       | Raise _ => false
       | Ok (fail, out) =>
           bool_decide (Scanner.complete_root g0 !! (0, ascii_of_nat 255) = Some 256)
           && bool_decide (Scanner.complete_root g0 !! (256, ascii_of_nat 0) = None)
           && bool_decide (fail !! 256 = Some 0)
           && bool_decide (Scanner.complete_root g0 !! (0, ascii_of_nat 0) = Some 1)
           && bool_decide ((elements <$> out) !! 256 = Some [[ascii_of_nat 255]])
           && bool_decide ((elements <$> out) !! 1 = Some [[ascii_of_nat 0]])
       end
   end) = true.
Proof. vm_compute. reflexivity. Qed.

(** The scanner for the 256 one-byte keywords: its array has 256
    rows, the root row sends byte 255 to state 256. *)
Lemma all_bytes_scanner :
  ∃ sc L, Scanner.build all_bytes = Ok sc
    ∧ built sc 256 L
    ∧ Scanner.nm_arr sc !! 255 = Some 256
    ∧ Scanner.nm_arr sc !! (256 * 256 + 0) = None.
Proof.
  destruct all_bytes_trie as (En & Eroots & Elast).
  destruct (build_tables all_bytes)
    as (g0 & out0 & g & fail & n & nm & out & L & E & Eg & HB & Hbuild).
  rewrite E in En, Eroots, Elast. cbn [fst snd] in En, Eroots, Elast.
  rewrite <- Eg in Eroots, Elast. subst n.
  rewrite Hbuild. clear Hbuild E.
  destruct (built_compile_fits _ 256 L (HB [])) as [arr Harr]; [done|].
  cbn [Scanner.nextmove] in Harr. rewrite Harr, bind_Ok_l.
  eexists _, L. split; [reflexivity|]. split; [apply HB|]. cbn [Scanner.nm_arr].
  assert (Hcnt : Scanner.state_count nm = 256).
  { apply (built_count_short _ 256 L (HB [])). cbn [Scanner.goto]. intros a Ha.
    rewrite forallb_forall in Eroots. specialize (Eroots a).
    rewrite Ha in Eroots. discriminate Eroots.
    apply list_elem_of_In, alphabet_all. }
  destruct (compile_rows _ _ Harr) as [Hlen Hrow]. rewrite Hcnt in Hlen, Hrow.
  destruct (Hrow 0 (ascii_of_nat 255)) as (v & Hv & Hnm & _); [lia|].
  assert (v = 256) as ->.
  { destruct (b_nm _ _ _ (HB [])) as [_ Hs]. cbn in Hs.
    eapply dstep_fun; [by apply Hs | by apply ds_goto]. }
  change (0 * 256 + nat_of_ascii (ascii_of_nat 255)) with 255 in Hv.
  split; [done|]. apply lookup_ge_None. lia.
Qed.

(** C1, at the input where it fails.  With the 256 one-byte strings
    as keywords and the input bytes 255, 0, the matcher on the goto
    and failure tables reports the keyword of byte 255 at position 1
    and that of byte 0 at position 2, and so does [search] over the
    [nextmove] dictionary; the scan over the compiled array [nm_arr],
    the one [state_trace] runs, raises IndexError at the second byte:
    the array lacks the row of state 256. *)
Theorem array_scan_fails_where_direct_simulation_matches :
  ∃ sc, Scanner.build all_bytes = Ok sc
    ∧ Scanner.direct_search sc [ascii_of_nat 255; ascii_of_nat 0]
      = Ok [[ascii_of_nat 255]; [ascii_of_nat 0]]
    ∧ Scanner.search sc [ascii_of_nat 255; ascii_of_nat 0]
      = Ok [[ascii_of_nat 255]; [ascii_of_nat 0]]
    ∧ Scanner.trace_from (Scanner.nm_arr sc) 0 [ascii_of_nat 255; ascii_of_nat 0]
      = Raise IndexError
    ∧ Train.state_trace (Scanner.nm_arr sc) [ascii_of_nat 255; ascii_of_nat 0]
      = Raise IndexError.
Proof.
  destruct all_bytes_scanner as (sc & L & E & HB & Hv & Hnone).
  exists sc. split; [exact E|].
  destruct (build_parts _ _ E) as (g0 & out0 & n & queue & fail0 & out
                                   & E2 & E3 & El3 & Hg & Hn & Hout).
  pose proof all_bytes_tables as T. rewrite E2, E3, El3 in T.
  rewrite <- Hg, <- Hout in T.
  repeat (apply andb_prop in T as [T ?]).
  repeat match goal with H : bool_decide _ = true |- _ => apply bool_decide_eq_true_1 in H end.
  assert (Hd : Scanner.direct_search sc [ascii_of_nat 255; ascii_of_nat 0]
               = Ok [[ascii_of_nat 255]; [ascii_of_nat 0]]).
  { unfold Scanner.direct_search. cbn [Scanner.direct_from].
    rewrite (b_states _ _ _ HB).
    rewrite (follow_goto _ _ _ _ _ _ T), bind_Ok_l.
    rewrite (follow_fail _ _ _ _ _ _ H3 H2), (follow_goto _ _ _ _ _ _ H1), !bind_Ok_l.
    rewrite H0, H. reflexivity. }
  split; [exact Hd|]. split.
  - destruct (built_scan sc 256 L HB [ascii_of_nat 255; ascii_of_nat 0] 0) as (keys & Hs & Hd');
      [by left|].
    unfold Scanner.search, Scanner.direct_search in *. congruence.
  - unfold Train.state_trace.
    cbn [Scanner.trace_from Train.state_trace_from].
    change (0 * 256 + nat_of_ascii (ascii_of_nat 255)) with 255. rewrite Hv.
    change (256 * 256 + nat_of_ascii (ascii_of_nat 0)) with (256 * 256 + 0).
    rewrite Hnone. split; reflexivity.
Qed.

(** * The tokenizer *)

Section TokenizerFacts.
Context {A : Type}.
Implicit Types (sq tok : list A).

Lemma advance_spec k sq :
  Tokenizer.advance k sq = if decide (k ≤ length sq) then Some (skipn k sq) else None.
Proof.
  revert sq. induction k as [|k IH]; intros sq; simpl.
  - done.
  - destruct sq as [|x sq]; simpl.
    + repeat case_decide; try done; exfalso; lia.
    + rewrite IH. simpl. repeat case_decide; try done; exfalso; lia.
Qed.

Lemma advance_all_spec sq : ∀ m k,
  Tokenizer.advance_all k (repeat sq m) =
  if decide (m = 0 ∨ k + m ≤ S (length sq)) then Some (windows sq k m) else None.
Proof.
  induction m as [|m IH]; intros k; cbn [repeat Tokenizer.advance_all].
  - case_decide as D; [done|]. exfalso. apply D. by left.
  - rewrite advance_spec, IH. clear IH. unfold windows. cbn [seq map].
    repeat case_decide; try done; exfalso; lia.
Qed.

Lemma skipn_cons_nth sq a :
  a < length sq → ∃ x, skipn a sq = x :: skipn (S a) sq.
Proof.
  revert a. induction sq as [|y sq IH]; intros a Ha; simpl in Ha; [lia|].
  destruct a as [|a]; [by exists y|].
  destruct (IH a) as [x Hx]; [lia|]. exists x. simpl. done.
Qed.

Lemma pull_windows sq : ∀ k a,
  fst (Tokenizer.pull (windows sq a k)) = firstn k (skipn a sq)
  ∧ (a + k ≤ length sq → snd (Tokenizer.pull (windows sq a k)) = windows sq (S a) k).
Proof.
  unfold windows. induction k as [|k IH]; intros a; simpl.
  - done.
  - destruct (le_lt_dec (length sq) a) as [Hge|Hlt].
    + rewrite skipn_all2 by done. simpl. split; [done|]. lia.
    + destruct (skipn_cons_nth sq a Hlt) as [x ->]. simpl.
      destruct (IH (S a)) as [H1 H2].
      destruct (Tokenizer.pull (map (fun i => skipn i sq) (seq (S a) k))) as [tk r].
      simpl in *. rewrite H1. split; [done|]. intros Hk. rewrite H2 by lia. done.
Qed.

Lemma firstn_firstn_le tok n m : n ≤ m → firstn n (firstn m tok) = firstn n tok.
Proof. intros H. rewrite firstn_firstn. f_equal. lia. Qed.

Lemma elem_prefixes m tok t :
  t ∈ Tokenizer.prefixes m tok ↔ ∃ n, 1 ≤ n ≤ m ∧ t = firstn n tok.
Proof.
  unfold Tokenizer.prefixes, Tokenizer.slice. rewrite list_elem_of_fmap. split.
  - intros (n & -> & Hn). apply elem_of_seq in Hn. exists (n + 1). split; [lia|].
    simpl. f_equal. lia.
  - intros (n & Hn & ->). exists (n - 1). split.
    + simpl. f_equal. lia.
    + apply elem_of_seq. lia.
Qed.

Lemma elem_tail_tokens m tok t :
  t ∈ Tokenizer.tail_tokens m tok ↔
  ∃ a b, a + 1 < m ∧ 1 ≤ b ∧ a + b < m ∧ t = firstn b (skipn a tok).
Proof.
  unfold Tokenizer.tail_tokens, Tokenizer.slice.
  rewrite list_elem_of_In, in_flat_map. split.
  - intros (a & Ha & Ht). apply in_seq in Ha. apply in_map_iff in Ht as (b & <- & Hb).
    apply in_seq in Hb. exists a, b. repeat split; try lia. f_equal. lia.
  - intros (a & b & Ha & Hb & Hab & ->). exists a. split; [apply in_seq; lia|].
    apply in_map_iff. exists b. split; [f_equal; lia|]. apply in_seq. lia.
Qed.

Lemma main_loop_spec m sq : 1 ≤ m → ∀ fuel j,
  j + m ≤ S (length sq) → length sq - j < fuel →
  ∃ r, Tokenizer.main_loop fuel m (windows sq j m) = Some r
       ∧ ∀ t, t ∈ r ↔ ∃ i n, j ≤ i ∧ 1 ≤ n ∧ n ≤ m ∧ i + n ≤ length sq
                              ∧ t = firstn n (skipn i sq).
Proof.
  intros Hm. induction fuel as [|fuel IH]; intros j Hj Hf; [lia|].
  simpl. destruct (pull_windows sq m j) as [H1 H2].
  destruct (Tokenizer.pull (windows sq j m)) as [token ts'] eqn:E. simpl in H1, H2.
  assert (Hlen : length token = Nat.min m (length sq - j)).
  { rewrite H1, length_firstn, length_skipn. done. }
  destruct (length token <? m) eqn:Hlt.
  - apply Nat.ltb_lt in Hlt. eexists. split; [done|]. intros t.
    rewrite elem_tail_tokens. subst token.
    rewrite firstn_all2 by (rewrite length_skipn; lia).
    split.
    + intros (a & b & Ha & Hb & Hab & ->). exists (j + a), b.
      rewrite skipn_skipn. repeat split; try lia. f_equal. f_equal. lia.
    + intros (i & n & Hi & Hn & Hnm & Hin & ->). exists (i - j), n.
      rewrite skipn_skipn. repeat split; try lia. f_equal. f_equal. lia.
  - apply Nat.ltb_ge in Hlt.
    destruct (IH (S j)) as (r & Hr & Hspec); [lia|lia|].
    rewrite H2 by lia. rewrite Hr. eexists. split; [done|]. intros t.
    rewrite elem_of_app, elem_prefixes, Hspec. subst token. split.
    + intros [(n & Hn & ->)|(i & n & Hi & Hn & Hnm & Hin & ->)].
      * exists j, n. rewrite firstn_firstn_le by lia. repeat split; lia.
      * exists i, n. repeat split; lia.
    + intros (i & n & Hi & Hn & Hnm & Hin & ->).
      destruct (decide (i = j)) as [->|Hne].
      * left. exists n. rewrite firstn_firstn_le by lia. split; [lia|done].
      * right. exists i, n. repeat split; lia.
Qed.

(** On an input of at least [max_order - 1] elements the tokens are
    exactly the n-grams of orders 1 to [max_order]. *)
Lemma tokenizer_long_input max_order sq :
  1 ≤ max_order → max_order ≤ S (length sq) →
  ∃ tokens, Tokenizer.call max_order sq = Ok tokens
    ∧ ∀ tok, tok ∈ tokens ↔ Tokenizer.is_ngram max_order sq tok.
Proof.
  intros Hm Hlen. unfold Tokenizer.call, Tokenizer.call_fuel.
  rewrite advance_all_spec, decide_True by lia.
  destruct (main_loop_spec max_order sq Hm (S (length sq)) 0) as (r & -> & Hspec); [lia|lia|].
  exists r. split; [done|]. intros tok. rewrite Hspec. unfold Tokenizer.is_ngram. split.
  - intros (i & n & _ & ?). exists i, n. done.
  - intros (i & n & ?). exists i, n. split; [lia|done].
Qed.

(** On a shorter input advancing the last copy raises StopIteration
    and no token is produced. *)
Lemma tokenizer_short_input max_order sq :
  S (length sq) < max_order → Tokenizer.call max_order sq = Ok [].
Proof.
  intros Hlen. unfold Tokenizer.call, Tokenizer.call_fuel.
  rewrite advance_all_spec, decide_False by lia. done.
Qed.

(** For [max_order >= 1] the fuel is enough: the tokenizer finishes. *)
Lemma call_yielded max_order sq :
  1 ≤ max_order → Tokenizer.call max_order sq = Ok (yielded max_order sq).
Proof.
  intros Hm. unfold yielded.
  destruct (le_lt_dec max_order (S (length sq))) as [Hle|Hlt].
  - destruct (tokenizer_long_input max_order sq Hm Hle) as (tokens & -> & _). done.
  - by rewrite tokenizer_short_input.
Qed.

(** With [max_order = 0] no amount of fuel ends the loop. *)
Lemma main_loop_order_zero fuel : Tokenizer.main_loop (A := A) fuel 0 [] = None.
Proof. induction fuel as [|fuel IH]; simpl; [done|]. by rewrite IH. Qed.

Lemma elem_ngrams max_order sq tok :
  tok ∈ Tokenizer.ngrams max_order sq ↔ Tokenizer.is_ngram max_order sq tok.
Proof.
  unfold Tokenizer.ngrams, Tokenizer.is_ngram.
  rewrite list_elem_of_In, in_flat_map. split.
  - intros (i & Hi & Ht). apply in_seq in Hi. apply in_map_iff in Ht as (n & <- & Hn).
    apply in_seq in Hn. exists i, n. repeat split; lia.
  - intros (i & n & Hn & Hm & Hin & ->). exists i. split; [apply in_seq; lia|].
    apply in_map_iff. exists n. split; [done|]. apply in_seq. lia.
Qed.

End TokenizerFacts.

(** C5, at the input where it fails: with [max_order = 3] the
    one-character document ["a"] has the 1-gram ["a"], and the
    tokenizer yields no token at all. *)
Theorem tokenizer_drops_short_document :
  Tokenizer.is_ngram 3 ["a"%char] ["a"%char]
  ∧ Tokenizer.call 3 ["a"%char] = Ok []
  ∧ ¬ (∃ tokens, Tokenizer.call 3 ["a"%char] = Ok tokens
         ∧ ∀ tok, tok ∈ tokens ↔ Tokenizer.is_ngram 3 ["a"%char] tok).
Proof.
  assert (G : Tokenizer.is_ngram 3 ["a"%char] ["a"%char]).
  { exists 0, 1. simpl. repeat split; lia. }
  split; [done|]. split; [reflexivity|].
  intros (tokens & E & H). injection E as <-. apply H in G. by apply not_elem_of_nil in G.
Qed.

(** * Record readers *)

Section ReaderFacts.
Context {V : Type}.
Variable load : list byte → Records.loaded V.
Variable dump : V → list byte.
(** At the end of the data [marshal.load] raises EOFError. *)
Hypothesis load_end : load [] = Records.Raised EOFError.

(** An encoding that [load] reads back is not empty. *)
Lemma dump_nonempty (v : V) :
  (∀ rest, load (dump v ++ rest) = Records.Loaded v rest) → dump v ≠ [].
Proof.
  intros Hrt E. specialize (Hrt []). rewrite E in Hrt. simpl in Hrt. congruence.
Qed.

(** The shared loop on a file that holds the records [vs] and then
    bytes [tail] on which the next load fails with [e]: it yields
    [vs] and ends as the exception decides. *)
Lemma read_records (caught : list exn) (tail : list byte) (e : exn) (vs : list V) :
  (∀ v rest, v ∈ vs → load (dump v ++ rest) = Records.Loaded v rest) →
  load tail = Records.Raised e →
  ∀ fuel, length (concat (map dump vs) ++ tail) < fuel →
  Records.read_loop load caught fuel (concat (map dump vs) ++ tail)
  = (vs, if decide (e ∈ caught) then Records.Stopped else Records.Aborted e).
Proof.
  intros Hrt Htail. induction vs as [|v vs IH]; intros fuel Hf;
    (destruct fuel as [|fuel]; [lia|]); cbn [map concat app Records.read_loop].
  - rewrite Htail. by destruct (decide (e ∈ caught)).
  - rewrite <- app_assoc, Hrt by (by left).
    pose proof (dump_nonempty v (fun rest => Hrt v rest ltac:(by left))) as Hne.
    rewrite IH; [done| |].
    + intros v' rest Hv'. apply Hrt. by right.
    + cbn [map concat] in Hf. rewrite <- app_assoc, length_app in Hf.
      destruct (dump v); [done|]. simpl in Hf. lia.
Qed.

End ReaderFacts.

(** C2 as stated fails for both readers.  On the file whose second
    record is cut short after its first item the failing load raises
    EOFError with ten bytes unread, and [unmarshal_iter] stops as if
    the data had ended.  On the file with a damaged byte the failing
    load raises ValueError, [disklist.__iter__] stops as if the data
    had ended and never reaches the whole record behind the damage;
    [unmarshal_iter] aborts there. *)
Lemma readers_stop_cleanly_before_end_of_data :
  Records.unmarshal_iter Records.load_tuple truncated_file = ([[1; 2]%Z], Records.Stopped)
  ∧ Records.load_tuple (skipn 15 truncated_file) = Records.Raised EOFError
  ∧ length (skipn 15 truncated_file) = 10
  ∧ Records.unmarshal_iter Records.load_tuple truncated_file
    ≠ ([[1; 2]%Z], Records.strict_ending (skipn 15 truncated_file) EOFError)
  ∧ Records.disklist_iter Records.load_tuple
      {| Records.fileh := damaged_file; Records.count := 2 |}
    = ([[1; 2]%Z], Records.Stopped)
  ∧ Records.load_tuple (skipn 15 damaged_file) = Records.Raised ValueError
  ∧ Records.load_tuple (skipn 16 damaged_file) = Records.Loaded [3; 4]%Z []
  ∧ Records.disklist_iter Records.load_tuple
      {| Records.fileh := damaged_file; Records.count := 2 |}
    ≠ ([[1; 2]%Z], Records.strict_ending (skipn 15 damaged_file) ValueError)
  ∧ Records.unmarshal_iter Records.load_tuple damaged_file
    = ([[1; 2]%Z], Records.Aborted ValueError).
Proof. repeat split; try reflexivity; discriminate. Qed.

(** C2, amended.  On a file that holds complete records followed by
    bytes on which [marshal.load] fails, both readers yield every
    record, in order, and none after the failure.  [unmarshal_iter]
    then stops cleanly exactly when the failure is EOFError and lets
    every other exception out; [disklist.__iter__] also stops cleanly
    on ValueError and TypeError.  On a file that ends with its last
    record, the genuine end of the data, both stop cleanly. *)
Theorem readers_yield_records_before_first_failure {V}
    (load : list byte → Records.loaded V) (dump : V → list byte)
    (vs : list V) (tail : list byte) (e : exn) (n : nat) :
  load [] = Records.Raised EOFError →
  (∀ v rest, v ∈ vs → load (dump v ++ rest) = Records.Loaded v rest) →
  load tail = Records.Raised e →
  Records.unmarshal_iter load (concat (map dump vs) ++ tail)
    = (vs, if decide (e = EOFError) then Records.Stopped else Records.Aborted e)
  ∧ Records.disklist_iter load
      {| Records.fileh := concat (map dump vs) ++ tail; Records.count := n |}
    = (vs, if decide (e = EOFError ∨ e = ValueError ∨ e = TypeError)
           then Records.Stopped else Records.Aborted e)
  ∧ Records.unmarshal_iter load (concat (map dump vs)) = (vs, Records.Stopped)
  ∧ Records.disklist_iter load
      {| Records.fileh := concat (map dump vs); Records.count := n |}
    = (vs, Records.Stopped).
Proof.
  intros Hend Hrt Htail. unfold Records.unmarshal_iter, Records.disklist_iter.
  cbn [Records.fileh].
  assert (H1 : ∀ t x, load t = Records.Raised x →
            Records.read_loop load [EOFError] (S (length (concat (map dump vs) ++ t)))
              (concat (map dump vs) ++ t)
            = (vs, if decide (x = EOFError) then Records.Stopped else Records.Aborted x)).
  { intros t x Ht. rewrite (read_records load dump Hend _ t x vs Hrt Ht) by lia. f_equal.
    destruct (decide (x = EOFError)) as [->|Hne].
    - rewrite decide_True; [done|]. apply elem_of_cons. by left.
    - rewrite decide_False; [done|]. intros Hin.
      apply list_elem_of_singleton in Hin. done. }
  assert (H2 : ∀ t x, load t = Records.Raised x →
            Records.read_loop load [EOFError; ValueError; TypeError]
              (S (length (concat (map dump vs) ++ t))) (concat (map dump vs) ++ t)
            = (vs, if decide (x = EOFError ∨ x = ValueError ∨ x = TypeError)
                   then Records.Stopped else Records.Aborted x)).
  { intros t x Ht. rewrite (read_records load dump Hend _ t x vs Hrt Ht) by lia. f_equal.
    destruct (decide (x = EOFError ∨ x = ValueError ∨ x = TypeError)) as [H|H].
    - rewrite decide_True; [done|]. rewrite !elem_of_cons. tauto.
    - rewrite decide_False; [done|]. rewrite !elem_of_cons.
      intros [?|[?|[?|Hin]]]; [tauto..|]. by apply not_elem_of_nil in Hin. }
  split; [by apply H1|]. split; [by apply H2|].
  specialize (H1 [] EOFError Hend). specialize (H2 [] EOFError Hend).
  rewrite app_nil_r in H1, H2. rewrite H1, H2.
  rewrite decide_True by done. rewrite decide_True by (by left). done.
Qed.

Lemma load_tuple_reads_back (rest : list byte) :
  Records.load_tuple (dump_tuple [1; 2]%Z ++ rest) = Records.Loaded [1; 2]%Z rest.
Proof. reflexivity. Qed.

Lemma readers_yield_records_before_first_failure_witness :
  Records.unmarshal_iter Records.load_tuple
      (concat (map dump_tuple [[1; 2]%Z]) ++ skipn 15 truncated_file)
    = ([[1; 2]%Z], if decide (EOFError = EOFError)
                   then Records.Stopped else Records.Aborted EOFError)
  ∧ Records.disklist_iter Records.load_tuple
      {| Records.fileh := concat (map dump_tuple [[1; 2]%Z]) ++ skipn 15 truncated_file;
         Records.count := 1 |}
    = ([[1; 2]%Z], if decide (EOFError = EOFError ∨ EOFError = ValueError ∨ EOFError = TypeError)
                   then Records.Stopped else Records.Aborted EOFError)
  ∧ Records.unmarshal_iter Records.load_tuple (concat (map dump_tuple [[1; 2]%Z]))
    = ([[1; 2]%Z], Records.Stopped)
  ∧ Records.disklist_iter Records.load_tuple
      {| Records.fileh := concat (map dump_tuple [[1; 2]%Z]); Records.count := 1 |}
    = ([[1; 2]%Z], Records.Stopped).
Proof.
  apply (readers_yield_records_before_first_failure Records.load_tuple dump_tuple
           [[1; 2]%Z] (skipn 15 truncated_file) EOFError 1).
  - reflexivity.
  - intros v rest Hv. apply list_elem_of_singleton in Hv as ->.
    apply load_tuple_reads_back.
  - reflexivity.
Defined.

(** * The document-frequency index *)

Section ChunkFacts.
Context {A : Type}.

Lemma take_chunk_spec (c : nat) (it : list A) :
  Common.take_chunk c it = (firstn c it, skipn c it).
Proof.
  revert it. induction c as [|c IH]; intros [|x it]; simpl; try done.
  by rewrite IH.
Qed.

(** For a positive chunk size the chunks are a partition of the
    sequence into consecutive non-empty pieces. *)
Lemma chunk_fuel_spec (c : nat) : 0 < c → ∀ fuel (it : list A),
  length it < fuel →
  ∃ chunks, Common.chunk_fuel fuel it c = Some chunks ∧ concat chunks = it.
Proof.
  intros Hc. induction fuel as [|fuel IH]; intros it Hf; [lia|].
  simpl. rewrite take_chunk_spec.
  destruct it as [|x it].
  - rewrite firstn_nil. simpl. by exists [].
  - destruct c as [|c]; [lia|]. cbn [firstn length Nat.eqb].
    destruct (IH (skipn (S c) (x :: it))) as (chunks & -> & E).
    { rewrite length_skipn. simpl in *. lia. }
    eexists. split; [done|]. cbn [concat]. rewrite E.
    apply (firstn_skipn (S c) (x :: it)).
Qed.

Lemma chunk_concat (sq : list A) (c : nat) : 0 < c → concat (Common.chunk sq c) = sq.
Proof.
  intros Hc. unfold Common.chunk.
  destruct (chunk_fuel_spec c Hc (S (length sq)) sq) as (chunks & -> & E); [lia|done].
Qed.

End ChunkFacts.

Lemma list_sum_swap {B C} (f : B → C → nat) (bs : list B) (cs : list C) :
  list_sum (map (fun b => list_sum (map (fun c => f b c) cs)) bs)
  = list_sum (map (fun c => list_sum (map (fun b => f b c) bs)) cs).
Proof.
  induction bs as [|b bs IH]; simpl.
  - induction cs as [|c cs IHc]; simpl; [done|]. by rewrite <- IHc.
  - rewrite IH. clear IH. induction cs as [|c cs IHc]; simpl; [done|].
    rewrite <- IHc. lia.
Qed.

Lemma weight_app k f1 f2 : weight k (f1 ++ f2) = weight k f1 + weight k f2.
Proof. unfold weight. by rewrite map_app, list_sum_app. Qed.

Lemma total_app k fs1 fs2 : total k (fs1 ++ fs2) = total k fs1 + total k fs2.
Proof. unfold total. by rewrite map_app, list_sum_app. Qed.

Lemma weight_Permutation k f1 f2 : f1 ≡ₚ f2 → weight k f1 = weight k f2.
Proof.
  intros HP. unfold weight. induction HP; simpl; try lia.
Qed.

(** A dictionary written out item by item holds for [k] the value
    stored under [k]. *)
Lemma weight_map_to_list (k : list ascii) (m : gmap (list ascii) nat) :
  weight k (map_to_list m) = default 0 (m !! k).
Proof.
  induction m as [|i x m Hi IH] using map_ind.
  - by rewrite map_to_list_empty, lookup_empty.
  - rewrite (weight_Permutation k _ _ (map_to_list_insert m i x Hi)).
    unfold weight in *. simpl. rewrite IH. rewrite lookup_insert.
    destruct (decide (i = k)) as [->|Hne]; simpl.
    + rewrite Hi. simpl. lia.
    + done.
Qed.

Lemma total_middle (k : list ascii) (l1 l2 : list (list (list ascii * nat))) x :
  total k (l1 ++ x :: l2) = total k l1 + weight k x + total k l2.
Proof. unfold total. rewrite map_app, list_sum_app. simpl. lia. Qed.

Lemma total_insert (k : list ascii) (files : list (list (list ascii * nat))) i file r :
  files !! i = Some file →
  total k (<[i := file ++ [r]]> files) = total k files + weight k [r].
Proof.
  intros Hi. rewrite insert_take_drop by (by eapply lookup_lt_Some).
  rewrite <- (take_drop_middle files i file Hi) at 3.
  rewrite !total_middle, weight_app. lia.
Qed.

Section DocFreqFacts.
Variable hash : list ascii → Z.
Variable max_order : nat.

Lemma yielding_app k l1 l2 :
  yielding max_order k (l1 ++ l2) = yielding max_order k l1 + yielding max_order k l2.
Proof. unfold yielding. by rewrite List.filter_app, length_app. Qed.

Lemma yielding_concat k (chunks : list (list (list ascii))) :
  yielding max_order k (concat chunks) = list_sum (map (yielding max_order k) chunks).
Proof.
  induction chunks as [|c chunks IH]; simpl; [done|].
  by rewrite yielding_app, IH.
Qed.

(** Counting the tokens of one document adds one to the count of
    each of its tokens and the document to the list of each. *)
Lemma count_tokens_freq (k : list ascii) (l : list (list ascii)) (doc_index : nat) :
  NoDup l → ∀ (st : gmap (list ascii) nat * gmap (list ascii) (list nat)),
  default 0 (fst (fold_left (fun '(term_doc_freq, term_doc_list) tok =>
               (<[tok := S (default 0 (term_doc_freq !! tok))]> term_doc_freq,
                <[tok := default [] (term_doc_list !! tok) ++ [doc_index]]> term_doc_list))
            l st) !! k)
  = default 0 (fst st !! k) + (if decide (k ∈ l) then 1 else 0).
Proof.
  induction l as [|tok l IH]; intros ND [f ls]; cbn [fold_left].
  - destruct (decide (k ∈ [])) as [H|H]; [by apply not_elem_of_nil in H | lia].
  - apply NoDup_cons in ND as [Hnin ND]. rewrite IH by done. cbn [fst]. rewrite lookup_insert.
    destruct (decide (tok = k)) as [->|Hne]; destruct (decide (k ∈ l)) as [Hin|Hin];
      destruct (decide (k ∈ _ :: l)) as [Hin'|Hin']; simpl; try lia; try done.
    + exfalso. apply Hin'. by left.
    + exfalso. apply Hin'. by right.
    + exfalso. apply elem_of_cons in Hin' as [->|?]; done.
Qed.

Lemma count_tokens_list (k : list ascii) (l : list (list ascii)) (doc_index : nat) :
  NoDup l → ∀ (st : gmap (list ascii) nat * gmap (list ascii) (list nat)),
  default [] (snd (fold_left (fun '(term_doc_freq, term_doc_list) tok =>
               (<[tok := S (default 0 (term_doc_freq !! tok))]> term_doc_freq,
                <[tok := default [] (term_doc_list !! tok) ++ [doc_index]]> term_doc_list))
            l st) !! k)
  = default [] (snd st !! k) ++ (if decide (k ∈ l) then [doc_index] else []).
Proof.
  induction l as [|tok l IH]; intros ND [f ls]; cbn [fold_left].
  - rewrite decide_False by apply not_elem_of_nil. by rewrite app_nil_r.
  - apply NoDup_cons in ND as [Hnin ND]. rewrite IH by done. cbn [snd].
    rewrite lookup_insert.
    destruct (decide (tok = k)) as [->|Hne].
    + rewrite (decide_False (P := k ∈ l)) by done.
      rewrite decide_True by (by left). simpl. by rewrite app_nil_r.
    + destruct (decide (k ∈ l)) as [Hin|Hin].
      * by rewrite decide_True by (by right).
      * rewrite decide_False; [done|]. apply not_elem_of_cons. split; [congruence|done].
Qed.

Lemma count_tokens_pos (l : list (list ascii)) (doc_index : nat) :
  ∀ (st : gmap (list ascii) nat * gmap (list ascii) (list nat)),
  map_Forall (fun _ n => 0 < n) (fst st) →
  map_Forall (fun _ n => 0 < n)
    (fst (fold_left (fun '(term_doc_freq, term_doc_list) tok =>
               (<[tok := S (default 0 (term_doc_freq !! tok))]> term_doc_freq,
                <[tok := default [] (term_doc_list !! tok) ++ [doc_index]]> term_doc_list))
            l st)).
Proof.
  induction l as [|tok l IH]; intros [f ls] Hp; cbn [fold_left]; [done|].
  apply IH. cbn [fst] in *. apply map_Forall_insert_2; [lia|done].
Qed.

Lemma snd_enumerate {A} (l : list A) : map snd (Common.enumerate l) = l.
Proof.
  unfold Common.enumerate. generalize 0.
  induction l as [|x l IH]; intros n; simpl; [done|]. by rewrite IH.
Qed.

Lemma total_replicate k n : total k (replicate n []) = 0.
Proof. unfold total. induction n as [|n IH]; simpl; [done|]. by rewrite IH. Qed.

(** Writing the counters of a chunk spreads them over the bucket
    files without loss. *)
Lemma emit_all chunk_id term_doc_list num_buckets (kvs : list (list ascii * nat)) :
  0 < num_buckets →
  ∃ files, foldR (DocFreq.emit hash chunk_id term_doc_list) kvs
                 (replicate num_buckets [], replicate num_buckets []) = Ok files
    ∧ length (fst files) = num_buckets
    ∧ ∀ k, total k (fst files) = weight k kvs.
Proof.
  intros Hnb.
  destruct (foldR_ind
    (fun l1 (files : list (list (list ascii * nat)) * list (list (list ascii * nat * list nat))) =>
       length (fst files) = num_buckets ∧ length (snd files) = num_buckets
       ∧ ∀ k, total k (fst files) = weight k l1)
    (DocFreq.emit hash chunk_id term_doc_list) kvs
    (replicate num_buckets [], replicate num_buckets [])) as (files & E & H1 & _ & H3).
  - simpl. rewrite !length_replicate. repeat split; try done.
    intros k. apply total_replicate.
  - intros l1 [key df] l2 [bf bl] _ (H1 & H2 & H3). simpl in H1, H2, H3.
    unfold DocFreq.emit, Common.pymod.
    rewrite decide_False by lia. rewrite bind_Ok_l.
    pose proof (Z.mod_pos_bound (hash key) (Z.of_nat (length bf))) as Hb.
    set (i := Z.to_nat (hash key `mod` Z.of_nat (length bf))) in *.
    assert (Hi : i < num_buckets) by lia.
    destruct (lookup_lt_is_Some_2 bf i) as [f Hf]; [lia|].
    destruct (lookup_lt_is_Some_2 bl i) as [f' Hf']; [lia|].
    unfold DocFreq.list_alter_at. rewrite Hf, bind_Ok_l, Hf', bind_Ok_l.
    eexists. split; [done|]. simpl. rewrite !length_insert.
    repeat split; try done. intros k.
    rewrite (total_insert k bf i f _ Hf), H3, weight_app. done.
  - exists files. done.
Qed.

(** [pass2] writes for every term the sum of the counts the files of
    the bucket hold for it. *)
Lemma pass2_spec k (b : DocFreq.bucket) :
  weight k (fst (DocFreq.pass2 b)) = total k (DocFreq.freq_files b).
Proof.
  unfold DocFreq.pass2.
  assert (Hfile : ∀ (file : list (list ascii * nat)) st,
    default 0 (fst (fold_left (fun '(doc_count, count) '(key, value) =>
                              (<[key := default 0 (doc_count !! key) + value]> doc_count,
                               S count)) file st) !! k)
    = default 0 ((fst st : gmap (list ascii) nat) !! k) + weight k file).
  { induction file as [|[key value] file IH]; intros [dc c]; simpl.
    - unfold weight. simpl. lia.
    - rewrite IH. simpl. rewrite lookup_insert. unfold weight. simpl.
      destruct (decide (key = k)) as [->|Hne]; simpl; lia. }
  assert (Hfiles : ∀ (files : list (list (list ascii * nat))) st,
    default 0 (fst (fold_left (fun st file =>
                 fold_left (fun '(doc_count, count) '(key, value) =>
                              (<[key := default 0 (doc_count !! key) + value]> doc_count,
                               S count)) file st) files st) !! k)
    = default 0 ((fst st : gmap (list ascii) nat) !! k) + total k files).
  { induction files as [|file files IH]; intros st; simpl.
    - unfold total. simpl. lia.
    - rewrite IH, Hfile. unfold total. simpl. lia. }
  specialize (Hfiles (DocFreq.freq_files b) (∅, 0)).
  destruct (fold_left _ (DocFreq.freq_files b) (∅, 0)) as [doc_count count].
  simpl in *. rewrite weight_map_to_list, Hfiles, lookup_empty. done.
Qed.

Lemma nth_seq_id {A} (d : A) (l : list A) :
  map (fun b => nth b l d) (seq 0 (length l)) = l.
Proof.
  induction l as [|x l IH]; simpl; [done|]. f_equal.
  rewrite <- seq_shift, map_map. done.
Qed.

Hypothesis order_pos : 1 ≤ max_order.

Lemma has_token_yielded k text :
  has_token max_order k text = bool_decide (k ∈ yielded max_order text).
Proof. unfold has_token, yielded. by rewrite call_yielded. Qed.

Lemma count_doc_Ok st (doc_index : nat) (text : list ascii) :
  DocFreq.count_doc max_order st (doc_index, text)
  = Ok (fold_left (fun '(term_doc_freq, term_doc_list) tok =>
               (<[tok := S (default 0 (term_doc_freq !! tok))]> term_doc_freq,
                <[tok := default [] (term_doc_list !! tok) ++ [doc_index]]> term_doc_list))
            (elements (list_to_set (yielded max_order text) : gset (list ascii))) st).
Proof. unfold DocFreq.count_doc. by rewrite call_yielded. Qed.

(** The loop over the documents of a chunk finishes; afterwards the
    count of a token is the number of documents that yield it, its
    list holds their indices in order, and no stored count is zero. *)
Lemma count_docs_spec : ∀ (ds : list (nat * list ascii)) st,
  ∃ st', foldR (DocFreq.count_doc max_order) ds st = Ok st'
    ∧ (∀ k, default 0 (fst st' !! k)
            = default 0 (fst st !! k) + yielding max_order k (map snd ds))
    ∧ (∀ k, default [] (snd st' !! k)
            = default [] (snd st !! k)
              ++ map fst (List.filter (fun d : nat * list ascii =>
                                         has_token max_order k (snd d)) ds))
    ∧ (map_Forall (fun _ n => 0 < n) (fst st) → map_Forall (fun _ n => 0 < n) (fst st')).
Proof.
  induction ds as [|[doc_index text] ds IH]; intros st; cbn [foldR].
  - exists st. split; [done|]. unfold yielding. simpl.
    split; [intros k; lia|]. split; [intros k; by rewrite app_nil_r|done].
  - rewrite count_doc_Ok, bind_Ok_l.
    destruct (IH (fold_left (fun '(term_doc_freq, term_doc_list) tok =>
               (<[tok := S (default 0 (term_doc_freq !! tok))]> term_doc_freq,
                <[tok := default [] (term_doc_list !! tok) ++ [doc_index]]> term_doc_list))
            (elements (list_to_set (yielded max_order text) : gset (list ascii))) st))
      as (st' & -> & Hf & Hl & Hp).
    exists st'. split; [done|].
    assert (Hdec : ∀ k, (if decide (k ∈ elements (list_to_set (yielded max_order text)
                                                    : gset (list ascii)))
                         then true else false) = has_token max_order k text).
    { intros k. rewrite has_token_yielded.
      destruct (decide (k ∈ elements (list_to_set (yielded max_order text) : gset _)))
        as [Hin|Hin]; rewrite elem_of_elements, elem_of_list_to_set in Hin.
      - by rewrite bool_decide_eq_true_2.
      - by rewrite bool_decide_eq_false_2. }
    split; [|split].
    + intros k. rewrite Hf, count_tokens_freq by apply NoDup_elements.
      unfold yielding. cbn [map snd List.filter]. rewrite <- (Hdec k).
      destruct (decide (k ∈ elements _)); simpl; lia.
    + intros k. rewrite Hl, count_tokens_list by apply NoDup_elements.
      rewrite <- app_assoc. f_equal. cbn [List.filter snd]. rewrite <- (Hdec k).
      by destruct (decide (k ∈ elements _)).
    + intros H0. apply Hp. by apply count_tokens_pos.
Qed.

Lemma pass1_spec num_buckets chunk_id (chunk_paths : list (list ascii)) :
  0 < num_buckets →
  ∃ out, DocFreq.pass1 hash max_order num_buckets (chunk_id, chunk_paths) = Ok out
    ∧ length (fst (fst out)) = num_buckets
    ∧ ∀ k, total k (fst (fst out)) = yielding max_order k chunk_paths.
Proof.
  intros Hnb. unfold DocFreq.pass1.
  destruct (count_docs_spec (Common.enumerate chunk_paths) (∅, ∅))
    as ([term_doc_freq term_doc_list] & -> & Hc & _). rewrite bind_Ok_l.
  destruct (emit_all chunk_id term_doc_list num_buckets (map_to_list term_doc_freq) Hnb)
    as (files & -> & Hl & Ht).
  rewrite bind_Ok_l. eexists. split; [done|]. simpl. split; [done|].
  intros k. rewrite Ht, weight_map_to_list, Hc. simpl.
  by rewrite lookup_empty, snd_enumerate.
Qed.

(** Where every document has at least [max_order - 1] characters the
    tokenizer yields a term on exactly the documents that contain it
    as an n-gram. *)
Lemma yielding_containing k (paths : list (list ascii)) :
  Forall (fun text => max_order ≤ S (length text)) paths →
  yielding max_order k paths = DocFreq.containing max_order k paths.
Proof.
  unfold yielding, DocFreq.containing.
  induction 1 as [|text paths Hlen _ IH]; simpl; [done|].
  assert (has_token max_order k text = bool_decide (k ∈ Tokenizer.ngrams max_order text)) as ->.
  { unfold has_token.
    destruct (tokenizer_long_input max_order text order_pos Hlen) as (tokens & -> & Ht).
    apply bool_decide_ext. by rewrite Ht, elem_ngrams. }
  destruct (bool_decide _); simpl; by rewrite IH.
Qed.

(** Passes 1 and 2 together: the counts recorded for a term add up to
    the number of documents on which the tokenizer yields it. *)
Lemma index_corpus_spec (paths : list (list ascii)) (chunk_size num_buckets : nat)
    (k : list ascii) :
  0 < chunk_size → 0 < num_buckets →
  ∃ b_dirs docfreqs,
    DocFreq.index_corpus hash max_order paths chunk_size num_buckets = Ok (b_dirs, docfreqs)
    ∧ length docfreqs = num_buckets
    ∧ DocFreq.recorded k docfreqs = yielding max_order k paths.
Proof.
  intros Hc Hnb. unfold DocFreq.index_corpus.
  destruct (mapR_Ok (DocFreq.pass1 hash max_order num_buckets)
              (Common.enumerate (Common.chunk paths chunk_size))) as (outs & -> & HF).
  { intros [cid ch] _. destruct (pass1_spec num_buckets cid ch Hnb) as (o & ? & _).
    by exists o. }
  rewrite bind_Ok_l. eexists _, _. split; [done|]. split.
  { unfold DocFreq.gather. by rewrite !length_map, length_seq. }
  rewrite <- (chunk_concat paths chunk_size Hc) at 1.
  rewrite yielding_concat.
  rewrite <- (snd_enumerate (Common.chunk paths chunk_size)).
  assert (Hcat : ∀ fs : list (list (list ascii * nat)), DocFreq.recorded k fs = total k fs).
  { intros fs. unfold DocFreq.recorded. change (list_sum _) with (weight k (concat fs)).
    induction fs as [|f fs IH]; [done|]. simpl. rewrite weight_app, IH. done. }
  rewrite Hcat. unfold total. rewrite map_map.
  erewrite map_ext; [|intros b; apply pass2_spec].
  unfold DocFreq.gather. rewrite map_map. cbn [DocFreq.freq_files].
  erewrite map_ext; [|intros b; unfold total; rewrite map_map; reflexivity].
  rewrite (list_sum_swap (fun b o => weight k (nth b (fst (fst o)) []))).
  rewrite map_map.
  induction HF as [|[cid ch] o args outs Hp HF IH]; simpl; [done|].
  rewrite IH. f_equal.
  destruct (pass1_spec num_buckets cid ch Hnb) as (o' & Ho' & Hl & Ht).
  rewrite Hp in Ho'. inversion Ho'; subst o'.
  rewrite <- Ht. unfold total. rewrite <- Hl.
  rewrite <- (map_map (fun b => nth b (fst (fst o)) []) (weight k)).
  by rewrite nth_seq_id.
Qed.

End DocFreqFacts.

(** C4, at the input where it fails.  The corpus of the single
    document ["a"] indexed with [max_order = 3]: the document contains
    the term ["a"] as a 1-gram, so its document frequency is 1; the
    tokenizer yields no token for so short a document, passes 1 and 2
    succeed, and the frequency recorded for the term is 0. *)
Theorem docfreq_misses_short_document (hash : list ascii → Z) :
  DocFreq.containing 3 ["a"%char] [["a"%char]] = 1
  ∧ ∃ b_dirs docfreqs,
      DocFreq.index_corpus hash 3 [["a"%char]] 1 1 = Ok (b_dirs, docfreqs)
      ∧ DocFreq.recorded ["a"%char] docfreqs = 0
      ∧ DocFreq.recorded ["a"%char] docfreqs ≠ DocFreq.containing 3 ["a"%char] [["a"%char]].
Proof.
  split; [reflexivity|]. eexists _, _. split; [reflexivity|]. split; [reflexivity|].
  discriminate.
Qed.

(** * The selection of the final feature set *)

Section SelectFacts.
Context {score : Type}.
Variable argsort : list score → list nat.

Lemma size_union_le (X Y : gset (list ascii)) : size (X ∪ Y) ≤ size X + size Y.
Proof.
  rewrite size_union_alt. apply Nat.add_le_mono_l, subseteq_size. set_solver.
Qed.

(** Adding the terms at the chosen indices. *)
Lemma add_terms_spec (terms : list (list ascii)) : ∀ (inds : list nat) (fs fs' : gset (list ascii)),
  foldR (fun fs t => match terms !! t with
                     | None => Raise IndexError
                     | Some term => Ok ({[term]} ∪ fs)
                     end) inds fs = Ok fs' →
  (∀ tok, tok ∈ fs' ↔ tok ∈ fs ∨ ∃ t, t ∈ inds ∧ terms !! t = Some tok)
  ∧ size fs' ≤ size fs + length inds.
Proof.
  induction inds as [|t inds IH]; intros fs fs' E; simpl in E.
  - inversion E; subst. split; [|lia]. intros tok. split; [by left|].
    intros [?|(t & Ht & _)]; [done|]. by apply not_elem_of_nil in Ht.
  - destruct (terms !! t) as [term|] eqn:Ht; [|done]. rewrite bind_Ok_l in E.
    apply IH in E as [Hm Hs]. split.
    + intros tok. rewrite Hm, elem_of_union, elem_of_singleton. split.
      * intros [[->|?]|(t' & Ht' & Htok)]; [right|by left|right].
        -- exists t. split; [by left|done].
        -- exists t'. split; [by right|done].
      * intros [?|(t' & Ht' & Htok)]; [left; by right|].
        apply elem_of_cons in Ht' as [->|Ht'].
        -- left. left. congruence.
        -- right. by exists t'.
    + pose proof (size_union_le {[term]} fs) as Hu.
      rewrite size_singleton in Hu. simpl. lia.
Qed.

Lemma slice_from_neg_length {A} (l : list A) (n : Z) :
  (1 ≤ n)%Z → length (Select.slice_from l (- n)) ≤ Z.to_nat n.
Proof.
  intros Hn. unfold Select.slice_from.
  destruct (Z.ltb_spec (- n) 0) as [Hlt|Hge]; [|lia]. rewrite length_skipn. lia.
Qed.

(** [l[-0:]] is the whole list. *)
Lemma slice_from_zero {A} (l : list A) : Select.slice_from l (- 0) = l.
Proof. reflexivity. Qed.

Section Run.
Variables (feats_per_lang : Z) (terms : list (list ascii)) (w_lang : list (list score)).

Lemma select_rows_spec : ∀ (rows : list nat) (fs fs' : gset (list ascii)),
  foldR (Select.select_lang argsort feats_per_lang terms w_lang) rows fs = Ok fs' →
  (∀ tok, tok ∈ fs' ↔ tok ∈ fs ∨ ∃ row, row ∈ rows ∧ chosen argsort feats_per_lang terms w_lang row tok)
  ∧ ((1 ≤ feats_per_lang)%Z → size fs' ≤ size fs + length rows * Z.to_nat feats_per_lang).
Proof.
  induction rows as [|row rows IH]; intros fs fs' E; simpl in E.
  - inversion E; subst. split; [|lia]. intros tok. split; [by left|].
    intros [?|(r & Hr & _)]; [done|]. by apply not_elem_of_nil in Hr.
  - apply bind_Ok in E as (fs1 & E1 & E). apply IH in E as [Hm Hs].
    unfold Select.select_lang in E1. destruct (w_lang !! row) as [w|] eqn:Hw; [|done].
    apply add_terms_spec in E1 as [Hm1 Hs1]. split.
    + intros tok. rewrite Hm, Hm1. split.
      * intros [[?|(t & Ht & Htok)]|(r & Hr & Hc)]; [by left|right|right].
        -- exists row. split; [by left|]. by exists w, t.
        -- exists r. split; [by right|done].
      * intros [?|(r & Hr & Hc)]; [left; by left|].
        apply elem_of_cons in Hr as [->|Hr]; [|right; by exists r].
        left. right. destruct Hc as (w' & t & Hw' & Ht & Htok).
        exists t. split; [congruence|done].
    + intros Hn. specialize (Hs Hn).
      pose proof (slice_from_neg_length (argsort w) feats_per_lang Hn). simpl. lia.
Qed.

End Run.
End SelectFacts.

(** For a positive [feats_per_lang] the final set holds exactly the
    terms at the last [feats_per_lang] indices of each language's
    [argsort], all of them terms returned by [pass3], and has at most
    (number of languages) * [feats_per_lang] elements. *)
Lemma select_positive {score} (argsort : list score → list nat) (lang_rows : list nat)
    (pass3_out : list (list (list ascii) * list (list score) * list score))
    (feats_per_lang : Z) (fs : gset (list ascii)) :
  Select.select_LD_features argsort lang_rows pass3_out feats_per_lang = Ok fs →
  (∀ tok, tok ∈ fs ↔
      ∃ row, row ∈ lang_rows
        ∧ chosen argsort feats_per_lang (concat (map (fun o => fst (fst o)) pass3_out))
            (Select.hstack (length lang_rows) (map (fun o => snd (fst o)) pass3_out)) row tok)
  ∧ (∀ tok, tok ∈ fs → tok ∈ concat (map (fun o => fst (fst o)) pass3_out))
  ∧ ((1 ≤ feats_per_lang)%Z → size fs ≤ length lang_rows * Z.to_nat feats_per_lang).
Proof.
  unfold Select.select_LD_features. destruct (decide (pass3_out = [])); [done|].
  intros E. apply select_rows_spec in E as [Hm Hs].
  assert (Hm' : ∀ tok, tok ∈ fs ↔
      ∃ row, row ∈ lang_rows
        ∧ chosen argsort feats_per_lang (concat (map (fun o => fst (fst o)) pass3_out))
            (Select.hstack (length lang_rows) (map (fun o => snd (fst o)) pass3_out)) row tok).
  { intros tok. rewrite Hm. split; [|by right].
    intros [Hin|?]; [|done]. by apply not_elem_of_empty in Hin. }
  split; [done|]. split.
  - intros tok Htok. apply Hm' in Htok as (row & _ & w & t & _ & _ & Ht).
    by eapply list_elem_of_lookup_2.
  - intros Hn. specialize (Hs Hn). rewrite size_empty in Hs. done.
Qed.

(** The terms [pass3] returns for a bucket are candidate features. *)
Lemma term_doc_map_candidates (features : gset (list ascii)) (chunk_offsets : list nat)
    (b : DocFreq.bucket) (m : gmap (list ascii) (list nat)) (k : list ascii) :
  Select.term_doc_map features chunk_offsets b = Ok m → is_Some (m !! k) → k ∈ features.
Proof.
  unfold Select.term_doc_map.
  assert (Hrec : ∀ (r : list ascii * nat * list nat) (m m' : gmap (list ascii) (list nat)),
            (∀ k, is_Some (m !! k) → k ∈ features) →
            Select.add_postings features chunk_offsets m r = Ok m' →
            ∀ k, is_Some (m' !! k) → k ∈ features).
  { intros [[key chunk_id] docids] m0 m' H0 E. unfold Select.add_postings in E.
    destruct (decide (key ∈ features)) as [Hk|Hk]; [|by inversion E; subst].
    destruct (chunk_offsets !! chunk_id) as [off|]; [|done].
    inversion E; subst m'. clear E. revert m0 H0.
    induction docids as [|d docids IH]; intros m0 H0; [done|]. simpl.
    apply IH. intros k'. rewrite lookup_insert. case_decide; [by subst|apply H0]. }
  assert (Hfile : ∀ (file : list (list ascii * nat * list nat)) (m m' : gmap _ _),
            (∀ k, is_Some (m !! k) → k ∈ features) →
            foldR (Select.add_postings features chunk_offsets) file m = Ok m' →
            ∀ k, is_Some (m' !! k) → k ∈ features).
  { induction file as [|r file IH]; intros m0 m' H0 E; simpl in E.
    - by inversion E; subst.
    - apply bind_Ok in E as (m1 & E1 & E). eapply IH; [|exact E]. by eapply Hrec. }
  assert (Hfiles : ∀ (files : list (list (list ascii * nat * list nat))) (m m' : gmap _ _),
            (∀ k, is_Some (m !! k) → k ∈ features) →
            foldR (fun m file => foldR (Select.add_postings features chunk_offsets) file m)
                  files m = Ok m' →
            ∀ k, is_Some (m' !! k) → k ∈ features).
  { induction files as [|f files IH]; intros m0 m' H0 E; simpl in E.
    - by inversion E; subst.
    - apply bind_Ok in E as (m1 & E1 & E). eapply IH; [|exact E]. by eapply Hfile. }
  intros E. revert k. eapply Hfiles; [|exact E].
  intros k [v Hv]. by rewrite lookup_empty in Hv.
Qed.

(** C6, at the input where it fails.  With [feats_per_lang = 0] each
    language's zero highest-scoring terms are no terms at all, so the
    union is empty; the slice [[-0:]] is the whole index array and the
    code selects every term. *)
Theorem select_zero_per_lang_takes_every_term :
  Select.select_LD_features Select.argsort_Z [0; 1] sample_pass3_out 0
    = Ok (list_to_set [["a"]; ["b"]; ["c"]]%char)
  ∧ Select.select_LD_features Select.argsort_Z [0; 1] sample_pass3_out 0 ≠ Ok ∅
  ∧ Select.select_LD_features Select.argsort_Z [0; 1] sample_pass3_out 1
    = Ok (list_to_set [["a"]; ["b"]]%char).
Proof.
  assert (H0 : Select.select_LD_features Select.argsort_Z [0; 1] sample_pass3_out 0
               = Ok (list_to_set [["a"]; ["b"]; ["c"]]%char)) by (vm_compute; reflexivity).
  split; [exact H0|]. split; [|vm_compute; reflexivity].
  rewrite H0. intros [=].
Qed.

(** C10, at the input where it fails.  With two languages and
    [feats_per_lang = 0] the bound is 2 * 0 = 0 and the final set has
    three elements. *)
Theorem select_zero_per_lang_exceeds_bound :
  ∃ fs, Select.select_LD_features Select.argsort_Z [0; 1] sample_pass3_out 0 = Ok fs
    ∧ size fs = 3
    ∧ ¬ (size fs ≤ length [0; 1] * Z.to_nat 0).
Proof.
  eexists. split; [vm_compute; reflexivity|].
  split; [vm_compute; reflexivity|]. vm_compute. lia.
Qed.

(** * Entropy and information gain *)

Import Float.

Lemma flog_zero : flog (Fin 0) = NInf.
Proof. unfold flog. destruct (Req_dec_T 0 0); [done|lra]. Qed.

Lemma flog_pos (x : R) : (0 < x)%R → flog (Fin x) = Fin (ln x).
Proof.
  intros Hx. unfold flog. destruct (Req_dec_T x 0); [lra|].
  destruct (Rlt_dec x 0); [lra|done].
Qed.

Lemma fdiv_fin (x y : R) : y ≠ 0%R → fdiv (Fin x) (Fin y) = Fin (x / y).
Proof. intros Hy. unfold fdiv. destruct (Req_dec_T y 0); [lra|done]. Qed.

Lemma fdiv_zero_zero : fdiv (Fin 0) (Fin 0) = NaN.
Proof.
  unfold fdiv. destruct (Req_dec_T 0 0); [|lra]. done.
Qed.

Lemma fmul_zero_ninf : fmul (Fin 0) NInf = NaN.
Proof. unfold fmul. destruct (Req_dec_T 0 0); [done|lra]. Qed.

Lemma fsum_fin (l : list R) : ∀ acc,
  fold_left fadd (map Fin l) (Fin acc) = Fin (fold_left Rplus l acc).
Proof. induction l as [|x l IH]; intros acc; simpl; [done|]. apply IH. Qed.

Lemma fold_Rplus_INR (l : list nat) : ∀ acc,
  fold_left Rplus (map INR l) acc = (acc + INR (list_sum l))%R.
Proof.
  induction l as [|c l IH]; intros acc; simpl.
  - lra.
  - rewrite IH, plus_INR. lra.
Qed.

(** The sum of a vector of counts. *)
Lemma fsum_counts (counts : list nat) :
  fsum (map of_nat counts) = Fin (INR (list_sum counts)).
Proof.
  unfold fsum. change (map of_nat counts) with (map (fun c => Fin (INR c)) counts).
  rewrite <- (map_map INR Fin), fsum_fin, fold_Rplus_INR. f_equal. lra.
Qed.

Lemma xlogx_term (c : nat) :
  (let a := fmul (of_nat c) (flog (of_nat c)) in if isnan a then Fin 0 else a)
  = Fin (xlogx c).
Proof.
  unfold xlogx, of_nat. destruct (decide (c = 0)) as [->|Hc]; cbv zeta.
  - change (INR 0) with 0%R. rewrite flog_zero, fmul_zero_ninf. done.
  - assert (0 < INR c)%R by (apply lt_0_INR; lia).
    rewrite flog_pos by done. done.
Qed.

Lemma nansum_counts (counts : list nat) :
  nansum (map (fun x => fmul x (flog x)) (map of_nat counts))
  = Fin (fold_left Rplus (map xlogx counts) 0%R).
Proof.
  unfold nansum, fsum. rewrite !map_map.
  erewrite map_ext; [|intros c; apply xlogx_term].
  rewrite <- (map_map xlogx Fin). apply fsum_fin.
Qed.

Lemma xlogx_sum_zero (counts : list nat) : ∀ acc,
  list_sum counts = 0 → fold_left Rplus (map xlogx counts) acc = acc.
Proof.
  induction counts as [|c counts IH]; intros acc Hs; simpl in *; [done|].
  rewrite IH by lia. unfold xlogx. destruct (decide (c = 0)); [lra|lia].
Qed.

(** The entropy of a vector of counts is NaN when the counts sum to
    zero and finite otherwise. *)
Lemma entropy_zero (counts : list nat) :
  list_sum counts = 0 → Gain.entropy (map of_nat counts) = NaN.
Proof.
  intros Hs. unfold Gain.entropy.
  rewrite fsum_counts, nansum_counts, xlogx_sum_zero, Hs by done.
  change (INR 0) with 0%R. rewrite flog_zero, fdiv_zero_zero. done.
Qed.

Lemma entropy_pos (counts : list nat) :
  0 < list_sum counts →
  Gain.entropy (map of_nat counts)
  = Fin (ln (INR (list_sum counts))
         - fold_left Rplus (map xlogx counts) 0%R / INR (list_sum counts)).
Proof.
  intros Hs. unfold Gain.entropy.
  assert (0 < INR (list_sum counts))%R by (apply lt_0_INR; lia).
  rewrite fsum_counts, nansum_counts, flog_pos, fdiv_fin by lra. done.
Qed.

Lemma band_entropy_fin num_classes cm band :
  ∃ x, Gain.band_entropy num_classes cm band = Fin x
       ∧ (list_sum (Gain.band_counts num_classes cm band) = 0 → x = 0%R).
Proof.
  unfold Gain.band_entropy.
  destruct (Nat.eq_dec (list_sum (Gain.band_counts num_classes cm band)) 0) as [Hz|Hz].
  - rewrite entropy_zero by done. simpl. by exists 0%R.
  - rewrite entropy_pos by lia. simpl. eexists. split; [done|]. lia.
Qed.

Lemma band_weight_fin (band : list bool) :
  0 < length band → ∃ w, Gain.band_weight band = Fin w.
Proof.
  intros Hl. unfold Gain.band_weight, of_nat.
  assert (0 < INR (length band))%R by (apply lt_0_INR; lia).
  rewrite fdiv_fin by lra. eauto.
Qed.

Lemma band_term_fin num_classes cm band :
  0 < length band →
  ∃ x, Gain.band_term num_classes cm band = Fin x
       ∧ (list_sum (Gain.band_counts num_classes cm band) = 0 → x = 0%R).
Proof.
  intros Hl. unfold Gain.band_term.
  destruct (band_weight_fin band Hl) as [w ->].
  destruct (band_entropy_fin num_classes cm band) as (e & -> & He).
  simpl. eexists. split; [done|]. intros Hz. rewrite (He Hz). lra.
Qed.



(** * Training: the feature map and the parameters *)

Import Float.

Lemma np_index_cases (n : nat) (i : Z) :
  (∃ k, Train.np_index n i = Ok k ∧ k < n) ∨ Train.np_index n i = Raise IndexError.
Proof.
  unfold Train.np_index. repeat case_decide; [left|left|right]; eauto with lia.
Qed.

Lemma foldR_app {A S} (body : S → A → result S) (l1 l2 : list A) (s : S) :
  foldR body (l1 ++ l2) s = (foldR body l1 s ≫= foldR body l2).
Proof.
  revert s. induction l1 as [|x l1 IH]; intros s; simpl; [done|].
  destruct (body s x); simpl; [apply IH|done].
Qed.

Lemma foldR_concat {A S} (body : S → A → result S) (ls : list (list A)) (s : S) :
  foldR (fun s l => foldR body l s) ls s = foldR body (concat ls) s.
Proof.
  revert s. induction ls as [|l ls IH]; intros s; simpl; [done|].
  rewrite foldR_app. destruct (foldR body l s); simpl; [apply IH|done].
Qed.

Section Replay.
Variables (chunk_offsets : list nat) (num_feats base_f_id : nat).

(** One record either lands in its cell or raises IndexError. *)
Lemma replay_cell (fm : list (list Z)) (r : Train.record) :
  Train.replay chunk_offsets num_feats base_f_id fm r =
    match cell_of chunk_offsets (length fm) num_feats base_f_id r with
    | Some (d, f) => Ok (alter (fun row => <[f := Z.of_nat (snd r)]> row) d fm)
    | None => Raise IndexError
    end.
Proof.
  destruct r as [[[f_id chunk_id] doc_id] count]. unfold Train.replay, cell_of.
  destruct (chunk_offsets !! chunk_id) as [off|]; [|done].
  unfold Train.fm_set.
  destruct (np_index_cases (length fm) (Z.of_nat (off + doc_id))) as [(d & -> & _)| ->]; [|done].
  destruct (np_index_cases num_feats (Z.of_nat f_id - Z.of_nat base_f_id))
    as [(f & -> & _)| ->]; done.
Qed.

Lemma replay_length (fm fm' : list (list Z)) (r : Train.record) :
  Train.replay chunk_offsets num_feats base_f_id fm r = Ok fm' → length fm' = length fm.
Proof.
  rewrite replay_cell. destruct (cell_of _ _ _ _ r) as [[d f]|]; [|done].
  intros [= <-]. apply length_alter.
Qed.

(** Records aimed at different cells can be replayed in either order. *)
Lemma replay_comm (fm : list (list Z)) (x y : Train.record) :
  cell_of chunk_offsets (length fm) num_feats base_f_id x
    ≠ cell_of chunk_offsets (length fm) num_feats base_f_id y →
  (Train.replay chunk_offsets num_feats base_f_id fm x
     ≫= fun fm' => Train.replay chunk_offsets num_feats base_f_id fm' y)
  = (Train.replay chunk_offsets num_feats base_f_id fm y
       ≫= fun fm' => Train.replay chunk_offsets num_feats base_f_id fm' x).
Proof.
  intros Hxy. rewrite !replay_cell.
  destruct (cell_of chunk_offsets (length fm) num_feats base_f_id x) as [[d1 f1]|] eqn:Ex,
           (cell_of chunk_offsets (length fm) num_feats base_f_id y) as [[d2 f2]|] eqn:Ey;
    simpl; rewrite ?replay_cell, ?length_alter, ?Ex, ?Ey; try done.
  f_equal. destruct (decide (d1 = d2)) as [->|Hd].
  - assert (f1 ≠ f2) by congruence.
    rewrite !list_alter_alter_eq. apply list_alter_ext; [|done].
    intros row _. simpl. by apply list_insert_insert_ne.
  - by apply list_alter_alter_ne.
Qed.

Lemma replay_permutation (rs rs' : list Train.record) :
  rs ≡ₚ rs' →
  ∀ fm, NoDup (map (cell_of chunk_offsets (length fm) num_feats base_f_id) rs) →
  foldR (Train.replay chunk_offsets num_feats base_f_id) rs fm
  = foldR (Train.replay chunk_offsets num_feats base_f_id) rs' fm.
Proof.
  induction 1 as [|x l l' HP IH|x y l|l l' l'' HP1 IH1 HP2 IH2]; intros fm ND.
  - done.
  - simpl. destruct (Train.replay chunk_offsets num_feats base_f_id fm x) as [fm'|e] eqn:E;
      simpl; [|done].
    apply IH. rewrite (replay_length _ _ _ E). simpl in ND. by apply NoDup_cons in ND as [_ ND].
  - simpl in *. apply NoDup_cons in ND as [Hy ND]. apply NoDup_cons in ND as [_ ND].
    assert (Hxy : cell_of chunk_offsets (length fm) num_feats base_f_id x
                  ≠ cell_of chunk_offsets (length fm) num_feats base_f_id y).
    { intros E. apply Hy. rewrite E. by left. }
    pose proof (replay_comm fm x y Hxy) as C.
    destruct (Train.replay chunk_offsets num_feats base_f_id fm y) as [fm1|e1],
             (Train.replay chunk_offsets num_feats base_f_id fm x) as [fm2|e2]; simpl in *;
      try (by rewrite C); try (by rewrite <- C); try done.
  - rewrite IH1 by done. apply IH2.
    assert (HP : map (cell_of chunk_offsets (length fm) num_feats base_f_id) l
                 ≡ₚ map (cell_of chunk_offsets (length fm) num_feats base_f_id) l')
      by (by apply Permutation_map).
    by rewrite <- HP.
Qed.

End Replay.

(** [pass2] gives the same result for any two orders of the records
    of a bucket, as long as no two of them are aimed at the same cell
    of the feature map. *)
Lemma pass2_permutation (cm : list (list bool)) (num_classes : nat) (chunk_offsets : list nat)
    (num_instances num_feats base_f_id : nat) (files files' : list (list Train.record)) :
  concat files ≡ₚ concat files' →
  NoDup (map (cell_of chunk_offsets num_instances num_feats base_f_id) (concat files)) →
  Train.pass2 cm num_classes chunk_offsets num_instances (num_feats, base_f_id, files)
  = Train.pass2 cm num_classes chunk_offsets num_instances (num_feats, base_f_id, files').
Proof.
  intros HP ND. unfold Train.pass2. rewrite !foldR_concat.
  rewrite (replay_permutation _ _ _ _ _ HP) by (by rewrite length_replicate).
  by rewrite (Permutation_length HP).
Qed.

(** ** The shape of the count matrix *)

Lemma zsum_nonneg (l : list Z) : nonneg l → (0 ≤ Train.zsum l)%Z.
Proof. induction 1; simpl; lia. Qed.

Lemma nth_nonneg (l : list Z) (i : nat) : nonneg l → (0 ≤ nth i l 0%Z)%Z.
Proof.
  intros H. rewrite nth_lookup. destruct (l !! i) as [x|] eqn:E; simpl; [|lia].
  by apply (Forall_lookup_1 _ _ _ _ H E).
Qed.

Lemma seq_map_lookup {B} (f : nat → B) (n c : nat) :
  c < n → map f (seq 0 n) !! c = Some (f c).
Proof.
  intros Hc. change (map f) with (fmap (M:=list) f).
  by rewrite list_lookup_fmap, lookup_seq_lt.
Qed.

Lemma dot_T_shape (num_feats num_classes : nat) (fm : list (list Z)) (cm : list (list bool)) :
  Forall nonneg fm →
  length (Train.dot_T num_feats num_classes fm cm) = num_feats
  ∧ Forall (fun row => length row = num_classes ∧ nonneg row)
           (Train.dot_T num_feats num_classes fm cm).
Proof.
  intros Hfm. unfold Train.dot_T. split; [by rewrite length_map, length_seq|].
  apply Forall_forall. intros row Hrow. apply list_elem_of_In, in_map_iff in Hrow as (f & <- & _).
  split; [by rewrite length_map, length_seq|].
  apply Forall_forall. intros x Hx. apply list_elem_of_In, in_map_iff in Hx as (c & <- & _).
  apply zsum_nonneg. clear -Hfm. revert cm.
  induction Hfm as [|row fm Hrow Hfm IH]; intros [|crow cm]; simpl; try constructor.
  - pose proof (nth_nonneg row f Hrow). destruct (nth c crow false); simpl; lia.
  - apply IH.
Qed.

Lemma replay_nonneg chunk_offsets num_feats base_f_id (fm fm' : list (list Z)) r :
  Forall nonneg fm → Train.replay chunk_offsets num_feats base_f_id fm r = Ok fm' →
  Forall nonneg fm'.
Proof.
  intros Hfm. rewrite replay_cell.
  destruct (cell_of _ _ _ _ r) as [[d f]|]; [|done]. intros [= <-].
  apply Forall_lookup. intros i row. rewrite list_lookup_alter.
  destruct (decide (d = i)) as [->|_].
  - destruct (fm !! i) as [row0|] eqn:E; [|done]. intros [= <-].
    apply Forall_insert; [|lia]. by apply (Forall_lookup_1 _ _ _ _ Hfm E).
  - intros E. by apply (Forall_lookup_1 _ _ _ _ Hfm E).
Qed.

Lemma replay_all_nonneg chunk_offsets num_feats base_f_id (rs : list Train.record) :
  ∀ fm fm', Forall nonneg fm →
  foldR (Train.replay chunk_offsets num_feats base_f_id) rs fm = Ok fm' → Forall nonneg fm'.
Proof.
  induction rs as [|r rs IH]; intros fm fm' Hfm; simpl; [by intros [= <-]|].
  intros E. apply bind_Ok in E as (fm1 & E1 & E). eapply IH; [|exact E].
  eapply replay_nonneg; eauto.
Qed.

Lemma pass2_shape cm num_classes chunk_offsets num_instances num_feats base_f_id files n prod :
  Train.pass2 cm num_classes chunk_offsets num_instances (num_feats, base_f_id, files)
    = Ok (n, prod) →
  n = length (concat files) ∧ length prod = num_feats
  ∧ Forall (fun row => length row = num_classes ∧ nonneg row) prod.
Proof.
  unfold Train.pass2. rewrite foldR_concat. intros E.
  apply bind_Ok in E as (fm & Efm & E). case_decide; [|done].
  injection E as <- <-. split; [done|]. apply dot_T_shape.
  eapply replay_all_nonneg; [|exact Efm].
  apply Forall_replicate, Forall_replicate. lia.
Qed.

Lemma offsets_length {A} (chunks : list (list A)) :
  length (Common.offsets chunks) = S (length chunks).
Proof.
  unfold Common.offsets. simpl. f_equal. generalize 0.
  induction chunks as [|c cs IH]; intros n; simpl; [done|]. by rewrite IH.
Qed.

Lemma map_fst_combine {A B} (l : list A) (k : list B) :
  length l ≤ length k → map fst (combine l k) = l.
Proof.
  revert k. induction l as [|x l IH]; intros [|y k] H; simpl in *; try done; try lia.
  f_equal. apply IH. lia.
Qed.

Lemma length_concat_sum {A} (ls : list (list A)) :
  length (concat ls) = list_sum (map length ls).
Proof. induction ls as [|l ls IH]; simpl; [done|]. by rewrite length_app, IH. Qed.

(** The count matrix has one row per feature and one column per
    class, and no negative entry. *)
Lemma generate_prod_shape job_count paths nb_features tk_nextmove state2feat cm num_classes prod :
  Train.generate_prod job_count paths nb_features tk_nextmove state2feat cm num_classes
    = Ok prod →
  length prod = length nb_features
  ∧ Forall (fun row => length row = num_classes ∧ nonneg row) prod.
Proof.
  unfold Train.generate_prod. intros E.
  apply bind_Ok in E as (q & _ & E). apply bind_Ok in E as (bm & _ & E).
  apply bind_Ok in E as (pass1_out & _ & E). apply bind_Ok in E as (pass2_out & E2 & E).
  case_decide; [done|]. injection E as <-.
  apply mapR_Ok_inv in E2.
  remember (Common.chunk nb_features Train.FEATS_PER_CHUNK) as feat_chunks eqn:Ec.
  remember (map (fun b => map (fun o => nth b (fst o) []) pass1_out)
                (seq 0 (length feat_chunks))) as b_dirs eqn:Eb.
  assert (Hargs : map (fun a => fst (fst a))
                      (combine (combine (map length feat_chunks) (Common.offsets feat_chunks)) b_dirs)
                  = map length feat_chunks).
  { rewrite <- (map_map fst fst), !map_fst_combine; [done| |].
    - rewrite length_map, offsets_length. lia.
    - rewrite length_combine, length_map, offsets_length, Eb, length_map, length_seq. lia. }
  assert (Hn : length nb_features = list_sum (map length feat_chunks)).
  { rewrite <- length_concat_sum, Ec, chunk_concat; [done|]. unfold Train.FEATS_PER_CHUNK. lia. }
  rewrite Hn, <- Hargs. clear -E2.
  induction E2 as [|[[nf base] files] [n prod] args outs Hx _ IH]; simpl; [done|].
  apply pass2_shape in Hx as (_ & Hl & Hrows). destruct IH as [IHl IHrows].
  rewrite length_app, Hl, IHl. split; [done|]. by apply Forall_app.
Qed.

(** ** The parameters *)

Lemma flog_of_Z_pos (z : Z) : (0 < z)%Z → flog (of_Z z) = Fin (ln (IZR z)).
Proof. intros Hz. apply flog_pos. by apply (IZR_lt 0). Qed.

Lemma class_sums_nth (num_classes : nat) (prod : list (list Z)) (c : nat) :
  c < num_classes →
  nth c (Train.class_sums num_classes prod) 0%Z
  = Train.zsum (map (fun row => nth c row 0%Z) prod).
Proof.
  intros Hc. unfold Train.class_sums. apply nth_lookup_Some.
  by apply (seq_map_lookup (fun c => Train.zsum (map (fun row => nth c row 0%Z) prod))).
Qed.

Lemma class_sum_nonneg (prod : list (list Z)) (c : nat) :
  Forall nonneg prod → (0 ≤ Train.zsum (map (fun row => nth c row 0%Z) prod))%Z.
Proof.
  intros H. apply zsum_nonneg. induction H as [|row prod Hrow _ IH]; simpl; constructor; [|done].
  by apply nth_nonneg.
Qed.

(** Entry [(t, c)] of the flattened parameter vector. *)
Lemma ptc_entry (num_features num_classes : nat) (prod : list (list Z)) (t c : nat) (row : list Z) :
  0 < num_features → Forall nonneg prod →
  prod !! t = Some row → c < num_classes →
  Train.ptc num_features num_classes prod !! (t * num_classes + c)
  = Some (Fin (ln (IZR (1 + nth c row 0%Z))
               - ln (IZR (Z.of_nat num_features
                          + Train.zsum (map (fun row => nth c row 0%Z) prod))))).
Proof.
  intros Hn Hprod Ht Hc. unfold Train.ptc.
  rewrite (concat_lookup_uniform num_classes) with
    (row := map (fun c => fsub (flog (of_Z (1 + nth c row 0%Z)))
                   (flog (of_Z (Z.of_nat num_features
                                + nth c (Train.class_sums num_classes prod) 0%Z))))
                (seq 0 num_classes)); [| | |done].
  - rewrite seq_map_lookup by done. rewrite class_sums_nth by done.
    pose proof (class_sum_nonneg prod c Hprod).
    pose proof (nth_nonneg row c (Forall_lookup_1 _ _ _ _ Hprod Ht)).
    rewrite !flog_of_Z_pos by lia. done.
  - apply Forall_forall. intros r Hr. apply list_elem_of_In, in_map_iff in Hr as (r0 & <- & _).
    by rewrite length_map, length_seq.
  - change (map ?f prod) with (fmap (M:=list) f prod).
    by rewrite list_lookup_fmap, Ht.
Qed.

(** C8.  When the counting part of [generate_ptc] produces the
    features-by-classes count matrix [prod], the parameter vector it
    returns holds at position [t * num_classes + c], for every term
    [t] and class [c], the value
    [log(1 + prod[t][c]) - log(num_features + sum over t' of prod[t'][c])]. *)
Theorem trained_parameters_formula (job_count : Z) (paths nb_features : list (list ascii))
    (tk_nextmove : list nat) (state2feat : gmap nat (list nat)) (cm : list (list bool))
    (num_classes : nat) (prod : list (list Z)) (t c : nat) :
  Train.generate_prod job_count paths nb_features tk_nextmove state2feat cm num_classes
    = Ok prod →
  t < length nb_features → c < num_classes →
  ∃ nb_ptc,
    Train.generate_ptc job_count paths nb_features tk_nextmove state2feat cm num_classes
      = Ok nb_ptc
    ∧ length nb_ptc = length nb_features * num_classes
    ∧ nb_ptc !! (t * num_classes + c)
      = Some (Fin (ln (IZR (1 + nth c (nth t prod []) 0%Z))
                   - ln (IZR (Z.of_nat (length nb_features)
                              + Train.zsum (map (fun row => nth c row 0%Z) prod))))).
Proof.
  intros E Ht Hc. unfold Train.generate_ptc. rewrite E, bind_Ok_l.
  destruct (generate_prod_shape _ _ _ _ _ _ _ _ E) as [Hl Hrows].
  eexists. split; [done|]. split.
  - unfold Train.ptc. rewrite (concat_length_uniform num_classes).
    + by rewrite length_map, Hl.
    + apply Forall_forall. intros r Hr. apply list_elem_of_In, in_map_iff in Hr as (r0 & <- & _).
      by rewrite length_map, length_seq.
  - destruct (lookup_lt_is_Some_2 prod t) as [row Hrow]; [lia|].
    rewrite (nth_lookup_Some _ _ _ _ Hrow).
    apply ptc_entry; [lia| |done|done].
    eapply Forall_impl; [exact Hrows|]. by intros r [_ ?].
Qed.

Lemma trained_parameters_formula_witness :
  ∃ nb_ptc,
    Train.generate_ptc 1 sample_texts sample_feats sample_nm sample_state2feat sample_cm 2
      = Ok nb_ptc
    ∧ length nb_ptc = length sample_feats * 2
    ∧ nb_ptc !! (1 * 2 + 0)
      = Some (Fin (ln (IZR (1 + nth 0 (nth 1 [[2; 2]; [1; 1]]%Z []) 0%Z))
                   - ln (IZR (Z.of_nat (length sample_feats)
                              + Train.zsum (map (fun row => nth 0 row 0%Z) [[2; 2]; [1; 1]]%Z))))).
Proof.
  apply (trained_parameters_formula 1 sample_texts sample_feats sample_nm sample_state2feat
           sample_cm 2 [[2; 2]; [1; 1]]%Z 1 0).
  - vm_compute. reflexivity.
  - simpl. lia.
  - lia.
Defined.

(** C9.  On a corpus of three documents the count matrix, and with it
    the parameter vector, depends on the size of the worker pool: with
    one worker the documents are counted, with two workers the chunk
    size [len(paths) / (job_count * 2)] is zero, no document is read
    and every count is zero. *)
Theorem parameters_depend_on_job_count :
  Train.build_scanner sample_feats = Ok (sample_nm, sample_state2feat)
  ∧ Train.generate_prod 1 sample_texts sample_feats sample_nm sample_state2feat sample_cm 2
    = Ok [[2; 2]; [1; 1]]%Z
  ∧ Train.generate_prod 2 sample_texts sample_feats sample_nm sample_state2feat sample_cm 2
    = Ok [[0; 0]; [0; 0]]%Z
  ∧ Train.generate_ptc 1 sample_texts sample_feats sample_nm sample_state2feat sample_cm 2
    ≠ Train.generate_ptc 2 sample_texts sample_feats sample_nm sample_state2feat sample_cm 2.
Proof.
  assert (E1 : Train.generate_prod 1 sample_texts sample_feats sample_nm sample_state2feat
                 sample_cm 2 = Ok [[2; 2]; [1; 1]]%Z) by (vm_compute; reflexivity).
  assert (E2 : Train.generate_prod 2 sample_texts sample_feats sample_nm sample_state2feat
                 sample_cm 2 = Ok [[0; 0]; [0; 0]]%Z) by (vm_compute; reflexivity).
  split; [vm_compute; reflexivity|]. split; [done|]. split; [done|].
  intros H.
  destruct (trained_parameters_formula _ _ _ _ _ _ _ _ 0 0 E1) as (v1 & V1 & _ & L1);
    [simpl; lia | lia |].
  destruct (trained_parameters_formula _ _ _ _ _ _ _ _ 0 0 E2) as (v2 & V2 & _ & L2);
    [simpl; lia | lia |].
  rewrite V1, V2 in H. injection H as ->. rewrite L1 in L2. injection L2 as L.
  simpl in L.
  change (1 + 2)%Z with 3%Z in L. change (Z.of_nat 2 + (2 + (1 + 0)))%Z with 5%Z in L.
  change (1 + 0)%Z with 1%Z in L. change (Z.of_nat 2 + (0 + (0 + 0)))%Z with 2%Z in L.
  rewrite ln_1 in L.
  assert (L' : ln (3 * 2) = ln 5).
  { rewrite ln_mult by lra. lra. }
  apply ln_inv in L'; lra.
Qed.

(** * The helpers: [chunk], [offsets], [index] *)

Section ChunkShape.
Context {A : Type}.

Lemma chunk_fuel_lookup (c : nat) : 0 < c → ∀ fuel (it : list A),
  length it < fuel →
  ∃ chunks, Common.chunk_fuel fuel it c = Some chunks
    ∧ ∀ i, chunks !! i = if decide (i * c < length it)
                         then Some (firstn c (skipn (i * c) it)) else None.
Proof.
  intros Hc. induction fuel as [|fuel IH]; intros it Hf; [lia|].
  simpl. rewrite take_chunk_spec.
  destruct it as [|x it].
  - rewrite firstn_nil. cbn [length Nat.eqb]. exists []. split; [done|].
    intros i. destruct (decide (i * c < 0)); [lia|done].
  - destruct c as [|c]; [lia|]. cbn [firstn length Nat.eqb].
    destruct (IH (skipn (S c) (x :: it))) as (chunks & -> & E).
    { rewrite length_skipn. simpl in *. lia. }
    eexists. split; [done|]. intros [|i].
    + rewrite decide_True by (simpl; lia). done.
    + cbn [lookup list_lookup]. rewrite E, length_skipn.
      replace (S i * S c) with (S c + i * S c) by lia.
      rewrite skipn_skipn. replace (i * S c + S c) with (S c + i * S c) by lia.
      cbn [length].
      destruct (decide (i * S c < S (length it) - S c)),
               (decide (S c + i * S c < S (length it))); try lia; done.
Qed.

Lemma chunk_lookup (sq : list A) (c i : nat) : 0 < c →
  Common.chunk sq c !! i
  = if decide (i * c < length sq) then Some (firstn c (skipn (i * c) sq)) else None.
Proof.
  intros Hc. unfold Common.chunk.
  destruct (chunk_fuel_lookup c Hc (S (length sq)) sq) as (chunks & -> & E); [lia|].
  apply E.
Qed.

Lemma chunk_zero (sq : list A) : Common.chunk sq 0 = [].
Proof. unfold Common.chunk. simpl. done. Qed.

Lemma offsets_from_lookup (chunks : list (list A)) : ∀ last i,
  i < length chunks →
  Common.offsets_from last chunks !! i = Some (last + length (concat (firstn (S i) chunks))).
Proof.
  induction chunks as [|c cs IH]; intros last i Hi; simpl in *; [lia|].
  destruct i as [|i]; simpl.
  - by rewrite app_nil_r.
  - rewrite IH by lia. simpl. rewrite !length_app. f_equal. lia.
Qed.

Lemma offsets_lookup (chunks : list (list A)) (i : nat) :
  i ≤ length chunks →
  Common.offsets chunks !! i = Some (length (concat (firstn i chunks))).
Proof.
  intros Hi. unfold Common.offsets. destruct i as [|i]; [done|].
  cbn [lookup list_lookup]. rewrite offsets_from_lookup by lia. done.
Qed.

End ChunkShape.

(** X1.  For a positive chunk size, chunk [i] of [chunk(seq, chunksize)]
    is [seq[i*chunksize : (i+1)*chunksize]] for every [i] with
    [i*chunksize < len(seq)], and there are no other chunks: the
    chunks are consecutive, non-empty, of at most [chunksize] items
    and together give back the sequence. *)
Theorem chunk_is_consecutive_slices {A} (sq : list A) (chunksize : nat) :
  0 < chunksize →
  (∀ i, Common.chunk sq chunksize !! i
        = if decide (i * chunksize < length sq)
          then Some (firstn chunksize (skipn (i * chunksize) sq)) else None)
  ∧ concat (Common.chunk sq chunksize) = sq
  ∧ Forall (fun c => 1 ≤ length c ≤ chunksize) (Common.chunk sq chunksize).
Proof.
  intros Hc. split; [intros i; by apply chunk_lookup|]. split; [by apply chunk_concat|].
  apply Forall_lookup. intros i c. rewrite chunk_lookup by done.
  case_decide; [|done]. intros [= <-].
  rewrite length_firstn, length_skipn. lia.
Qed.

Lemma chunk_is_consecutive_slices_witness :
  (∀ i, Common.chunk [1; 2; 3; 4; 5] 2 !! i
        = if decide (i * 2 < length [1; 2; 3; 4; 5])
          then Some (firstn 2 (skipn (i * 2) [1; 2; 3; 4; 5])) else None)
  ∧ concat (Common.chunk [1; 2; 3; 4; 5] 2) = [1; 2; 3; 4; 5]
  ∧ Forall (fun c => 1 ≤ length c ≤ 2) (Common.chunk [1; 2; 3; 4; 5] 2).
Proof. apply (chunk_is_consecutive_slices [1; 2; 3; 4; 5] 2). lia. Defined.

(** X2.  [offsets(chunks)] has one entry more than there are chunks;
    entry [i] is the number of items in the chunks before chunk [i],
    so the first is 0 and the last is the total number of items. *)
Theorem offsets_are_running_totals {A} (chunks : list (list A)) :
  length (Common.offsets chunks) = S (length chunks)
  ∧ (∀ i, i ≤ length chunks →
       Common.offsets chunks !! i = Some (length (concat (firstn i chunks))))
  ∧ List.last (Common.offsets chunks) 0 = length (concat chunks).
Proof.
  split; [apply offsets_length|]. split; [intros i; apply offsets_lookup|].
  rewrite <- (firstn_all chunks) at 2.
  pose proof (offsets_lookup chunks (length chunks) (Nat.le_refl _)) as E.
  pose proof (offsets_length chunks) as Hl.
  destruct (Common.offsets chunks) as [|o os] eqn:Eo using rev_ind; [simpl in Hl; lia|].
  rewrite last_last. rewrite length_app in Hl. simpl in Hl.
  rewrite lookup_app_r in E by lia.
  replace (length chunks - length os) with 0 in E by lia. simpl in E. congruence.
Qed.

Lemma offsets_are_running_totals_witness :
  length (Common.offsets [[1; 2]; [3; 4]; [5]]) = S (length [[1; 2]; [3; 4]; [5]])
  ∧ Common.offsets [[1; 2]; [3; 4]; [5]] !! 2
    = Some (length (concat (firstn 2 [[1; 2]; [3; 4]; [5]])))
  ∧ List.last (Common.offsets [[1; 2]; [3; 4]; [5]]) 0 = length (concat [[1; 2]; [3; 4]; [5]]).
Proof.
  destruct (offsets_are_running_totals [[1; 2]; [3; 4]; [5]]) as (H1 & H2 & H3).
  split; [exact H1|]. split; [apply H2; simpl; lia | exact H3].
Defined.

Lemma enumerate_lookup {A} (l : list A) (i : nat) :
  Common.enumerate l !! i = (fun x => (i, x)) <$> l !! i.
Proof.
  unfold Common.enumerate.
  assert (G : ∀ s, combine (seq s (length l)) l !! i = (fun x => (s + i, x)) <$> l !! i).
  { revert i. induction l as [|x l IH]; intros i s; simpl; [done|].
    destruct i as [|i]; simpl; [by rewrite Nat.add_0_r|].
    rewrite IH. destruct (l !! i); simpl; [|done]. do 2 f_equal. lia. }
  apply (G 0).
Qed.

(** X3.  On a sequence without repeated items [index(seq)] is the
    inverse of indexing: [index(seq)[k] == i] exactly when
    [seq[i] == k]; an item that is not in the sequence is no key. *)
Theorem index_inverts_positions `{Countable K} (sq : list K) (k : K) (i : nat) :
  NoDup sq → (Common.index sq !! k = Some i ↔ sq !! i = Some k).
Proof.
  intros ND. unfold Common.index.
  assert (G : ∀ (l : list (nat * K)) (d : gmap K nat),
            NoDup (map snd l) →
            (fold_left (fun d '(v, k) => <[k := v]> d) l d !! k = Some i
             ↔ (i, k) ∈ l ∨ (k ∉ map snd l ∧ d !! k = Some i))).
  { induction l as [|[v k'] l IH]; intros d NDl; simpl in *.
    - split; [intros E; right; split; [apply not_elem_of_nil|done]|].
      intros [E|[_ E]]; [by apply elem_of_nil in E|done].
    - apply NoDup_cons in NDl as [Hk' NDl]. rewrite IH by done.
      rewrite elem_of_cons, not_elem_of_cons. split.
      + intros [E|[Hn E]]; [left; by right|].
        destruct (decide (k' = k)) as [->|Hne].
        * rewrite lookup_insert_eq in E. injection E as ->. left. by left.
        * rewrite lookup_insert_ne in E by done. right. by repeat split.
      + intros [[E|E]|[[Hne Hn] E]].
        * injection E as -> ->. right. split; [done|]. by rewrite lookup_insert_eq.
        * by left.
        * right. split; [done|]. by rewrite lookup_insert_ne. }
  rewrite G by (by rewrite snd_enumerate).
  rewrite lookup_empty, list_elem_of_lookup. split.
  - intros [(j & E)|[_ E]]; [|done]. rewrite enumerate_lookup in E.
    destruct (sq !! j) as [x|] eqn:Ex; simpl in E; [|done]. by injection E as <- <-.
  - intros E. left. exists i. by rewrite enumerate_lookup, E.
Qed.

Lemma index_inverts_positions_witness :
  Common.index ["b"; "a"; "c"]%char !! "a"%char = Some 1
  ↔ ["b"; "a"; "c"]%char !! 1 = Some "a"%char.
Proof.
  apply (index_inverts_positions ["b"; "a"; "c"]%char "a"%char 1).
  repeat (apply NoDup_cons; split; [set_solver|]). apply NoDup_nil_2.
Defined.

(** * More on the tokenizer, [pass3] and the selection *)

(** X4.  When the document has at least [max_order - 1] characters,
    [Tokenizer(max_order)] finishes and yields exactly the n-grams of
    orders 1 to [max_order]: every token is a contiguous slice of such
    a length, and every such slice is a token. *)
Theorem tokenizer_yields_ngrams_of_long_input {A} (max_order : nat) (sq : list A) :
  1 ≤ max_order → max_order ≤ S (length sq) →
  ∃ tokens, Tokenizer.call max_order sq = Ok tokens
    ∧ ∀ tok, tok ∈ tokens ↔ Tokenizer.is_ngram max_order sq tok.
Proof. apply tokenizer_long_input. Qed.

Lemma tokenizer_yields_ngrams_of_long_input_witness :
  ∃ tokens, Tokenizer.call 2 ["a"; "b"; "c"]%char = Ok tokens
    ∧ ∀ tok, tok ∈ tokens ↔ Tokenizer.is_ngram 2 ["a"; "b"; "c"]%char tok.
Proof.
  apply (tokenizer_yields_ngrams_of_long_input 2 ["a"; "b"; "c"]%char); simpl; lia.
Defined.

(** X5.  When the document has fewer than [max_order - 1] characters,
    advancing the copies of the iterator runs off its end and the
    tokenizer finishes without a token. *)
Theorem tokenizer_yields_nothing_on_short_input {A} (max_order : nat) (sq : list A) :
  S (length sq) < max_order → Tokenizer.call max_order sq = Ok [].
Proof. apply tokenizer_short_input. Qed.

Lemma tokenizer_yields_nothing_on_short_input_witness :
  Tokenizer.call 4 ["a"; "b"]%char = Ok [].
Proof.
  apply (tokenizer_yields_nothing_on_short_input 4 ["a"; "b"]%char). simpl. lia.
Defined.

(** X26.  [Tokenizer(0)] never finishes: with no iterator to run
    out, every round of its [while True] loop finds the empty token
    as long as it should be and yields nothing, so no number of
    rounds ends the loop. *)
Theorem tokenizer_never_finishes_at_order_zero {A} (sq : list A) :
  (∀ fuel, Tokenizer.call_fuel fuel 0 sq = None)
  ∧ Tokenizer.call 0 sq = Raise OutOfFuel.
Proof.
  assert (G : ∀ fuel, Tokenizer.call_fuel fuel 0 sq = None).
  { intros fuel. unfold Tokenizer.call_fuel. cbn [repeat Tokenizer.advance_all].
    apply main_loop_order_zero. }
  split; [exact G|]. unfold Tokenizer.call. by rewrite G.
Qed.

(** X6.  For [feats_per_lang >= 1], a successful [select_LD_features]
    returns exactly the terms at the last [feats_per_lang] indices of
    each language's [argsort]; every selected term is one of the terms
    returned by [pass3], and there are at most
    (number of languages) * [feats_per_lang] of them. *)
Theorem selection_for_positive_feats_per_lang {score} (argsort : list score → list nat)
    (lang_rows : list nat)
    (pass3_out : list (list (list ascii) * list (list score) * list score))
    (feats_per_lang : Z) (fs : gset (list ascii)) :
  (1 ≤ feats_per_lang)%Z →
  Select.select_LD_features argsort lang_rows pass3_out feats_per_lang = Ok fs →
  (∀ tok, tok ∈ fs ↔
      ∃ row, row ∈ lang_rows
        ∧ chosen argsort feats_per_lang (concat (map (fun o => fst (fst o)) pass3_out))
            (Select.hstack (length lang_rows) (map (fun o => snd (fst o)) pass3_out)) row tok)
  ∧ (∀ tok, tok ∈ fs → tok ∈ concat (map (fun o => fst (fst o)) pass3_out))
  ∧ size fs ≤ length lang_rows * Z.to_nat feats_per_lang.
Proof.
  intros Hn E. destruct (select_positive _ _ _ _ _ E) as (H1 & H2 & H3). auto.
Qed.

Lemma selection_for_positive_feats_per_lang_witness :
  (∀ tok, tok ∈ (list_to_set [["a"]; ["b"]]%char : gset (list ascii)) ↔
      ∃ row, row ∈ [0; 1]
        ∧ chosen Select.argsort_Z 1 (concat (map (fun o => fst (fst o)) sample_pass3_out))
            (Select.hstack (length [0; 1]) (map (fun o => snd (fst o)) sample_pass3_out))
            row tok)
  ∧ (∀ tok, tok ∈ (list_to_set [["a"]; ["b"]]%char : gset (list ascii)) →
       tok ∈ concat (map (fun o => fst (fst o)) sample_pass3_out))
  ∧ size (list_to_set [["a"]; ["b"]]%char : gset (list ascii)) ≤ length [0; 1] * Z.to_nat 1.
Proof.
  apply (selection_for_positive_feats_per_lang Select.argsort_Z [0; 1] sample_pass3_out 1
           (list_to_set [["a"]; ["b"]]%char)).
  - lia.
  - vm_compute. reflexivity.
Defined.

(** ** The presence masks of [pass3] *)

Lemma presence_fold (num_inst : nat) (docids : list nat) : ∀ col,
  length col = num_inst → Forall (fun d => d < num_inst) docids →
  ∃ col', foldR (fun col docid => if decide (docid < num_inst)
                                  then Ok (<[docid := true]> col)
                                  else Raise IndexError) docids col = Ok col'
    ∧ length col' = num_inst
    ∧ ∀ d, col' !! d = Some true ↔ (col !! d = Some true ∨ d ∈ docids).
Proof.
  induction docids as [|x docids IH]; intros col Hl Hd; simpl.
  - exists col. split; [done|]. split; [done|]. intros d. split; [by left|].
    intros [?|Hx]; [done|]. by apply elem_of_nil in Hx.
  - apply Forall_cons in Hd as [Hx Hd]. rewrite decide_True by done. rewrite bind_Ok_l.
    destruct (IH (<[x := true]> col)) as (col' & -> & Hl' & Hm);
      [by rewrite length_insert | done |].
    exists col'. split; [done|]. split; [done|]. intros d. rewrite Hm, elem_of_cons.
    destruct (decide (d = x)) as [->|Hne].
    + rewrite list_lookup_insert_eq by lia. split; [intros _; right; by left|by left].
    + rewrite list_lookup_insert_ne by done. split.
      * intros [?|?]; [by left|right; by right].
      * intros [?|[?|?]]; [by left|done|by right].
Qed.

(** X7.  The column [pass3] builds for a term has one entry per
    document; the entry of a document is [True] exactly when the
    document is in the term's list.  A document number outside the
    matrix raises IndexError. *)
Theorem presence_marks_listed_documents (num_inst : nat) (docids : list nat) :
  (Forall (fun d => d < num_inst) docids →
     ∃ col, Select.presence num_inst docids = Ok col
       ∧ length col = num_inst
       ∧ ∀ d, col !! d = Some true ↔ d ∈ docids)
  ∧ (Exists (fun d => num_inst ≤ d) docids →
       Select.presence num_inst docids = Raise IndexError).
Proof.
  unfold Select.presence. split.
  - intros Hd.
    destruct (presence_fold num_inst docids (replicate num_inst false))
      as (col & -> & Hl & Hm); [by rewrite length_replicate | done |].
    exists col. split; [done|]. split; [done|]. intros d. rewrite Hm. split; [|by right].
    intros [E|?]; [|done]. apply lookup_replicate in E as [? _]. done.
  - generalize (replicate num_inst false).
    induction docids as [|x docids IH]; intros col Hx; [by apply Exists_nil in Hx|].
    simpl. destruct (decide (x < num_inst)) as [Hlt|Hge]; [|done].
    rewrite bind_Ok_l. apply IH. apply Exists_cons in Hx as [?|?]; [lia|done].
Qed.

(** ** The shape of the result of [pass3] *)

Lemma add_postings_Ok features chunk_offsets num_inst m (r : list ascii * nat * list nat) :
  (fst (fst r) ∈ features →
     ∃ off, chunk_offsets !! snd (fst r) = Some off ∧ Forall (fun d => d + off < num_inst) (snd r)) →
  map_Forall (fun _ docs => Forall (fun d => d < num_inst) docs) m →
  ∃ m', Select.add_postings features chunk_offsets m r = Ok m'
        ∧ map_Forall (fun _ docs => Forall (fun d => d < num_inst) docs) m'.
Proof.
  destruct r as [[key chunk_id] docids]. simpl. intros Hr Hm. unfold Select.add_postings.
  destruct (decide (key ∈ features)) as [Hk|Hk]; [|by eauto].
  destruct (Hr Hk) as (off & -> & Hd). eexists. split; [done|].
  clear Hr. revert m Hm. induction Hd as [|d docids Hx Hd IH]; intros m Hm; simpl; [done|].
  apply IH. apply map_Forall_insert_2; [|done].
  apply Forall_app. split; [|by repeat constructor].
  destruct (m !! key) as [docs|] eqn:E; simpl; [|done]. by apply (Hm key).
Qed.

Lemma term_doc_map_fold features chunk_offsets num_inst
    (files : list (list (list ascii * nat * list nat))) :
  Forall (Forall (fun r : list ascii * nat * list nat =>
            fst (fst r) ∈ features →
            ∃ off, chunk_offsets !! snd (fst r) = Some off
                   ∧ Forall (fun d => d + off < num_inst) (snd r))) files →
  ∀ m0, map_Forall (fun _ docs => Forall (fun d => d < num_inst) docs) m0 →
  ∃ m, foldR (fun m file => foldR (Select.add_postings features chunk_offsets) file m)
             files m0 = Ok m
       ∧ map_Forall (fun _ docs => Forall (fun d => d < num_inst) docs) m.
Proof.
  induction 1 as [|file files Hfile _ IH]; intros m0 Hm0; simpl; [by eauto|].
  assert (G : ∃ m1, foldR (Select.add_postings features chunk_offsets) file m0 = Ok m1
                    ∧ map_Forall (fun _ docs => Forall (fun d => d < num_inst) docs) m1).
  { clear IH. revert m0 Hm0. induction Hfile as [|r file Hr _ IHf]; intros m0 Hm0; simpl;
      [by eauto|].
    destruct (add_postings_Ok _ _ _ _ _ Hr Hm0) as (m1 & -> & Hm1). rewrite bind_Ok_l.
    by apply IHf. }
  destruct G as (m1 & -> & Hm1). rewrite bind_Ok_l. by apply IH.
Qed.

(** X8.  When the bucket's records for candidate features name only
    known chunks and documents inside the corpus, and there is at
    least one language, [pass3] succeeds; the terms it returns are
    distinct candidate features, [w_domain] has one score per term
    and [w_lang] one row per language with one score per term. *)
Theorem pass3_scores_each_candidate_term_once (features : gset (list ascii))
    (chunk_offsets : list nat) (num_domains num_langs : nat)
    (cm_domain cm_lang : list (list bool)) (b : DocFreq.bucket) :
  0 < num_langs →
  Forall (Forall (fun r : list ascii * nat * list nat =>
            fst (fst r) ∈ features →
            ∃ off, chunk_offsets !! snd (fst r) = Some off
                   ∧ Forall (fun d => d + off < List.last chunk_offsets 0) (snd r)))
         (DocFreq.list_files b) →
  ∃ terms w_lang w_domain,
    Select.pass3 features chunk_offsets num_domains num_langs cm_domain cm_lang b
      = Ok (terms, w_lang, w_domain)
    ∧ NoDup terms
    ∧ (∀ t, t ∈ terms → t ∈ features)
    ∧ length w_domain = length terms
    ∧ length w_lang = num_langs
    ∧ Forall (fun row => length row = length terms) w_lang.
Proof.
  intros Hn Hb. unfold Select.pass3.
  destruct (term_doc_map_fold _ _ _ _ Hb ∅) as (m & Em & Hm); [apply map_Forall_empty|].
  change (foldR _ (DocFreq.list_files b) ∅) with (Select.term_doc_map features chunk_offsets b) in Em.
  rewrite Em, bind_Ok_l.
  destruct (mapR_Ok (fun kv : list ascii * list nat =>
                       Select.presence (List.last chunk_offsets 0) (snd kv)) (map_to_list m))
    as (feature_map & -> & HF).
  { intros [k docs] Hk. apply elem_of_map_to_list in Hk. simpl.
    destruct (presence_fold (List.last chunk_offsets 0) docs
                (replicate (List.last chunk_offsets 0) false)) as (col & E & _);
      [by rewrite length_replicate | by apply (Hm k) | by exists col]. }
  rewrite bind_Ok_l. destruct (decide (num_langs = 0)); [lia|].
  apply Forall2_length in HF.
  eexists _, _, _. split; [done|]. split; [apply NoDup_fst_map_to_list|]. split.
  - intros t Ht. apply list_elem_of_In, in_map_iff in Ht as ([k docs] & <- & Hk).
    apply list_elem_of_In, elem_of_map_to_list in Hk.
    eapply term_doc_map_candidates; [exact Em|]. by eexists.
  - rewrite !length_map, length_seq. split; [done|]. split; [done|].
    apply Forall_forall. intros row Hrow.
    apply list_elem_of_In, in_map_iff in Hrow as (l & <- & _).
    unfold Gain.lang_scores. by rewrite length_map.
Qed.

Lemma pass3_scores_each_candidate_term_once_witness :
  ∃ terms w_lang w_domain,
    Select.pass3 {[ ["a"]%char ]} [0; 2] 1 2 [[true]; [true]] [[true; false]; [false; true]]
      {| DocFreq.freq_files := [];
         DocFreq.list_files := [[(["a"]%char, 0, [0; 1]); (["b"]%char, 0, [1])]] |}
      = Ok (terms, w_lang, w_domain)
    ∧ NoDup terms
    ∧ (∀ t, t ∈ terms → t ∈ ({[ ["a"]%char ]} : gset (list ascii)))
    ∧ length w_domain = length terms
    ∧ length w_lang = 2
    ∧ Forall (fun row => length row = length terms) w_lang.
Proof.
  apply (pass3_scores_each_candidate_term_once {[ ["a"]%char ]} [0; 2] 1 2
           [[true]; [true]] [[true; false]; [false; true]]
           {| DocFreq.freq_files := [];
              DocFreq.list_files := [[(["a"]%char, 0, [0; 1]); (["b"]%char, 0, [1])]] |}).
  - lia.
  - repeat constructor; simpl; intros _; exists 0; (split; [reflexivity|]);
      repeat constructor; simpl; lia.
Defined.

(** * More on the scanner: construction, the array scan, pickling *)

(** ** First letters of the keywords and the root *)

Lemma walk_ge g n : trie g n → ∀ a state s' rest,
  Scanner.walk g state a = (s', rest) → state ≤ s'.
Proof.
  intros T. induction a as [|c a IH]; intros state s' rest E; simpl in E.
  - by injection E as <- _.
  - destruct (g !! (state, c)) as [s|] eqn:G.
    + apply IH in E. apply (tr_lt _ _ T) in G. lia.
    + by injection E as <- _.
Qed.

Lemma extend_other : ∀ a g n state g' n' s' r x,
  Scanner.extend g n state a = (g', n', s') →
  r ≤ n → (r, Some x) ≠ (state, head a) → g' !! (r, x) = g !! (r, x).
Proof.
  induction a as [|c a IH]; intros g n state g' n' s' r x E Hr Hne; simpl in E.
  - by injection E as <- _ _.
  - rewrite (IH _ _ _ _ _ _ r x E); [| lia |].
    + rewrite lookup_insert_ne; [done|]. intros [= -> ->]. by apply Hne.
    + intros [= -> _]. lia.
Qed.

Lemma enter_root_edge g out n a g' out' n' a0 :
  trie g n → head a ≠ Some a0 →
  Scanner.enter (g, out, n) a = (g', out', n') →
  g' !! (0, a0) = g !! (0, a0).
Proof.
  intros T Ha. unfold Scanner.enter.
  destruct (Scanner.walk g 0 a) as [state rest] eqn:W.
  destruct (Scanner.extend g n state rest) as [[g1 n1] s1] eqn:X.
  intros [= <- _ _]. eapply extend_other; [exact X | lia |].
  intros [= <- Hh]. destruct a as [|c a]; simpl in *.
  - by simplify_eq.
  - destruct (g !! (0, c)) as [s|] eqn:G.
    + apply (walk_ge _ _ T) in W. apply (tr_lt _ _ T) in G. lia.
    + simplify_eq.
Qed.

Lemma build_trie_root_edge a0 : ∀ keywords g out n g' out' n',
  trie g n → Forall (fun kw => head kw ≠ Some a0) keywords →
  fold_left Scanner.enter keywords (g, out, n) = (g', out', n') →
  g' !! (0, a0) = g !! (0, a0).
Proof.
  induction keywords as [|a keywords IH]; intros g out n g' out' n' T HF E;
    cbn [fold_left] in E.
  - by simplify_eq.
  - apply Forall_cons in HF as [Ha HF].
    destruct (Scanner.enter (g, out, n) a) as [[g1 out1] n1] eqn:E1.
    rewrite (IH _ _ _ _ _ _ (enter_spec _ _ _ _ _ _ _ T E1) HF E).
    by eapply enter_root_edge.
Qed.

(** The tables of a successful [build], with the facts kept about
    them, for keywords none of which begins with [a0]. *)
Lemma build_with_free_letter (keywords : list (list ascii)) (a0 : ascii) (sc : Scanner.scanner) :
  Forall (fun kw => head kw ≠ Some a0) keywords →
  Scanner.build keywords = Ok sc →
  ∃ n L, built sc n L
    ∧ Scanner.compile_nm_arr (Scanner.nextmove sc) = Ok (Scanner.nm_arr sc)
    ∧ Scanner.state_count (Scanner.nextmove sc) = S n.
Proof.
  intros HF E.
  destruct (build_tables keywords)
    as (g0 & out0 & g & fail & n & nm & out & L & E0 & Eg & HB & Hbuild).
  rewrite Hbuild in E. apply bind_Ok in E as (arr & Harr & [= <-]).
  exists n, L. split; [apply HB|]. split; [done|].
  apply (built_count_full _ n L (HB arr) a0). cbn [Scanner.goto]. subst g.
  rewrite complete_root_lookup.
  rewrite (build_trie_root_edge a0 _ _ _ _ _ _ _ trie_empty HF E0), lookup_empty.
  by rewrite decide_True.
Qed.

(** ** The scan over the array *)

(** [state_trace] makes the lookups of [trace_from] and counts the
    states entered. *)
Lemma state_trace_from_trace (nm : list nat) : ∀ text state c,
  Train.state_trace_from nm state c text
  = (tr ← Scanner.trace_from nm state text;
     Ok (fold_left (fun c s => <[s := S (default 0 (c !! s))]> c) tr c)).
Proof.
  induction text as [|letter rest IH]; intros state c; simpl; [done|].
  destruct (nm !! (state * 256 + nat_of_ascii letter)) as [state'|]; [|done].
  rewrite IH. destruct (Scanner.trace_from nm state' rest); done.
Qed.

Lemma trace_from_length (nm : list nat) : ∀ text state tr,
  Scanner.trace_from nm state text = Ok tr → length tr = length text.
Proof.
  induction text as [|letter rest IH]; intros state tr; simpl.
  - by intros [= <-].
  - destruct (nm !! _) as [state'|]; [|done]. intros E.
    apply bind_Ok in E as (tr' & E & [= <-]). simpl. f_equal. by eapply IH.
Qed.

Lemma bump_counts (tr : list nat) : ∀ (c : gmap nat nat) s,
  default 0 (fold_left (fun c s => <[s := S (default 0 (c !! s))]> c) tr c !! s)
  = default 0 (c !! s) + count_occ Nat.eq_dec tr s.
Proof.
  induction tr as [|x tr IH]; intros c s; simpl; [lia|].
  rewrite IH. destruct (Nat.eq_dec x s) as [->|Hne].
  - rewrite lookup_insert_eq. simpl. lia.
  - by rewrite lookup_insert_ne.
Qed.

Lemma bump_dom (tr : list nat) : ∀ (c : gmap nat nat) s,
  is_Some (fold_left (fun c s => <[s := S (default 0 (c !! s))]> c) tr c !! s)
  ↔ is_Some (c !! s) ∨ s ∈ tr.
Proof.
  induction tr as [|x tr IH]; intros c s; simpl.
  - split; [by left|]. intros [?|H]; [done|]. by apply elem_of_nil in H.
  - rewrite IH, elem_of_cons, lookup_insert_is_Some. split.
    + intros [[->|[_ ?]]|?]; auto.
    + intros [?|[->|?]]; auto. destruct (decide (x = s)); auto.
Qed.

(** X9.  [state_trace] counts how often each state is entered: when
    the scan stays inside the array, the states entered are one per
    character of the text, the count of a state is the number of
    times it occurs among them, and only states that were entered
    have a count. *)
Theorem state_trace_counts_states_entered (nm : list nat) (text : list ascii)
    (c : gmap nat nat) :
  Train.state_trace nm text = Ok c →
  ∃ tr, Scanner.trace_from nm 0 text = Ok tr
    ∧ length tr = length text
    ∧ (∀ s, default 0 (c !! s) = count_occ Nat.eq_dec tr s)
    ∧ (∀ s, is_Some (c !! s) ↔ s ∈ tr).
Proof.
  unfold Train.state_trace. rewrite state_trace_from_trace. intros E.
  apply bind_Ok in E as (tr & Etr & [= <-]). exists tr. split; [done|].
  split; [by eapply trace_from_length|]. split.
  - intros s. by rewrite bump_counts, lookup_empty.
  - intros s. rewrite bump_dom, lookup_empty. split; [|by right].
    intros [[? ?]|?]; done.
Qed.

Lemma state_trace_counts_states_entered_witness :
  ∃ tr, Scanner.trace_from sample_nm 0 ["a"; "a"; "b"]%char = Ok tr
    ∧ length tr = length ["a"; "a"; "b"]%char
    ∧ (∀ s, default 0 (({[1 := 2; 2 := 1]} : gmap nat nat) !! s) = count_occ Nat.eq_dec tr s)
    ∧ (∀ s, is_Some (({[1 := 2; 2 := 1]} : gmap nat nat) !! s) ↔ s ∈ tr).
Proof.
  apply (state_trace_counts_states_entered sample_nm ["a"; "a"; "b"]%char {[1 := 2; 2 := 1]}).
  vm_compute. reflexivity.
Defined.

(** X10.  When some byte begins no keyword, the array of a built
    scanner has a row for every state: [state_trace] over any text
    succeeds, never indexing outside the array, and every state it
    enters is a state of the automaton. *)
Theorem state_trace_stays_inside_array (keywords : list (list ascii)) (a0 : ascii)
    (sc : Scanner.scanner) (text : list ascii) :
  Forall (fun kw => head kw ≠ Some a0) keywords →
  Scanner.build keywords = Ok sc →
  length (Scanner.nm_arr sc) = Scanner.states sc * 256
  ∧ ∃ c, Train.state_trace (Scanner.nm_arr sc) text = Ok c
      ∧ ∀ s, is_Some (c !! s) → s < Scanner.states sc.
Proof.
  intros HF E. destruct (build_with_free_letter _ _ _ HF E) as (n & L & HB & Harr & Hcnt).
  rewrite (b_states _ _ _ HB). split.
  - destruct (compile_rows _ _ Harr) as [-> _]. by rewrite Hcnt.
  - destruct (built_trace_total sc n L HB _ Harr Hcnt text 0) as (tr & Htr & Hall); [lia|].
    unfold Train.state_trace. rewrite state_trace_from_trace, Htr, bind_Ok_l.
    eexists. split; [done|]. intros s Hs. apply bump_dom in Hs as [[? Hs]|Hs]; [done|].
    rewrite Forall_forall in Hall. apply Hall in Hs. lia.
Qed.

Lemma sample_build_succeeds :
  (match Scanner.build sample_feats with Ok _ => true | Raise _ => false end) = true.
Proof. vm_compute. reflexivity. Qed.

Lemma sample_scanner_built : Scanner.build sample_feats = Ok sample_scanner.
Proof.
  pose proof sample_build_succeeds as H. unfold sample_scanner.
  destruct (build_total sample_feats) as [(sc & n & L & E & _)|E];
    rewrite E in H |- *; [reflexivity|].
  clear E. discriminate H.
Qed.

Lemma state_trace_stays_inside_array_witness :
  length (Scanner.nm_arr sample_scanner) = Scanner.states sample_scanner * 256
  ∧ ∃ c, Train.state_trace (Scanner.nm_arr sample_scanner) ["a"; "b"; "c"]%char = Ok c
      ∧ ∀ s, is_Some (c !! s) → s < Scanner.states sample_scanner.
Proof.
  apply (state_trace_stays_inside_array sample_feats "c"%char sample_scanner
           ["a"; "b"; "c"]%char).
  - repeat constructor; simpl; congruence.
  - exact sample_scanner_built.
Defined.

(** ** Pickling *)

Lemma array_key (i s : nat) (a : ascii) :
  (i / 256, ascii_of_nat (i mod 256)) = (s, a) ↔ i = s * 256 + nat_of_ascii a.
Proof.
  pose proof (nat_ascii_bounded a) as Ha.
  assert (Hm : i mod 256 < 256) by (apply Nat.mod_upper_bound; lia).
  pose proof (Nat.div_mod_eq i 256) as D. split.
  - intros K. pose proof (f_equal fst K) as Es. pose proof (f_equal snd K) as Ea.
    cbn [fst snd] in Es, Ea. rewrite <- Ea, nat_ascii_embedding by done. lia.
  - intros ->. f_equal.
    + symmetry. apply Nat.div_unique with (nat_of_ascii a); lia.
    + replace ((s * 256 + nat_of_ascii a) mod 256) with (nat_of_ascii a).
      * apply ascii_nat_embedding.
      * apply Nat.mod_unique with s; lia.
Qed.

Lemma restore_nextmove_lookup (arr : list nat) (s : nat) (a : ascii) :
  Pickle.restore_nextmove arr !! (s, a) = arr !! (s * 256 + nat_of_ascii a).
Proof.
  unfold Pickle.restore_nextmove, Common.enumerate.
  assert (G : ∀ (l : list nat) (base : nat) (nm : gmap (nat * ascii) nat),
    fold_left (fun nm '(i, next_state) =>
                 <[(i / 256, ascii_of_nat (i mod 256)) := next_state]> nm)
              (combine (seq base (length l)) l) nm !! (s, a)
    = if decide (base ≤ s * 256 + nat_of_ascii a
                 ∧ s * 256 + nat_of_ascii a - base < length l)
      then l !! (s * 256 + nat_of_ascii a - base) else nm !! (s, a)).
  { induction l as [|v l IH]; intros base nm.
    - cbn [length seq combine fold_left]. case_decide as D; [lia|done].
    - cbn [length seq combine fold_left]. rewrite IH.
      destruct (decide (s * 256 + nat_of_ascii a = base)) as [Ei|Ni].
      + rewrite decide_False by lia. rewrite decide_True by lia.
        rewrite (proj2 (array_key base s a)) by done. rewrite lookup_insert_eq.
        by replace (s * 256 + nat_of_ascii a - base) with 0 by lia.
      + rewrite lookup_insert_ne by (intros K; apply array_key in K; lia).
        destruct (decide (S base ≤ s * 256 + nat_of_ascii a
                          ∧ s * 256 + nat_of_ascii a - S base < length l)) as [D|D].
        * rewrite decide_True by lia.
          replace (s * 256 + nat_of_ascii a - base)
            with (S (s * 256 + nat_of_ascii a - S base)) by lia. done.
        * by rewrite decide_False by lia. }
  rewrite G, Nat.sub_0_r, lookup_empty.
  case_decide as D; [done|]. symmetry. apply lookup_ge_None. lia.
Qed.

Lemma restored_scan (sc : Scanner.scanner) (n : nat) (L : list nat) :
  built sc n L →
  Scanner.compile_nm_arr (Scanner.nextmove sc) = Ok (Scanner.nm_arr sc) →
  Scanner.state_count (Scanner.nextmove sc) = S n →
  ∀ string state, state ≤ n →
    Scanner.search_from (Pickle.setstate (Pickle.getstate sc)) state string
    = Scanner.search_from sc state string.
Proof.
  intros HB Harr Hcnt. destruct (compile_rows _ _ Harr) as [_ Hrow].
  induction string as [|letter rest IH]; intros state Hs; [done|].
  cbn [Scanner.search_from]. unfold getitem.
  change (Scanner.nextmove (Pickle.setstate (Pickle.getstate sc)))
    with (Pickle.restore_nextmove (Scanner.nm_arr sc)).
  change (Scanner.output (Pickle.setstate (Pickle.getstate sc))) with (Scanner.output sc).
  rewrite restore_nextmove_lookup.
  destruct (Hrow state letter) as (v & Hv & Hnm & _); [lia|].
  rewrite Hv, Hnm, !bind_Ok_l.
  rewrite IH by (eapply built_value; eauto). done.
Qed.

(** X11.  When some byte begins no keyword, a scanner restored by
    [__setstate__] from the state [__getstate__] returns gives, on
    every string, the result of [search] on the scanner it was taken
    from. *)
Theorem pickled_scanner_searches_alike (keywords : list (list ascii)) (a0 : ascii)
    (sc : Scanner.scanner) (string : list ascii) :
  Forall (fun kw => head kw ≠ Some a0) keywords →
  Scanner.build keywords = Ok sc →
  Scanner.search (Pickle.setstate (Pickle.getstate sc)) string = Scanner.search sc string.
Proof.
  intros HF E. destruct (build_with_free_letter _ _ _ HF E) as (n & L & HB & Harr & Hcnt).
  unfold Scanner.search. eapply restored_scan; eauto. lia.
Qed.

Lemma pickled_scanner_searches_alike_witness :
  Scanner.search (Pickle.setstate (Pickle.getstate sample_scanner)) ["a"; "b"; "c"]%char
  = Scanner.search sample_scanner ["a"; "b"; "c"]%char.
Proof.
  apply (pickled_scanner_searches_alike sample_feats "c"%char sample_scanner
           ["a"; "b"; "c"]%char).
  - repeat constructor; simpl; congruence.
  - exact sample_scanner_built.
Defined.

(** X12.  [Scanner.build] depends on the keywords only through the
    number [n] of trie states Algorithm 2 creates: with at most 65535
    of them it succeeds and the scanner has [n + 1] states, with more
    it raises OverflowError while filling the array; it fails in no
    other way. *)
Theorem build_succeeds_up_to_65535_states (keywords : list (list ascii)) :
  let n := snd (fold_left Scanner.enter keywords (∅, ∅, 0)) in
  ((N.of_nat n ≤ 65535)%N →
     ∃ sc, Scanner.build keywords = Ok sc ∧ Scanner.states sc = S n)
  ∧ ((65535 < N.of_nat n)%N → Scanner.build keywords = Raise OverflowError).
Proof.
  destruct (build_overflow_iff keywords) as [H1 H2]. split; [|exact H2].
  intros Hn. destruct (H1 Hn) as (sc & L & E & HB). exists sc. split; [done|].
  apply (b_states _ _ _ HB).
Qed.

(** ** [search] and the uncompiled automaton *)

(** X25.  On every scanner [build] returns, [search], which does one
    [nextmove] lookup per letter, reports for every input the same
    keys in the same order as the matcher that follows the goto
    transitions and failure links of that scanner, and neither
    fails. *)
Theorem search_follows_goto_and_failure_links (keywords : list (list ascii))
    (sc : Scanner.scanner) (string : list ascii) :
  Scanner.build keywords = Ok sc →
  ∃ keys, Scanner.search sc string = Ok keys ∧ Scanner.direct_search sc string = Ok keys.
Proof.
  intros H. destruct (build_total keywords) as [(sc' & n & L & E & HB)|E].
  - rewrite E in H. injection H as <-. clear E.
    destruct (built_scan sc' n L HB string 0) as (keys & Hs & Hd); [by left|].
    by exists keys.
  - rewrite E in H. clear E. discriminate H.
Qed.

Lemma search_follows_goto_and_failure_links_witness :
  ∃ keys, Scanner.search sample_scanner ["a"; "b"]%char = Ok keys
          ∧ Scanner.direct_search sample_scanner ["a"; "b"]%char = Ok keys.
Proof.
  apply (search_follows_goto_and_failure_links sample_feats sample_scanner ["a"; "b"]%char).
  exact sample_scanner_built.
Defined.

(** * More on training: buckets, the feature map, the counts *)

(** X13.  [pass2] gives the same read count and the same count matrix
    for any two arrangements of the same records in the files of a
    bucket, provided no two records are aimed at the same cell
    (document, feature) of the feature map. *)
Theorem pass2_ignores_record_order (cm : list (list bool)) (num_classes : nat)
    (chunk_offsets : list nat) (num_instances num_feats base_f_id : nat)
    (files files' : list (list Train.record)) :
  concat files ≡ₚ concat files' →
  NoDup (map (cell_of chunk_offsets num_instances num_feats base_f_id) (concat files)) →
  Train.pass2 cm num_classes chunk_offsets num_instances (num_feats, base_f_id, files)
  = Train.pass2 cm num_classes chunk_offsets num_instances (num_feats, base_f_id, files').
Proof. apply pass2_permutation. Qed.

Lemma pass2_ignores_record_order_witness :
  Train.pass2 [[true]; [true]] 1 [0; 2] 2 (2, 0, [[(0, 0, 0, 1); (1, 0, 1, 2)]])
  = Train.pass2 [[true]; [true]] 1 [0; 2] 2 (2, 0, [[(1, 0, 1, 2)]; [(0, 0, 0, 1)]]).
Proof.
  apply (pass2_ignores_record_order [[true]; [true]] 1 [0; 2] 2 2 0
           [[(0, 0, 0, 1); (1, 0, 1, 2)]] [[(1, 0, 1, 2)]; [(0, 0, 0, 1)]]).
  - simpl. apply perm_swap.
  - vm_compute. repeat (apply NoDup_cons; split; [set_solver|]). apply NoDup_nil_2.
Defined.

(** X14.  The count matrix [generate_ptc] computes has one row per
    feature and one column per class, and no negative entry. *)
Theorem count_matrix_shape (job_count : Z) (paths nb_features : list (list ascii))
    (tk_nextmove : list nat) (state2feat : gmap nat (list nat)) (cm : list (list bool))
    (num_classes : nat) (prod : list (list Z)) :
  Train.generate_prod job_count paths nb_features tk_nextmove state2feat cm num_classes
    = Ok prod →
  length prod = length nb_features
  ∧ Forall (fun row => length row = num_classes ∧ Forall (fun x => (0 ≤ x)%Z) row) prod.
Proof. apply generate_prod_shape. Qed.

Lemma count_matrix_shape_witness :
  length [[2; 2]; [1; 1]]%Z = length sample_feats
  ∧ Forall (fun row => length row = 2 ∧ Forall (fun x => (0 ≤ x)%Z) row) [[2; 2]; [1; 1]]%Z.
Proof.
  apply (count_matrix_shape 1 sample_texts sample_feats sample_nm sample_state2feat
           sample_cm 2 [[2; 2]; [1; 1]]%Z).
  vm_compute. reflexivity.
Defined.

(** ** Too few documents for the worker pool *)

Lemma index_has_items `{Countable K} (sq : list K) (k : K) :
  k ∈ sq → is_Some (Common.index sq !! k).
Proof.
  unfold Common.index. intros Hk.
  assert (G : ∀ (l : list (nat * K)) (d : gmap K nat),
            k ∈ map snd l ∨ is_Some (d !! k) →
            is_Some (fold_left (fun d '(v, k) => <[k := v]> d) l d !! k)).
  { induction l as [|[v k'] l IH]; intros d Hd; simpl in *.
    - destruct Hd as [Hd|Hd]; [by apply elem_of_nil in Hd|done].
    - apply IH. rewrite lookup_insert_is_Some.
      destruct Hd as [Hd|Hd]; [|destruct (decide (k' = k)); auto].
      apply elem_of_cons in Hd as [->|Hd]; auto. }
  apply G. left. by rewrite snd_enumerate.
Qed.

Lemma make_bucket_map_Ok (nb_features : list (list ascii))
    (feat_chunks : list (list (list ascii))) :
  Forall (Forall (fun feat => feat ∈ nb_features)) feat_chunks →
  ∃ bm, Train.make_bucket_map (Common.index nb_features) feat_chunks = Ok bm.
Proof.
  unfold Train.make_bucket_map, Common.enumerate.
  generalize (∅ : gmap nat nat). generalize 0.
  intros base bm HF. revert base bm.
  induction HF as [|c cs Hc _ IH]; intros base bm; simpl; [by eauto|].
  assert (G : ∃ bm1, foldR (fun bm feat => i ← getitem (Common.index nb_features) feat;
                                           Ok (<[i := base]> bm)) c bm = Ok bm1).
  { clear IH. unfold getitem. revert bm.
    induction Hc as [|f fs Hf _ IHc]; intros bm; cbn [foldR]; [by eauto|].
    destruct (index_has_items nb_features f Hf) as [i Hi]. rewrite Hi.
    rewrite !bind_Ok_l. apply IHc. }
  destruct G as [bm1 ->]. rewrite bind_Ok_l. apply IH.
Qed.

Lemma chunk_items_from {A} (sq : list A) (c : nat) :
  Forall (Forall (fun x => x ∈ sq)) (Common.chunk sq c).
Proof.
  destruct c as [|c].
  - rewrite chunk_zero. constructor.
  - apply Forall_forall. intros ch Hch. apply Forall_forall. intros x Hx.
    rewrite <- (chunk_concat sq (S c)) by lia.
    apply list_elem_of_In, in_concat. exists ch. split; by apply list_elem_of_In.
Qed.

Lemma zsum_zero (l : list Z) : Forall (fun x => x = 0%Z) l → Train.zsum l = 0%Z.
Proof. induction 1 as [|x l -> _ IH]; simpl; [done|]. by rewrite IH. Qed.

Lemma dot_T_zero (num_feats num_classes num_instances : nat) (cm : list (list bool)) :
  Train.dot_T num_feats num_classes (replicate num_instances (replicate num_feats 0%Z)) cm
  = replicate num_feats (replicate num_classes 0%Z).
Proof.
  unfold Train.dot_T.
  assert (G : ∀ {B} (y : B) n, map (fun _ => y) (seq 0 n) = replicate n y).
  { intros B y n. generalize 0. induction n as [|n IH]; intros s; simpl; [done|].
    by rewrite IH. }
  rewrite <- (G _ (replicate num_classes 0%Z) num_feats).
  apply map_ext. intros f. rewrite <- (G _ 0%Z num_classes). apply map_ext. intros c.
  apply zsum_zero. apply Forall_forall. intros x Hx.
  apply list_elem_of_In, in_map_iff in Hx as ([row crow] & <- & Hin).
  apply in_combine_l, list_elem_of_In, elem_of_replicate in Hin as [-> _].
  rewrite nth_lookup.
  destruct (replicate num_feats 0%Z !! f) as [z|] eqn:E; simpl; [|lia].
  apply lookup_replicate in E as [-> _]. lia.
Qed.

Lemma pass2_no_files cm num_classes chunk_offsets (num_feats base_f_id : nat) :
  Train.pass2 cm num_classes chunk_offsets (length cm) (num_feats, base_f_id, [])
  = Ok (0, replicate num_feats (replicate num_classes 0%Z)).
Proof.
  unfold Train.pass2. cbn [foldR]. rewrite bind_Ok_l, decide_True by done.
  by rewrite dot_T_zero.
Qed.

Lemma mapR_pass2_empty cm num_classes chunk_offsets :
  ∀ (sizes offs : list nat),
  length sizes ≤ length offs →
  ∃ outs, mapR (Train.pass2 cm num_classes chunk_offsets (length cm))
               (combine (combine sizes offs) (map (fun _ : nat => []) (seq 0 (length sizes))))
          = Ok outs
    ∧ concat (map snd outs) = replicate (list_sum sizes) (replicate num_classes 0%Z).
Proof.
  intros sizes. generalize 0.
  induction sizes as [|sz sizes IH]; intros s offs Hl; [by exists []|].
  destruct offs as [|o offs]; cbn [length] in Hl; [lia|].
  cbn [length seq map combine mapR list_sum fold_right].
  rewrite pass2_no_files, bind_Ok_l.
  destruct (IH (S s) offs) as (outs & -> & E); [lia|]. rewrite bind_Ok_l.
  eexists. split; [done|]. cbn [map concat snd]. rewrite E. by rewrite replicate_add.
Qed.

(** X15.  With fewer than [2 * job_count] documents the chunk size
    [len(paths) / (job_count * 2)] is zero, no document is read, and
    the count matrix [generate_ptc] works from is zero everywhere,
    whatever the documents contain. *)
Theorem too_few_documents_count_nothing (job_count : Z) (paths nb_features : list (list ascii))
    (tk_nextmove : list nat) (state2feat : gmap nat (list nat)) (cm : list (list bool))
    (num_classes : nat) :
  (1 ≤ job_count)%Z → (Z.of_nat (length paths) < 2 * job_count)%Z →
  0 < length nb_features → length cm = length paths →
  Train.generate_prod job_count paths nb_features tk_nextmove state2feat cm num_classes
  = Ok (replicate (length nb_features) (replicate num_classes 0%Z)).
Proof.
  intros Hj Hp Hf Hcm. unfold Train.generate_prod, Common.floordiv.
  rewrite decide_False by lia. rewrite bind_Ok_l.
  rewrite Z.div_small by lia. change (Z.to_nat (Z.min 0 100)) with 0.
  rewrite chunk_zero.
  destruct (make_bucket_map_Ok nb_features (Common.chunk nb_features Train.FEATS_PER_CHUNK))
    as [bm ->]; [apply chunk_items_from|].
  rewrite bind_Ok_l. cbn [Common.enumerate length seq combine mapR]. rewrite bind_Ok_l.
  cbn [map]. rewrite <- Hcm.
  remember (Common.chunk nb_features Train.FEATS_PER_CHUNK) as feat_chunks eqn:Ec.
  destruct (mapR_pass2_empty cm num_classes (Common.offsets (@nil (list (list ascii))))
              (map length feat_chunks) (Common.offsets feat_chunks)) as (outs & E & Eo).
  { rewrite length_map, offsets_length. lia. }
  rewrite length_map in E. rewrite E, bind_Ok_l.
  assert (Hsum : list_sum (map length feat_chunks) = length nb_features).
  { rewrite <- length_concat_sum, Ec, chunk_concat; [done|]. unfold Train.FEATS_PER_CHUNK. lia. }
  destruct (decide (outs = [])) as [->|_].
  - simpl in Eo. rewrite Hsum in Eo. destruct nb_features; [simpl in Hf; lia|done].
  - by rewrite Eo, Hsum.
Qed.

Lemma too_few_documents_count_nothing_witness :
  Train.generate_prod 2 sample_texts sample_feats sample_nm sample_state2feat sample_cm 2
  = Ok (replicate (length sample_feats) (replicate 2 0%Z)).
Proof.
  apply (too_few_documents_count_nothing 2 sample_texts sample_feats sample_nm
           sample_state2feat sample_cm 2); simpl; lia.
Defined.

(** ** The records [pass1] writes *)

Lemma foldR_invariant {A S} (I : list A → S → Prop) (body : S → A → result S)
    (l : list A) (s0 s : S) :
  I [] s0 →
  (∀ l1 x s s', I l1 s → body s x = Ok s' → I (l1 ++ [x]) s') →
  foldR body l s0 = Ok s → I l s.
Proof.
  intros H0 Hstep.
  assert (G : ∀ l2 l1 s1, I l1 s1 → foldR body l2 s1 = Ok s → I (l1 ++ l2) s).
  { induction l2 as [|x l2 IH]; intros l1 s1 H1 E; simpl in E.
    - injection E as <-. by rewrite app_nil_r.
    - apply bind_Ok in E as (s' & Ex & E).
      replace (l1 ++ x :: l2) with ((l1 ++ [x]) ++ l2) by (by rewrite <- app_assoc).
      eapply IH; [|exact E]. by eapply Hstep. }
  apply (G l [] s0 H0).
Qed.

Lemma concat_insert_snoc {A} (files : list (list A)) (i : nat) (file : list A) (r : A) :
  files !! i = Some file → concat (<[i := file ++ [r]]> files) ≡ₚ r :: concat files.
Proof.
  revert i. induction files as [|f files IH]; intros [|i] E; simpl in *; try done.
  - injection E as ->. rewrite <- app_assoc. simpl.
    by rewrite <- Permutation_middle.
  - rewrite (IH i E). by rewrite <- Permutation_middle.
Qed.

(** X16.  A successful [pass1] writes one record per (document,
    feature) pair counted and returns their number: no two records
    of a chunk share document and feature, every record carries the
    chunk's id, and a record is in the file of bucket [b] exactly
    when [bucket_map] sends its feature to [b]. *)
Theorem pass1_writes_each_pair_once (g : Train.pass1_globals) (chunk_id : nat)
    (chunk_paths : list (list ascii)) (files : list (list Train.record)) (n : nat) :
  Train.pass1 g (chunk_id, chunk_paths) = Ok (files, n) →
  length files = Train.g_b_dirs g
  ∧ n = length (concat files)
  ∧ NoDup (map (fun r : Train.record => (snd (fst r), fst (fst (fst r)))) (concat files))
  ∧ ∀ b file r, files !! b = Some file → r ∈ file →
      snd (fst (fst r)) = chunk_id ∧ Train.g_bucket_map g !! fst (fst (fst r)) = Some b.
Proof.
  unfold Train.pass1. intros E. apply bind_Ok in E as (term_freq & _ & E).
  apply bind_Ok in E as (files' & E & [= -> <-]).
  pose (to_rec := fun kv : nat * nat * nat =>
                    (snd (fst kv), chunk_id, fst (fst kv), snd kv) : Train.record).
  apply (foldR_invariant
    (fun kvs (fs : list (list Train.record)) =>
       length fs = Train.g_b_dirs g
       ∧ concat fs ≡ₚ map to_rec kvs
       ∧ ∀ b file r, fs !! b = Some file → r ∈ file →
           snd (fst (fst r)) = chunk_id ∧ Train.g_bucket_map g !! fst (fst (fst r)) = Some b))
    in E.
  - destruct E as (Hl & HP & Hb). split; [done|]. split; [|split; [|done]].
    + rewrite (Permutation_length HP), length_map. symmetry. apply length_map_to_list.
    + assert (HP' : map (fun r : Train.record => (snd (fst r), fst (fst (fst r)))) (concat files)
                    ≡ₚ map fst (map_to_list term_freq)).
      { rewrite HP, map_map. apply Permutation_refl'. apply map_ext. by intros [[d f] c]. }
      rewrite HP'. apply NoDup_fst_map_to_list.
  - split; [by rewrite length_replicate|]. split.
    + assert (G : ∀ k, concat (replicate k (@nil Train.record)) = []).
      { induction k as [|k IH]; simpl; [done|exact IH]. }
      by rewrite G.
    + intros b file r Hf Hr. apply lookup_replicate in Hf as [-> _].
      by apply elem_of_nil in Hr.
  - intros kvs [[d f] c] fs fs' (Hl & HP & Hb) Ee. unfold Train.emit in Ee.
    apply bind_Ok in Ee as (bi & Hbi & Ee). unfold DocFreq.list_alter_at in Ee.
    destruct (fs !! bi) as [file0|] eqn:Ef; [|done]. injection Ee as <-.
    unfold getitem in Hbi. destruct (Train.g_bucket_map g !! f) as [bi'|] eqn:Ebm; [|done].
    injection Hbi as ->.
    split; [by rewrite length_insert|]. split.
    + rewrite (concat_insert_snoc _ _ _ _ Ef), HP, map_app. simpl.
      by rewrite <- Permutation_cons_append.
    + intros b file r Hf Hr. destruct (decide (b = bi)) as [->|Hne].
      * rewrite list_lookup_insert_eq in Hf by (by eapply lookup_lt_Some).
        injection Hf as <-. apply elem_of_app in Hr as [Hr|Hr]; [by eapply Hb|].
        apply list_elem_of_singleton in Hr as ->. done.
      * rewrite list_lookup_insert_ne in Hf by done. by eapply Hb.
Qed.

Lemma pass1_writes_each_pair_once_witness :
  length [[(0, 0, 0, 1); (0, 0, 1, 1); (1, 0, 1, 1)]] = Train.g_b_dirs sample_globals
  ∧ 3 = length (concat [[(0, 0, 0, 1); (0, 0, 1, 1); (1, 0, 1, 1)]])
  ∧ NoDup (map (fun r : Train.record => (snd (fst r), fst (fst (fst r))))
               (concat [[(0, 0, 0, 1); (0, 0, 1, 1); (1, 0, 1, 1)]]))
  ∧ ∀ b file r, [[(0, 0, 0, 1); (0, 0, 1, 1); (1, 0, 1, 1)]] !! b = Some file → r ∈ file →
      snd (fst (fst r)) = 0
      ∧ Train.g_bucket_map sample_globals !! fst (fst (fst r)) = Some b.
Proof.
  apply (pass1_writes_each_pair_once sample_globals 0 [["a"]; ["a"; "b"]]%char
           [[(0, 0, 0, 1); (0, 0, 1, 1); (1, 0, 1, 1)]] 3).
  vm_compute. reflexivity.
Defined.

(** ** What [pass2] counts *)

Lemma cell_of_bounds chunk_offsets ni nf base (r : Train.record) d f :
  cell_of chunk_offsets ni nf base r = Some (d, f) → d < ni ∧ f < nf.
Proof.
  destruct r as [[[f_id chunk_id] doc_id] count]. unfold cell_of.
  destruct (chunk_offsets !! chunk_id) as [off|]; [|done].
  destruct (np_index_cases ni (Z.of_nat (off + doc_id))) as [(d' & -> & Hd)| ->]; [|done].
  destruct (np_index_cases nf (Z.of_nat f_id - Z.of_nat base)) as [(f' & -> & Hf)| ->];
    [|done].
  by intros [= <- <-].
Qed.

Lemma recorded_count_cons chunk_offsets ni nf base (r : Train.record) rs d f :
  recorded_count chunk_offsets ni nf base (r :: rs) d f
  = ((if decide (cell_of chunk_offsets ni nf base r = Some (d, f))
      then Z.of_nat (snd r) else 0)
     + recorded_count chunk_offsets ni nf base rs d f)%Z.
Proof. reflexivity. Qed.

Lemma recorded_count_absent chunk_offsets ni nf base (rs : list Train.record) d f :
  Some (d, f) ∉ map (cell_of chunk_offsets ni nf base) rs →
  recorded_count chunk_offsets ni nf base rs d f = 0%Z.
Proof.
  unfold recorded_count. induction rs as [|r rs IH]; intros Hn; simpl; [done|].
  simpl in Hn. apply not_elem_of_cons in Hn as [Hr Hn].
  rewrite decide_False by congruence. by rewrite IH.
Qed.

Lemma replay_all_lookup chunk_offsets ni nf base : ∀ (rs : list Train.record) fm0 fm,
  length fm0 = ni → Forall (fun row => length row = nf) fm0 →
  NoDup (map (cell_of chunk_offsets ni nf base) rs) →
  foldR (Train.replay chunk_offsets nf base) rs fm0 = Ok fm →
  ∀ d f, d < ni → f < nf →
    nth f (nth d fm []) 0%Z
    = if decide (Some (d, f) ∈ map (cell_of chunk_offsets ni nf base) rs)
      then recorded_count chunk_offsets ni nf base rs d f
      else nth f (nth d fm0 []) 0%Z.
Proof.
  induction rs as [|r rs IH]; intros fm0 fm Hl Hrows ND E d f Hd Hf.
  - simpl in E. injection E as <-. rewrite decide_False; [done|]. apply not_elem_of_nil.
  - cbn [foldR] in E. apply bind_Ok in E as (fm1 & E1 & E).
    cbn [map] in ND. apply NoDup_cons in ND as [Hfresh ND].
    rewrite replay_cell, Hl in E1.
    destruct (cell_of chunk_offsets ni nf base r) as [[d1 f1]|] eqn:Ec; [|done].
    injection E1 as <-.
    destruct (cell_of_bounds _ _ _ _ _ _ _ Ec) as [Hd1 Hf1].
    assert (Hrows1 : Forall (fun row => length row = nf)
                       (alter (fun row => <[f1 := Z.of_nat (snd r)]> row) d1 fm0)).
    { apply Forall_lookup. intros i row.
      destruct (decide (d1 = i)) as [->|Hne].
      - rewrite list_lookup_alter_eq.
        destruct (fm0 !! i) as [row0|] eqn:E0; [|done]. intros [= <-].
        rewrite length_insert. by apply (Forall_lookup_1 _ _ _ _ Hrows E0).
      - rewrite list_lookup_alter_ne by done.
        intros E0. by apply (Forall_lookup_1 _ _ _ _ Hrows E0). }
    rewrite (IH _ _ (eq_trans (length_alter _ _ _) Hl) Hrows1 ND E d f Hd Hf).
    cbn [map]. rewrite recorded_count_cons, Ec.
    destruct (decide ((d1, f1) = (d, f))) as [[= -> ->]|Hne].
    + rewrite decide_False by done. rewrite decide_True by (by left).
      rewrite decide_True by done. rewrite recorded_count_absent by done.
      rewrite Z.add_0_r.
      destruct (lookup_lt_is_Some_2 fm0 d) as [row0 E0]; [lia|].
      rewrite (nth_lookup_Some _ d [] (<[f := Z.of_nat (snd r)]> row0)).
      * apply nth_lookup_Some. rewrite list_lookup_insert_eq; [done|].
        rewrite (Forall_lookup_1 _ _ _ _ Hrows E0). done.
      * by rewrite list_lookup_alter_eq, E0.
    + rewrite (decide_False (P := Some (d1, f1) = Some (d, f))) by congruence.
      rewrite Z.add_0_l.
      assert (Hsame : nth f (nth d (alter (fun row => <[f1 := Z.of_nat (snd r)]> row) d1 fm0) [])
                          0%Z = nth f (nth d fm0 []) 0%Z).
      { destruct (decide (d1 = d)) as [->|Hnd].
        - destruct (lookup_lt_is_Some_2 fm0 d) as [row0 E0]; [lia|].
          rewrite (nth_lookup_Some _ d [] (<[f1 := Z.of_nat (snd r)]> row0))
            by (by rewrite list_lookup_alter_eq, E0).
          rewrite (nth_lookup_Some _ d [] row0) by done.
          rewrite !nth_lookup, list_lookup_insert_ne; [done|]. congruence.
        - by rewrite !(nth_lookup _ d), list_lookup_alter_ne. }
      rewrite Hsame.
      destruct (decide (Some (d, f) ∈ map (cell_of chunk_offsets ni nf base) rs)) as [Hin|Hin].
      * by rewrite decide_True by (by right).
      * rewrite decide_False; [done|]. apply not_elem_of_cons. split; [congruence|done].
Qed.

Lemma replay_all_Ok chunk_offsets ni nf base : ∀ (rs : list Train.record) fm0,
  length fm0 = ni →
  Forall (fun r => is_Some (cell_of chunk_offsets ni nf base r)) rs →
  ∃ fm, foldR (Train.replay chunk_offsets nf base) rs fm0 = Ok fm ∧ length fm = ni.
Proof.
  induction rs as [|r rs IH]; intros fm0 Hl HF; [by exists fm0|].
  apply Forall_cons in HF as [[[d f] Hr] HF]. cbn [foldR].
  rewrite replay_cell, Hl, Hr, bind_Ok_l. apply IH; [|done].
  by rewrite length_alter.
Qed.

Lemma combine_as_seq {A B} (da : A) (db : B) (l : list A) (k : list B) :
  length l = length k →
  combine l k = map (fun i => (nth i l da, nth i k db)) (seq 0 (length l)).
Proof.
  revert k. induction l as [|x l IH]; intros [|y k] Hl; simpl in *; try done.
  f_equal. rewrite <- seq_shift, map_map. apply IH. lia.
Qed.

(** X17.  When every record of a bucket is aimed at a cell of the
    feature map and no two at the same cell, [pass2] reads them all
    and entry [(f, c)] of the matrix it returns is the sum, over the
    documents [d] of class [c], of the count recorded for [(d, f)];
    a pair without record counts as zero. *)
Theorem pass2_sums_recorded_counts (cm : list (list bool)) (num_classes : nat)
    (chunk_offsets : list nat) (num_feats base_f_id : nat)
    (files : list (list Train.record)) :
  Forall (fun r => is_Some (cell_of chunk_offsets (length cm) num_feats base_f_id r))
         (concat files) →
  NoDup (map (cell_of chunk_offsets (length cm) num_feats base_f_id) (concat files)) →
  ∃ prod,
    Train.pass2 cm num_classes chunk_offsets (length cm) (num_feats, base_f_id, files)
      = Ok (length (concat files), prod)
    ∧ ∀ f c, f < num_feats → c < num_classes →
        nth c (nth f prod []) 0%Z
        = Train.zsum
            (map (fun d => (recorded_count chunk_offsets (length cm) num_feats base_f_id
                              (concat files) d f
                            * Train.b2z (nth c (nth d cm []) false))%Z)
                 (seq 0 (length cm))).
Proof.
  intros Hvalid ND. unfold Train.pass2. rewrite foldR_concat.
  destruct (replay_all_Ok chunk_offsets (length cm) num_feats base_f_id (concat files)
              (replicate (length cm) (replicate num_feats 0%Z)))
    as (fm & E & Hl); [by rewrite length_replicate | done |].
  rewrite E, bind_Ok_l, decide_True by done. eexists. split; [done|].
  intros f c Hf Hc. unfold Train.dot_T.
  rewrite (nth_lookup_Some _ f [] _ (seq_map_lookup _ num_feats f Hf)).
  rewrite (nth_lookup_Some _ c 0%Z _ (seq_map_lookup _ num_classes c Hc)).
  rewrite (combine_as_seq [] [] fm cm) by done. rewrite map_map, Hl. f_equal.
  apply map_ext_in. intros d Hd. apply in_seq in Hd. f_equal.
  rewrite (replay_all_lookup _ _ _ _ _ _ _ (length_replicate _ _) (Forall_replicate _ _ _ (length_replicate _ _)) ND E d f)
    by lia.
  case_decide as Hin; [done|]. rewrite recorded_count_absent by done.
  rewrite (nth_lookup_Some _ d [] (replicate num_feats 0%Z))
    by (apply lookup_replicate_2; lia).
  apply nth_lookup_Some, lookup_replicate_2. lia.
Qed.

Lemma pass2_sums_recorded_counts_witness :
  ∃ prod,
    Train.pass2 sample_cm 2 sample_offsets (length sample_cm) (2, 0, sample_bucket_files)
      = Ok (length (concat sample_bucket_files), prod)
    ∧ ∀ f c, f < 2 → c < 2 →
        nth c (nth f prod []) 0%Z
        = Train.zsum
            (map (fun d => (recorded_count sample_offsets (length sample_cm) 2 0
                              (concat sample_bucket_files) d f
                            * Train.b2z (nth c (nth d sample_cm []) false))%Z)
                 (seq 0 (length sample_cm))).
Proof.
  apply (pass2_sums_recorded_counts sample_cm 2 sample_offsets 2 0 sample_bucket_files).
  - repeat constructor; vm_compute; eauto.
  - vm_compute. repeat (apply NoDup_cons; split; [set_solver|]). apply NoDup_nil_2.
Defined.

(** * More on entropy and information gain *)

Import Float.

(** X18.  The entropy of a vector of counts is NaN when all the
    counts are zero, from the division 0/0, and a finite number as
    soon as one count is positive: the NaN of a zero count, 0 * -inf,
    is skipped by [nansum]. *)
Theorem entropy_of_counts (counts : list nat) :
  (list_sum counts = 0 → Gain.entropy (map of_nat counts) = NaN)
  ∧ (0 < list_sum counts → ∃ h, Gain.entropy (map of_nat counts) = Fin h).
Proof.
  split; [apply entropy_zero|]. intros Hs. rewrite entropy_pos by done. by eexists.
Qed.

(** ** Features that do not split the corpus *)

Lemma filter_all_true (col : list bool) :
  List.filter (fun p : bool * bool => fst p && snd p) (combine (replicate (length col) true) col)
  = map (fun b => (true, b)) (List.filter (fun b : bool => b) col).
Proof.
  induction col as [|b col IH]; simpl; [done|]. destruct b; simpl; by rewrite IH.
Qed.

Lemma filter_all_false (n : nat) (col : list bool) :
  List.filter (fun p : bool * bool => fst p && snd p) (combine (replicate n false) col) = [].
Proof.
  revert col. induction n as [|n IH]; intros [|b col]; simpl; try done.
Qed.

Lemma column_length cm c : length (Gain.column cm c) = length cm.
Proof. unfold Gain.column. by rewrite length_map. Qed.

Lemma band_counts_all_true num_classes cm :
  Gain.band_counts num_classes cm (replicate (length cm) true)
  = Gain.class_totals num_classes cm.
Proof.
  unfold Gain.band_counts, Gain.class_totals. apply map_ext. intros c.
  rewrite <- (column_length cm c), filter_all_true. by rewrite length_map.
Qed.

Lemma band_counts_all_false num_classes cm n :
  list_sum (Gain.band_counts num_classes cm (replicate n false)) = 0.
Proof.
  unfold Gain.band_counts. induction (seq 0 num_classes) as [|c l IH]; simpl; [done|].
  by rewrite filter_all_false, IH.
Qed.

Lemma filter_replicate_true n : List.filter (fun b : bool => b) (replicate n true) = replicate n true.
Proof. induction n as [|n IH]; simpl; [done|]. by rewrite IH. Qed.

Lemma class_totals_nonempty num_classes cm :
  0 < list_sum (Gain.class_totals num_classes cm) → 0 < length cm.
Proof.
  intros Hs. destruct cm as [|row cm]; [|simpl; lia]. exfalso.
  unfold Gain.class_totals in Hs. simpl in Hs.
  assert (list_sum (map (fun _ : nat => 0) (seq 0 num_classes)) = 0); [|lia].
  induction (seq 0 num_classes); simpl; [done|lia].
Qed.

Lemma whole_band_term num_classes cm :
  0 < list_sum (Gain.class_totals num_classes cm) →
  Gain.band_term num_classes cm (replicate (length cm) true)
  = Gain.entropy (map of_nat (Gain.class_totals num_classes cm)).
Proof.
  intros Hs. pose proof (class_totals_nonempty _ _ Hs) as Hn.
  unfold Gain.band_term, Gain.band_weight, Gain.band_entropy.
  rewrite band_counts_all_true, entropy_pos by done. cbn [isnan].
  rewrite filter_replicate_true, length_replicate. unfold of_nat.
  assert (0 < INR (length cm))%R by (apply lt_0_INR; lia).
  rewrite fdiv_fin by lra. cbn [fmul]. f_equal.
  unfold Rdiv at 1. rewrite Rinv_r by lra. lra.
Qed.

Lemma all_equal_replicate (b : bool) (l : list bool) :
  Forall (fun x => x = b) l → l = replicate (length l) b.
Proof. induction 1 as [|x l -> _ IH]; simpl; [done|]. by rewrite <- IH. Qed.

Lemma map_negb_replicate n b : map negb (replicate n b) = replicate n (negb b).
Proof. induction n as [|n IH]; simpl; [done|]. by rewrite IH. Qed.

(** X19.  A feature that occurs in every document, or in none, has
    information gain exactly 0 (when the class map marks at least one
    document): the empty band contributes 0 and the other band has
    the entropy of the whole corpus. *)
Theorem constant_feature_has_zero_gain (num_classes : nat) (cm : list (list bool))
    (nonzero : list bool) (b : bool) :
  length nonzero = length cm →
  0 < list_sum (Gain.class_totals num_classes cm) →
  Forall (fun x => x = b) nonzero →
  Gain.infogain num_classes cm nonzero = Fin 0.
Proof.
  intros Hl Hs Hall. pose proof (class_totals_nonempty _ _ Hs) as Hn.
  rewrite (all_equal_replicate b nonzero Hall), Hl.
  unfold Gain.infogain, Gain.split_info, fsum. rewrite map_negb_replicate.
  assert (Hempty : Gain.band_term num_classes cm (replicate (length cm) false) = Fin 0).
  { destruct (band_term_fin num_classes cm (replicate (length cm) false)) as (x & -> & Hx);
      [by rewrite length_replicate|].
    by rewrite Hx by apply band_counts_all_false. }
  cbn [map fold_left].
  destruct b; cbn [negb]; rewrite Hempty, whole_band_term, entropy_pos by done;
    cbn [fadd fsub fneg]; f_equal; lra.
Qed.

Lemma constant_feature_has_zero_gain_witness :
  Gain.infogain 2 sample_cm sample_present = Fin 0.
Proof.
  apply (constant_feature_has_zero_gain 2 sample_cm sample_present true).
  - reflexivity.
  - vm_compute. lia.
  - repeat constructor.
Defined.

(** * More on the record files and the document-frequency index *)

(** ** [disklist]: what is appended is what is read *)

Section DisklistFacts.
Context {V : Type}.
Variable load : list byte → Records.loaded V.
Variable dump : V → list byte.

Lemma disklist_appended (vs : list V) : ∀ d,
  Records.fileh (fold_left (Records.disklist_append dump) vs d)
    = Records.fileh d ++ concat (map dump vs)
  ∧ Records.count (fold_left (Records.disklist_append dump) vs d)
    = Records.count d + length vs.
Proof.
  induction vs as [|v vs IH]; intros d; simpl.
  - rewrite app_nil_r. split; [done|lia].
  - destruct (IH (Records.disklist_append dump d v)) as [-> ->]. simpl.
    rewrite <- app_assoc. split; [done|lia].
Qed.

Lemma read_back (caught : list exn) (vs : list V) :
  load [] = Records.Raised EOFError → EOFError ∈ caught →
  (∀ v rest, v ∈ vs → load (dump v ++ rest) = Records.Loaded v rest) →
  ∀ fuel, length (concat (map dump vs)) < fuel →
  Records.read_loop load caught fuel (concat (map dump vs)) = (vs, Records.Stopped).
Proof.
  intros Heof Hc. induction vs as [|v vs IH]; intros Hrt fuel Hf;
    (destruct fuel as [|fuel]; [lia|]); simpl.
  - rewrite Heof. by rewrite decide_True.
  - rewrite Hrt by (by left).
    assert (dump v ≠ []).
    { intros E. specialize (Hrt v [] ltac:(by left)). rewrite E in Hrt. simpl in Hrt.
      congruence. }
    rewrite IH; [done| |].
    + intros v' rest Hv'. apply Hrt. by right.
    + simpl in Hf. rewrite length_app in Hf. destruct (dump v); [done|]. simpl in Hf. lia.
Qed.

End DisklistFacts.

(** X20.  Items appended to a new [disklist] come back from its
    iterator in the order they were appended, followed by a clean
    stop, and [len] is their number, when [marshal.load] reads back
    each appended item from the bytes [marshal.dump] wrote for it and
    raises EOFError at the end of the file. *)
Theorem disklist_returns_what_was_appended {V} (load : list byte → Records.loaded V)
    (dump : V → list byte) (vs : list V) :
  load [] = Records.Raised EOFError →
  (∀ v rest, v ∈ vs → load (dump v ++ rest) = Records.Loaded v rest) →
  Records.disklist_iter load (fold_left (Records.disklist_append dump) vs Disklist.init)
    = (vs, Records.Stopped)
  ∧ Disklist.len (fold_left (Records.disklist_append dump) vs Disklist.init) = length vs.
Proof.
  intros Heof Hrt. unfold Records.disklist_iter, Disklist.len.
  destruct (disklist_appended dump vs Disklist.init) as [-> ->].
  cbn [Disklist.init Records.fileh Records.count app]. split; [|done].
  apply read_back; try done; [by left|lia].
Qed.

Lemma disklist_returns_what_was_appended_witness :
  Records.disklist_iter Records.load_int
      (fold_left (Records.disklist_append dump_int) [300; 2]%Z Disklist.init)
    = ([300; 2]%Z, Records.Stopped)
  ∧ Disklist.len (fold_left (Records.disklist_append dump_int) [300; 2]%Z Disklist.init)
    = length [300; 2]%Z.
Proof.
  apply (disklist_returns_what_was_appended Records.load_int dump_int [300; 2]%Z).
  - reflexivity.
  - intros v rest Hv. apply elem_of_cons in Hv as [->|Hv]; [reflexivity|].
    apply list_elem_of_singleton in Hv as ->. reflexivity.
Defined.

(** ** The posting lists of [pass1] *)

Section PostingFacts.
Variable hash : list ascii → Z.
Variable max_order : nat.

Lemma yielding_pos k (paths : list (list ascii)) :
  0 < yielding max_order k paths
  ↔ ∃ text tokens, text ∈ paths ∧ Tokenizer.call max_order text = Ok tokens ∧ k ∈ tokens.
Proof.
  unfold yielding. induction paths as [|p paths IH]; simpl.
  - split; [lia|]. intros (text & tokens & Ht & _). by apply elem_of_nil in Ht.
  - unfold has_token at 1.
    destruct (Tokenizer.call max_order p) as [toks|e] eqn:Ep.
    + destruct (bool_decide (k ∈ toks)) eqn:E.
      * apply bool_decide_eq_true_1 in E. simpl. split; [|lia].
        intros _. exists p, toks. split; [by left|done].
      * apply bool_decide_eq_false_1 in E. rewrite IH. split.
        -- intros (text & tokens & Ht & Hk). exists text, tokens. split; [by right|done].
        -- intros (text & tokens & Ht & Ec & Hk).
           apply elem_of_cons in Ht as [->|Ht]; [congruence|]. by exists text, tokens.
    + rewrite IH. split.
      * intros (text & tokens & Ht & Hk). exists text, tokens. split; [by right|done].
      * intros (text & tokens & Ht & Ec & Hk).
        apply elem_of_cons in Ht as [->|Ht]; [congruence|]. by exists text, tokens.
Qed.

(** Writing the posting lists of a chunk: every key once, in the
    bucket its hash selects. *)
Lemma emit_postings chunk_id term_doc_list num_buckets (kvs : list (list ascii * nat))
    (files : list (list (list ascii * nat)) * list (list (list ascii * nat * list nat))) :
  foldR (DocFreq.emit hash chunk_id term_doc_list) kvs
        (replicate num_buckets [], replicate num_buckets []) = Ok files →
  length (snd files) = num_buckets
  ∧ concat (snd files)
    ≡ₚ map (fun kv : list ascii * nat =>
              (fst kv, chunk_id, default [] (term_doc_list !! fst kv))) kvs
  ∧ ∀ b file r, snd files !! b = Some file → r ∈ file →
      Z.of_nat b = (hash (fst (fst r)) mod Z.of_nat num_buckets)%Z.
Proof.
  intros E.
  apply (foldR_invariant
    (fun kvs (files : list (list (list ascii * nat))
                      * list (list (list ascii * nat * list nat))) =>
       length (fst files) = num_buckets
       ∧ length (snd files) = num_buckets
       ∧ concat (snd files)
         ≡ₚ map (fun kv : list ascii * nat =>
                   (fst kv, chunk_id, default [] (term_doc_list !! fst kv))) kvs
       ∧ ∀ b file r, snd files !! b = Some file → r ∈ file →
           Z.of_nat b = (hash (fst (fst r)) mod Z.of_nat num_buckets)%Z)) in E.
  - tauto.
  - cbn [fst snd]. rewrite !length_replicate. repeat split; try done.
    + assert (G : ∀ n, concat (replicate n (@nil (list ascii * nat * list nat))) = [])
        by (induction n as [|n IHn]; simpl; [done|apply IHn]).
      by rewrite G.
    + intros b file r Hf Hr. apply lookup_replicate in Hf as [-> _].
      by apply elem_of_nil in Hr.
  - intros l1 [key df] [bf bl] [bf' bl'] (H1 & H2 & HP & Hb) Ee. cbn [fst snd] in *.
    unfold DocFreq.emit, Common.pymod in Ee.
    destruct (decide (Z.of_nat (length bf) = 0%Z)) as [|Hnz]; [done|].
    rewrite bind_Ok_l in Ee.
    pose proof (Z.mod_pos_bound (hash key) (Z.of_nat (length bf))) as Hm.
    set (i := Z.to_nat (hash key `mod` Z.of_nat (length bf))) in *.
    unfold DocFreq.list_alter_at in Ee.
    destruct (bf !! i) as [f|] eqn:Ef; [|done]. rewrite bind_Ok_l in Ee.
    destruct (bl !! i) as [f'|] eqn:Ef'; [|done]. rewrite bind_Ok_l in Ee.
    injection Ee as <- <-. rewrite !length_insert. repeat split; try done.
    + rewrite (concat_insert_snoc _ _ _ _ Ef'), HP, map_app. simpl.
      by rewrite <- Permutation_cons_append.
    + intros b file r Hf Hr. destruct (decide (b = i)) as [->|Hne].
      * rewrite list_lookup_insert_eq in Hf by (by eapply lookup_lt_Some).
        injection Hf as <-. apply elem_of_app in Hr as [Hr|Hr]; [by eapply Hb|].
        apply list_elem_of_singleton in Hr as ->. cbn [fst]. subst i. rewrite <- H1. lia.
      * rewrite list_lookup_insert_ne in Hf by done. by eapply Hb.
Qed.

End PostingFacts.

(** X21.  For [max_order >= 1] and at least one bucket, [pass1]
    succeeds and returns the number of distinct tokens of the chunk.
    Its [.list] files hold one record per token the tokenizer yields
    on a document of the chunk; the record carries the chunk id and
    the indices, in increasing order, of the documents of the chunk
    that yield the token, and lies in the bucket
    [hash(key) % num_buckets]. *)
Theorem pass1_posting_lists (hash : list ascii → Z) (max_order num_buckets chunk_id : nat)
    (chunk_paths : list (list ascii)) :
  1 ≤ max_order → 0 < num_buckets →
  ∃ b_freq b_list n,
    DocFreq.pass1 hash max_order num_buckets (chunk_id, chunk_paths) = Ok (b_freq, b_list, n)
    ∧ length b_list = num_buckets
    ∧ n = length (concat b_list)
    ∧ NoDup (map (fun r : list ascii * nat * list nat => fst (fst r)) (concat b_list))
    ∧ (∀ k, k ∈ map (fun r : list ascii * nat * list nat => fst (fst r)) (concat b_list)
            ↔ ∃ text tokens, text ∈ chunk_paths
                ∧ Tokenizer.call max_order text = Ok tokens ∧ k ∈ tokens)
    ∧ ∀ b file r, b_list !! b = Some file → r ∈ file →
        snd (fst r) = chunk_id
        ∧ Z.of_nat b = (hash (fst (fst r)) mod Z.of_nat num_buckets)%Z
        ∧ snd r = docs_with max_order (fst (fst r)) chunk_paths.
Proof.
  intros Hm Hnb. unfold DocFreq.pass1.
  destruct (count_docs_spec max_order Hm (Common.enumerate chunk_paths) (∅, ∅))
    as ([term_doc_freq term_doc_list] & -> & Hc & Hd & Hp). rewrite bind_Ok_l.
  specialize (Hp (map_Forall_empty _)). cbn [fst snd] in Hc, Hd, Hp.
  destruct (emit_all hash chunk_id term_doc_list num_buckets (map_to_list term_doc_freq) Hnb)
    as ([bf bl] & E & _).
  rewrite E, bind_Ok_l. apply emit_postings in E as (Hl & HP & Hb). cbn [snd] in *.
  assert (Hkeys : map (fun r : list ascii * nat * list nat => fst (fst r)) (concat bl)
                  ≡ₚ map fst (map_to_list term_doc_freq)).
  { rewrite HP, map_map. done. }
  exists bf, bl, (size term_doc_freq). split; [done|]. split; [done|]. split.
  { rewrite (Permutation_length HP), length_map. symmetry. apply length_map_to_list. }
  split; [rewrite Hkeys; apply NoDup_fst_map_to_list|]. split.
  - intros k. rewrite Hkeys, <- yielding_pos.
    specialize (Hc k). rewrite lookup_empty, snd_enumerate in Hc. simpl in Hc.
    rewrite <- Hc, list_elem_of_fmap. split.
    + intros ([k' n] & -> & Hkn). apply elem_of_map_to_list in Hkn. simpl.
      rewrite Hkn. simpl. by apply (Hp k').
    + intros Hpos. destruct (term_doc_freq !! k) as [n|] eqn:En; simpl in Hpos; [|lia].
      exists (k, n). split; [done|]. by apply elem_of_map_to_list.
  - intros b file r Hf Hr.
    assert (Hin : r ∈ concat bl).
    { apply list_elem_of_In, in_concat. exists file.
      split; apply list_elem_of_In; [by eapply list_elem_of_lookup_2|done]. }
    rewrite HP in Hin. apply list_elem_of_fmap in Hin as ([k n] & -> & _). cbn [fst snd].
    split; [done|]. split; [by apply (Hb b file _ Hf Hr)|].
    rewrite Hd, lookup_empty. done.
Qed.

Lemma pass1_posting_lists_witness :
  ∃ b_freq b_list n,
    DocFreq.pass1 sample_hash 2 3 (0, sample_docs) = Ok (b_freq, b_list, n)
    ∧ length b_list = 3
    ∧ n = length (concat b_list)
    ∧ NoDup (map (fun r : list ascii * nat * list nat => fst (fst r)) (concat b_list))
    ∧ (∀ k, k ∈ map (fun r : list ascii * nat * list nat => fst (fst r)) (concat b_list)
            ↔ ∃ text tokens, text ∈ sample_docs
                ∧ Tokenizer.call 2 text = Ok tokens ∧ k ∈ tokens)
    ∧ ∀ b file r, b_list !! b = Some file → r ∈ file →
        snd (fst r) = 0
        ∧ Z.of_nat b = (sample_hash (fst (fst r)) mod Z.of_nat 3)%Z
        ∧ snd r = docs_with 2 (fst (fst r)) sample_docs.
Proof. apply (pass1_posting_lists sample_hash 2 3 0 sample_docs); lia. Defined.

(** ** [pass1] without bucket directories *)

(** X22.  For [max_order >= 1] and no bucket directory, [pass1]
    returns 0 without writing anything when the tokenizer yields no
    token on any document of the chunk, and raises ZeroDivisionError
    (from [hash(key) % 0]) as soon as there is a token to write. *)
Theorem pass1_without_buckets (hash : list ascii → Z) (max_order chunk_id : nat)
    (chunk_paths : list (list ascii)) :
  1 ≤ max_order →
  ((∀ text, text ∈ chunk_paths → Tokenizer.call max_order text = Ok []) →
     DocFreq.pass1 hash max_order 0 (chunk_id, chunk_paths) = Ok ([], [], 0))
  ∧ ((∃ text tokens, text ∈ chunk_paths
        ∧ Tokenizer.call max_order text = Ok tokens ∧ tokens ≠ []) →
       DocFreq.pass1 hash max_order 0 (chunk_id, chunk_paths) = Raise ZeroDivisionError).
Proof.
  intros Hm. unfold DocFreq.pass1.
  destruct (count_docs_spec max_order Hm (Common.enumerate chunk_paths) (∅, ∅))
    as ([term_doc_freq term_doc_list] & -> & Hc & _ & Hp). rewrite bind_Ok_l.
  specialize (Hp (map_Forall_empty _)). cbn [fst snd] in Hc, Hp. split.
  - intros Hnone. assert (term_doc_freq = ∅) as ->.
    { apply map_empty. intros k. specialize (Hc k).
      rewrite lookup_empty, snd_enumerate in Hc. simpl in Hc.
      destruct (term_doc_freq !! k) as [n|] eqn:En; [|done]. exfalso.
      specialize (Hp k n En). simpl in Hp, Hc.
      assert (Hpos : 0 < yielding max_order k chunk_paths) by lia.
      apply yielding_pos in Hpos as (text & tokens & Ht & Ec & Hk).
      rewrite (Hnone text Ht) in Ec. injection Ec as <-. by apply elem_of_nil in Hk. }
    by rewrite map_to_list_empty.
  - intros (text & tokens & Ht & Ec & Hne).
    destruct tokens as [|k toks]; [done|].
    assert (Hpos : 0 < yielding max_order k chunk_paths).
    { apply yielding_pos. exists text, (k :: toks). split; [done|]. split; [done|]. by left. }
    specialize (Hc k). rewrite lookup_empty, snd_enumerate in Hc. simpl in Hc.
    destruct (map_to_list term_doc_freq) as [|[key df] kvs] eqn:El.
    + apply map_to_list_empty_iff in El. subst. rewrite lookup_empty in Hc. simpl in Hc. lia.
    + done.
Qed.

Lemma pass1_without_buckets_witness :
  ((∀ text, text ∈ sample_docs → Tokenizer.call 2 text = Ok []) →
     DocFreq.pass1 sample_hash 2 0 (0, sample_docs) = Ok ([], [], 0))
  ∧ ((∃ text tokens, text ∈ sample_docs ∧ Tokenizer.call 2 text = Ok tokens ∧ tokens ≠ []) →
       DocFreq.pass1 sample_hash 2 0 (0, sample_docs) = Raise ZeroDivisionError).
Proof. apply (pass1_without_buckets sample_hash 2 0 sample_docs). lia. Defined.

(** ** The document frequencies of a corpus of long enough documents *)

(** X24.  For [max_order >= 1], a positive chunk size and at least one
    bucket, passes 1 and 2 succeed and the counts recorded for a term
    in the [docfreq] tables of all buckets add up to the number of
    documents on which the tokenizer yields the term; when every
    document has at least [max_order - 1] characters this is the
    number of documents that contain the term as an n-gram of order 1
    to [max_order]. *)
Theorem docfreq_counts_documents_that_yield_the_term (hash : list ascii → Z) (max_order : nat)
    (paths : list (list ascii)) (chunk_size num_buckets : nat) (k : list ascii) :
  1 ≤ max_order → 0 < chunk_size → 0 < num_buckets →
  ∃ b_dirs docfreqs,
    DocFreq.index_corpus hash max_order paths chunk_size num_buckets = Ok (b_dirs, docfreqs)
    ∧ length docfreqs = num_buckets
    ∧ DocFreq.recorded k docfreqs = yielding max_order k paths
    ∧ (Forall (fun text => max_order ≤ S (length text)) paths →
         DocFreq.recorded k docfreqs = DocFreq.containing max_order k paths).
Proof.
  intros Hm Hc Hnb.
  destruct (index_corpus_spec hash max_order Hm paths chunk_size num_buckets k Hc Hnb)
    as (b_dirs & docfreqs & E & Hl & Hr).
  exists b_dirs, docfreqs. split; [done|]. split; [done|]. split; [done|].
  intros Hlong. rewrite Hr. by apply yielding_containing.
Qed.

Lemma docfreq_counts_documents_that_yield_the_term_witness :
  ∃ b_dirs docfreqs,
    DocFreq.index_corpus sample_hash 2 sample_docs 2 3 = Ok (b_dirs, docfreqs)
    ∧ length docfreqs = 3
    ∧ DocFreq.recorded ["a"; "b"]%char docfreqs = yielding 2 ["a"; "b"]%char sample_docs
    ∧ (Forall (fun text => 2 ≤ S (length text)) sample_docs →
         DocFreq.recorded ["a"; "b"]%char docfreqs
         = DocFreq.containing 2 ["a"; "b"]%char sample_docs).
Proof.
  apply (docfreq_counts_documents_that_yield_the_term sample_hash 2 sample_docs 2 3 ["a"; "b"]%char); lia.
Defined.

(** ** [pass2]: one entry per key *)

Lemma weight_cons (k key : list ascii) (value : nat) (file : list (list ascii * nat)) :
  weight k ((key, value) :: file) = (if decide (key = k) then value else 0) + weight k file.
Proof. reflexivity. Qed.

Lemma weight_absent (k : list ascii) (file : list (list ascii * nat)) :
  k ∉ map fst file → weight k file = 0.
Proof.
  induction file as [|[k' v'] file IH]; intros Hin; [done|].
  cbn [map fst] in Hin. apply not_elem_of_cons in Hin as [Hne Hin].
  rewrite weight_cons, decide_False by done. by rewrite IH.
Qed.

Lemma pass2_fold (k : list ascii) (file : list (list ascii * nat)) :
  ∀ (st : gmap (list ascii) nat * nat),
  fst (fold_left (fun '(doc_count, count) '(key, value) =>
                    (<[key := default 0 (doc_count !! key) + value]> doc_count, S count))
                 file st) !! k
  = (if decide (k ∈ map fst file) then Some (default 0 (fst st !! k) + weight k file)
     else fst st !! k)
  ∧ snd (fold_left (fun '(doc_count, count) '(key, value) =>
                    (<[key := default 0 (doc_count !! key) + value]> doc_count, S count))
                 file st)
    = snd st + length file.
Proof.
  induction file as [|[key value] file IH]; intros [dc c]; cbn [fold_left].
  - cbn [fst snd map length]. rewrite decide_False by apply not_elem_of_nil.
    split; [done|lia].
  - destruct (IH (<[key := default 0 (dc !! key) + value]> dc, S c)) as [-> ->].
    cbn [fst snd map length]. split; [|lia]. rewrite lookup_insert, weight_cons.
    destruct (decide (key = k)) as [->|Hne].
    + rewrite (decide_True (P := k ∈ k :: map fst file)) by (by left).
      cbn [default from_option]. unfold Datatypes.id.
      destruct (decide (k ∈ map fst file)) as [Hin|Hin]; [f_equal; lia|].
      f_equal. rewrite (weight_absent k file Hin). lia.
    + destruct (decide (k ∈ map fst file)) as [Hin|Hin].
      * rewrite decide_True by (by right). f_equal.
      * rewrite decide_False; [done|]. apply not_elem_of_cons. split; [congruence|done].
Qed.

Lemma fold_left_concat {A S} (f : S → A → S) (ls : list (list A)) : ∀ s,
  fold_left (fun st l => fold_left f l st) ls s = fold_left f (concat ls) s.
Proof.
  induction ls as [|l ls IH]; intros s; simpl; [done|]. by rewrite fold_left_app, IH.
Qed.

(** X23.  [pass2] returns the number of [.freq] records of the
    bucket, and the [docfreq] file it writes holds each key of those
    records once, with the sum of the counts recorded for it. *)
Theorem pass2_writes_each_key_with_its_sum (b : DocFreq.bucket) :
  snd (DocFreq.pass2 b) = length (concat (DocFreq.freq_files b))
  ∧ NoDup (map fst (fst (DocFreq.pass2 b)))
  ∧ ∀ k v, (k, v) ∈ fst (DocFreq.pass2 b)
           ↔ k ∈ map fst (concat (DocFreq.freq_files b))
             ∧ v = weight k (concat (DocFreq.freq_files b)).
Proof.
  unfold DocFreq.pass2.
  rewrite (fold_left_concat
    (fun '(doc_count, count) '(key, value) =>
       (<[key := default 0 (doc_count !! key) + value]> doc_count, S count))).
  pose proof (fun k => pass2_fold k (concat (DocFreq.freq_files b)) (∅, 0)) as H.
  destruct (fold_left _ (concat (DocFreq.freq_files b)) (∅, 0)) as [doc_count count].
  cbn [fst snd] in *. split; [by destruct (H []) as [_ ->]|].
  split; [apply NoDup_fst_map_to_list|]. intros k v.
  rewrite elem_of_map_to_list. destruct (H k) as [-> _]. rewrite lookup_empty. simpl.
  case_decide as Hin; split.
  - intros [= <-]. done.
  - intros [_ ->]. done.
  - done.
  - intros [? _]. done.
Qed.

